(** * LazyDB: startup recovery, sync and close of the storage engine

    A shallow embedding of [db.go] (package [lazydb]): the engine record
    [LazyDB], [Open], [buildLogFiles], [Sync] and [Close], over an explicit
    model of the database directory.  Go's [uint8]/[uint32] values are [Z]
    with the wrap-around written out, Go maps are [gmap]s, file names are
    [string]s, and a call that does not return (log.Fatalf, a nil
    dereference, a mutex that is never released) is an outcome of its own. *)

From Stdlib Require Import ZArith Lia Ascii String Strings.Byte Sorted Permutation.
From stdpp Require Import gmap strings list fin_maps sorting.
From Equations Require Import Equations.

Local Open Scope Z_scope.

(** ** Machine integers *)

(** Conversion to [uint8] and [uint32]: truncation modulo the width. *)
Definition uint8 (x : Z) : Z := x mod 256.
Definition uint32 (x : Z) : Z := x mod 4294967296.

(** [int] is 64 bits wide on the platforms the engine targets. *)
Definition intSize : Z := 64.
Definition minInt : Z := - 2 ^ (intSize - 1).
Definition maxInt : Z := 2 ^ (intSize - 1) - 1.

(** ** Constants of db.go *)

Definition valueTypeString : Z := 0.
Definition valueTypeList : Z := 1.
Definition valueTypeHash : Z := 2.
Definition valueTypeSet : Z := 3.
Definition valueTypeZSet : Z := 4.
Definition logFileTypeNum : nat := 5.
Definition encodeHeaderSize : nat := 10.

(** Go's [error] values; [None] is [nil]. *)
Inductive error : Type :=
| ErrKeyNotFound
| ErrLogFileNotExist
| ErrOpenLogFile
| ErrWrongIndex
| ErrIO (what : string).

(** ** Library functions used by the directory scan *)

Definition isDigit (c : ascii) : bool :=
  let n := Z.of_nat (nat_of_ascii c) in (48 <=? n) && (n <=? 57).

Definition digitVal (c : ascii) : Z := Z.of_nat (nat_of_ascii c) - 48.

(** The digit loop of strconv.Atoi: a byte that is not a decimal digit is a
    syntax error. *)
Fixpoint parseDigits (s : string) (acc : Z) : option Z :=
  match s with
  | EmptyString => Some acc
  | String c s' =>
      if isDigit c then parseDigits s' (acc * 10 + digitVal c) else None
  end.

Definition isSign (c : ascii) : bool :=
  (Ascii.eqb c "+" || Ascii.eqb c "-")%bool.

(** strconv.Atoi: an optional sign, then one or more decimal digits; the
    value has to fit an [int].  [None] stands for a non-nil error (syntax
    or range). *)
Definition Atoi (s : string) : option Z :=
  match s with
  | EmptyString => None
  | String c rest =>
      let body := if isSign c then rest else s in
      match body with
      | EmptyString => None
      | _ =>
          match parseDigits body 0 with
          | None => None
          | Some n =>
              let v := if Ascii.eqb c "-" then - n else n in
              if (minInt <=? v) && (v <=? maxInt) then Some v else None
          end
      end
  end.

(** strings.Split(s, "."): the fields between the dots; a string without a
    dot (also the empty one) is a single field. *)
Fixpoint SplitDot (s : string) : list string :=
  match s with
  | EmptyString => [EmptyString]
  | String c s' =>
      if Ascii.eqb c "." then EmptyString :: SplitDot s'
      else match SplitDot s' with
           | f :: fs => String c f :: fs
           | [] => [String c EmptyString]
           end
  end.

(** strings.HasPrefix. *)
Definition HasPrefix (s pre : string) : bool := String.prefix pre s.

(** ** Data model *)

(** The configuration fields the engine reads. *)
Record DBConfig : Type := mkDBConfig {
  DBPath : string;
  MaxLogFileSize : Z;
  HashIndexShardCount : Z;
  IOType : Z
}.

(** A segment handle: category and fid; its bytes live in the directory. *)
Record LogFile : Type := mkLogFile {
  Fid : Z;
  FType : Z
}.

(** [MutexLogFile]: the handle and whether its lock is held. *)
Record MutexLogFile : Type := mkMutexLogFile {
  lf : LogFile;
  locked : bool
}.

Record Value : Type := mkValue {
  value : list byte;
  vType : Z;
  vFid : Z;
  vOffset : Z;
  vEntrySize : Z;
  expiredAt : Z
}.

Record ValuePos : Type := mkValuePos {
  fid : Z;
  offset : Z;
  entrySize : Z
}.

(** The engine.  [fidsMap] holds each category's [fids] slice,
    [archivedLogFile] each category's fid-keyed concurrent map. *)
Record LazyDB : Type := mkLazyDB {
  cfg : DBConfig;
  index : gmap string Value;
  strIndex : gmap string Value;
  hashIndex : gmap string (gmap string Value);
  listIndex : gmap string (gmap string Value);
  fidsMap : gmap Z (list Z);
  activeLogFileMap : gmap Z MutexLogFile;
  archivedLogFile : gmap Z (gmap Z MutexLogFile)
}.

Definition setFids (typ : Z) (l : list Z) (db : LazyDB) : LazyDB :=
  mkLazyDB (cfg db) (index db) (strIndex db) (hashIndex db) (listIndex db)
    (<[typ := l]> (fidsMap db)) (activeLogFileMap db) (archivedLogFile db).

Definition setActive (typ : Z) (m : MutexLogFile) (db : LazyDB) : LazyDB :=
  mkLazyDB (cfg db) (index db) (strIndex db) (hashIndex db) (listIndex db)
    (fidsMap db) (<[typ := m]> (activeLogFileMap db)) (archivedLogFile db).

Definition setArchived (typ : Z) (a : gmap Z MutexLogFile) (db : LazyDB)
  : LazyDB :=
  mkLazyDB (cfg db) (index db) (strIndex db) (hashIndex db) (listIndex db)
    (fidsMap db) (activeLogFileMap db) (<[typ := a]> (archivedLogFile db)).

(** ** The world outside the engine *)

Inductive logmsg : Type :=
| InvalidLogFileName (name : string).

(** The database directory: whether it exists, its entries in listing order
    with their bytes, what log.Printf has written, and the segments whose
    Sync was called, in call order. *)
Record World : Type := mkWorld {
  wExists : bool;
  wDir : list (string * list byte);
  wLog : list logmsg;
  wSynced : list LogFile
}.

(** The failures the operating system may report. *)
Record Env : Type := mkEnv {
  envMkdirAll : option error;
  envReadDir : option error;
  envOpen : Z -> Z -> option error;
  envSync : LogFile -> option error;
  envWrite : LogFile -> option error
}.

(** How a call ends: it returns, the process exits (log.Fatalf), it panics
    on a nil pointer, or it waits for ever on a held mutex. *)
Inductive Outcome (A : Type) : Type :=
| Ret (a : A) (w : World)
| Exit
| Panic
| Blocked.
Arguments Ret {A} a w.
Arguments Exit {A}.
Arguments Panic {A}.
Arguments Blocked {A}.

Definition M (A : Type) : Type := World -> Outcome A.

Definition ret {A} (a : A) : M A := fun w => Ret a w.

Definition bind {A B} (k : A -> M B) (m : M A) : M B :=
  fun w => match m w with
           | Ret a w' => k a w'
           | Exit => Exit
           | Panic => Panic
           | Blocked => Blocked
           end.

#[global] Instance M_ret : MRet M := @ret.
#[global] Instance M_bind : MBind M := @bind.

Definition Fatalf {A} : M A := fun _ => Exit.
Definition nilDeref {A} : M A := fun _ => Panic.
Definition block {A} : M A := fun _ => Blocked.

Definition Printf (m : logmsg) : M unit :=
  fun w => Ret tt (mkWorld (wExists w) (wDir w) (wLog w ++ [m]) (wSynced w)).

(** What a call returned, without the world it left. *)
Definition result {A} (o : Outcome A) : Outcome A :=
  match o with
  | Ret a _ => Ret a (mkWorld false [] [] [])
  | o' => o'
  end.

(** ** The operating system and package logfile *)

Definition PathExist : M bool := fun w => Ret (wExists w) w.

Definition MkdirAll (env : Env) : M (option error) :=
  fun w => match envMkdirAll env with
           | Some e => Ret (Some e) w
           | None => Ret None (mkWorld true (wDir w) (wLog w) (wSynced w))
           end.

(** os.ReadDir: the names of the entries, or an error. *)
Definition ReadDir (env : Env) : M (list string + error) :=
  fun w => match envReadDir env with
           | Some e => Ret (inr e) w
           | None =>
               if wExists w then Ret (inl (map fst (wDir w))) w
               else Ret (inr (ErrIO "no such directory")) w
           end.

(** The bytes of the entry of a name, if the directory has one. *)
Definition lookupFile (name : string) (d : list (string * list byte))
  : option (list byte) :=
  snd <$> List.find (fun e => String.eqb (fst e) name) d.

(** A new empty file takes its place in the listing, which os.ReadDir
    returns sorted by name. *)
Fixpoint createFile (name : string) (d : list (string * list byte))
  : list (string * list byte) :=
  match d with
  | [] => [(name, [])]
  | e :: d' =>
      if String.leb name (fst e) then (name, []) :: e :: d'
      else e :: createFile name d'
  end.

(** The bytes read under a name; none when there is no such file. *)
Definition fileContent (name : string) (w : World) : list byte :=
  default [] (lookupFile name (wDir w)).

(** Appending to a file of the directory. *)
Fixpoint appendFile (name : string) (bytes : list byte)
  (d : list (string * list byte)) : list (string * list byte) :=
  match d with
  | [] => []
  | e :: d' =>
      if String.eqb (fst e) name then (fst e, snd e ++ bytes) :: d'
      else e :: appendFile name bytes d'
  end.

(** The categories Open makes registries for. *)
Definition isCategory (typ : Z) : Prop := 0 <= typ < Z.of_nat logFileTypeNum.

(** ** Names of the directory scan, as predicates *)

(** A decimal number as strconv.Atoi reads one: an optional sign and at
    least one digit. *)
Fixpoint allDigits (s : string) : bool :=
  match s with
  | EmptyString => true
  | String c s' => isDigit c && allDigits s'
  end.

Definition numeric (s : string) : bool :=
  match s with
  | EmptyString => false
  | String c rest =>
      if isSign c then
        match rest with EmptyString => false | _ => allDigits rest end
      else allDigits s
  end.

(** The handle recovery makes for a discovered fid. *)
Definition recovered (typ fid : Z) : MutexLogFile :=
  mkMutexLogFile (mkLogFile fid typ) false.

(** Archiving the segments of a list of fids, in order. *)
Definition archiveAll (typ : Z) (l : list Z) (a : gmap Z MutexLogFile)
  : gmap Z MutexLogFile :=
  foldl (fun acc f => <[f := recovered typ f]> acc) a l.

(** The claim that the archived map holds the discovered fids other than
    the active one, and only those. *)
Definition archivesTheOthers (typ : Z) (D : list Z) (db' : LazyDB) : Prop :=
  exists mlf a,
    activeLogFileMap db' !! typ = Some mlf
    /\ Fid (lf mlf) ∈ D
    /\ (forall f, f ∈ D -> f <= Fid (lf mlf))
    /\ archivedLogFile db' !! typ = Some a
    /\ forall f, is_Some (a !! f) <-> f ∈ D /\ f <> Fid (lf mlf).

(** The segments a run of the Sync loop over [order] calls Sync on. *)
Definition syncedOf (db : LazyDB) (order : list Z) : list LogFile :=
  omap (fun t => lf <$> activeLogFileMap db !! t) order.

Definition addSynced (l : list LogFile) (w : World) : World :=
  mkWorld (wExists w) (wDir w) (wLog w) (wSynced w ++ l).

(** Two computations that end the same way and return the same value,
    whatever worlds they start from. *)
Definition sameResult {A} (m1 m2 : M A) : Prop :=
  forall w1 w2, result (m1 w1) = result (m2 w2).

(** ** Transactions *)

(** An entry of package logfile, with the fields these sources set. *)
Module logfile.
Record LogEntry : Type := mkLogEntry {
  Key : list byte;
  Value : list byte;
  ExpiredAt : Z
}.
End logfile.

(** A transaction: the string entries it holds back, and its other
    fields, whatever they are. *)
Record Tx {R : Type} : Type := mkTx {
  pendingStr : list logfile.LogEntry;
  txOther : R
}.
Arguments Tx R : clear implicits.
Arguments mkTx {R} pendingStr txOther.

(** [(tx *Tx) Set]: the entry goes to the end of the pending ones. *)
Definition Tx_Set {R} (key value : list byte) (tx : Tx R) : Tx R :=
  mkTx (pendingStr tx ++ [logfile.mkLogEntry key value 0]) (txOther tx).

(** ** Keys and values of the tests *)

Definition digitOf (d : N) : ascii := ascii_of_N (48 + d).

(** The decimal digits of a number, without leading zeros. *)
Equations? digitsOf (n : N) : string by wf (N.to_nat n) lt :=
  digitsOf n with decide (n < 10)%N := {
    | left _ := String (digitOf n) EmptyString;
    | right _ := (digitsOf (n / 10) ++ String (digitOf (n mod 10)) EmptyString)%string }.
Proof.
  assert (n / 10 < n)%N by (apply N.div_lt; lia). lia.
Qed.

Fixpoint zeros (k : nat) : string :=
  match k with
  | O => EmptyString
  | S k' => String "0" (zeros k')
  end.

(** Padding with zeros on the left up to a width; a longer text stays. *)
Definition padZeros (width : nat) (s : string) : string :=
  (zeros (width - String.length s) ++ s)%string.

(** fmt.Sprintf("%09d", n): the sign of a negative number first, then the
    digits, with zeros between them up to nine characters in all. *)
Definition Sprintf09d (n : Z) : string :=
  if n <? 0 then String "-" (padZeros 8 (digitsOf (Z.abs_N n)))
  else padZeros 9 (digitsOf (Z.abs_N n)).

Definition GetKey (n : Z) : string :=
  ("kvstore-bench-key------" ++ Sprintf09d n)%string.

Definition alphabet : string := "abcdefghijklmnopqrstuvwxyz0123456789".

(** The loop of GetValue from its round [i] on, [k] rounds to go; [rnd i]
    is what rand.Int returns in round [i].  [None] is an index out of
    range. *)
Fixpoint GetValueFrom (rnd : nat -> N) (i k : nat) : option string :=
  match k with
  | O => Some EmptyString
  | S k' =>
      match String.get (N.to_nat (rnd i mod 36)) alphabet with
      | None => None
      | Some c =>
          match GetValueFrom rnd (S i) k' with
          | None => None
          | Some s => Some (String c s)
          end
      end
  end.

Definition GetValue (rnd : nat -> N) (n : Z) : option string :=
  GetValueFrom rnd 0 (Z.to_nat n).

Definition GetValue32 (rnd : nat -> N) : option string := GetValue rnd 32.

(** ** Package logfile *)

(** Package logfile is not part of these sources: its prefix of segment
    file names, its table from the middle field of a name to a category
    and its naming of a segment are the fields of an interface. *)
Class Logfile : Type := mkLogfile {
  FilePrefix : string;
  FileTypesMap : gmap string Z;
  FileName : Z -> Z -> string
}.

(** ** An example instance of package logfile *)

Definition stdFilePrefix : string := "log.".

Definition stdFileTypesMap : gmap string Z :=
  <["strs" := 0]> (<["list" := 1]> (<["hash" := 2]>
    (<["sets" := 3]> (<["zset" := 4]> ∅)))).

Definition stdTypeName (typ : Z) : string :=
  if typ =? 0 then "strs" else if typ =? 1 then "list"
  else if typ =? 2 then "hash" else if typ =? 3 then "sets" else "zset".

Definition digitChar (d : Z) : ascii := ascii_of_nat (Z.to_nat (48 + d)).

Fixpoint decimal (width : nat) (n : Z) (acc : string) : string :=
  match width with
  | O => acc
  | S k => decimal k (n / 10) (String (digitChar (n mod 10)) acc)
  end.

(** Segment names of the form log.strs.0000000001. *)
Definition stdFileName (typ fid : Z) : string :=
  (stdFilePrefix ++ stdTypeName typ ++ "." ++ decimal 10 fid "")%string.

Definition noFaults : Env :=
  mkEnv None None (fun _ _ => None) (fun _ => None) (fun _ => None).

Definition stdConfig : DBConfig := mkDBConfig "/tmp/lazydb" 150 16 0.

Definition dirOf (names : list string) : World :=
  mkWorld true (map (fun n => (n, [])) names) [] [].

Definition stdLogfile : Logfile :=
  mkLogfile stdFilePrefix stdFileTypesMap stdFileName.

Section Engine.

Context {L : Logfile}.

(** Modelled from the spec: logfile.Open, which is not in src.  It opens the
    segment of a category and fid, creating its file when there is none,
    and fails with what the operating system reports. *)
Definition logfileOpen (env : Env) (typ fid : Z) : M (LogFile + error) :=
  fun w => match envOpen env typ fid with
           | Some e => Ret (inr e) w
           | None =>
               let name := FileName typ fid in
               let d := match lookupFile name (wDir w) with
                        | Some _ => wDir w
                        | None => createFile name (wDir w)
                        end in
               Ret (inl (mkLogFile fid typ))
                   (mkWorld (wExists w) d (wLog w) (wSynced w))
           end.

(** Modelled from the spec: LogFile.Sync, which is not in src.  The call is
    recorded; the operating system decides whether it fails. *)
Definition logfileSync (env : Env) (f : LogFile) : M (option error) :=
  fun w => Ret (envSync env f)
               (mkWorld (wExists w) (wDir w) (wLog w) (wSynced w ++ [f])).

(** ** Open and buildLogFiles *)

(** The loop of Open over the categories: a fresh [MutexFids] and a fresh
    concurrent map for each. *)
Fixpoint initMaps (n : nat) (db : LazyDB) : LazyDB :=
  match n with
  | O => db
  | S k =>
      let db' := initMaps k db in
      setArchived (Z.of_nat k) ∅ (setFids (Z.of_nat k) [] db')
  end.

Definition newLazyDB (c : DBConfig) : LazyDB :=
  initMaps logFileTypeNum (mkLazyDB c ∅ ∅ ∅ ∅ ∅ ∅ ∅).

(** One round of the loop over the directory entries. *)
Definition scanEntry (name : string) (db : LazyDB) : M LazyDB :=
  if negb (HasPrefix name FilePrefix) then ret db
  else
    match SplitDot name with
    | [_; field1; field2] =>
        let typ := uint8 (default 0 (FileTypesMap !! field1)) in
        match Atoi field2 with
        | None => Printf (InvalidLogFileName name) ;; ret db
        | Some fid =>
            match fidsMap db !! typ with
            | None => nilDeref
            | Some fids => ret (setFids typ (fids ++ [uint32 fid]) db)
            end
        end
    | _ => Printf (InvalidLogFileName name) ;; ret db
    end.

Fixpoint scanDir (names : list string) (db : LazyDB) : M LazyDB :=
  match names with
  | [] => ret db
  | name :: rest => db' ← scanEntry name db; scanDir rest db'
  end.

(** sort.Slice with [fids[i] < fids[j]]: the ascending rearrangement. *)
Fixpoint insertFid (x : Z) (l : list Z) : list Z :=
  match l with
  | [] => [x]
  | y :: l' => if x <=? y then x :: y :: l' else y :: insertFid x l'
  end.

Fixpoint sortFids (l : list Z) : list Z :=
  match l with
  | [] => []
  | x :: l' => insertFid x (sortFids l')
  end.

(** The loop of [build] over the sorted fids; [i] is the loop index and [n]
    the length of the slice. *)
Fixpoint openLoop (env : Env) (typ : Z) (n i : nat) (fids : list Z)
  (db : LazyDB) : M LazyDB :=
  match fids with
  | [] => ret db
  | fid :: rest =>
      r ← logfileOpen env typ fid;
      match r with
      | inr _ => Fatalf
      | inl f =>
          let mlf := mkMutexLogFile f false in
          if Nat.eqb i (n - 1) then
            openLoop env typ n (S i) rest (setActive typ mlf db)
          else
            match archivedLogFile db !! typ with
            | None => nilDeref
            | Some a =>
                openLoop env typ n (S i) rest
                  (setArchived typ (<[fid := mlf]> a) db)
            end
      end
  end.

(** The closure [build] of buildLogFiles.  The slice it sorts shares its
    array with the registry, so the registry is sorted too. *)
Definition build (env : Env) (typ : Z) (db : LazyDB) : M LazyDB :=
  match fidsMap db !! typ with
  | None => nilDeref
  | Some [] => ret db
  | Some fids =>
      let sorted := sortFids fids in
      openLoop env typ (length sorted) 0 sorted (setFids typ sorted db)
  end.

Fixpoint buildFrom (env : Env) (typ : Z) (n : nat) (db : LazyDB) : M LazyDB :=
  match n with
  | O => ret db
  | S k => db' ← build env typ db; buildFrom env (typ + 1) k db'
  end.

Definition buildLogFiles (env : Env) (db : LazyDB)
  : M (LazyDB * option error) :=
  r ← ReadDir env;
  match r with
  | inr e => ret (db, Some e)
  | inl fileInfos =>
      db1 ← scanDir fileInfos db;
      db2 ← buildFrom env 0 logFileTypeNum db1;
      ret (db2, None)
  end.

Definition Open (env : Env) (c : DBConfig)
  : M (option LazyDB * option error) :=
  ok ← PathExist;
  mk ← (if negb ok then MkdirAll env else ret None);
  match mk with
  | Some _ => Fatalf
  | None =>
      r ← buildLogFiles env (newLazyDB c);
      match r with
      | (_, Some _) => Fatalf
      | (db, None) => ret (Some db, None)
      end
  end.

(** ** Sync and Close *)

Definition setLocked (b : bool) (m : MutexLogFile) : MutexLogFile :=
  mkMutexLogFile (lf m) b.

(** The loop of Sync, over the keys of [activeLogFileMap] in the order the
    map iteration yields them. *)
Fixpoint syncLoop (env : Env) (order : list Z) (db : LazyDB)
  : M (LazyDB * option error) :=
  match order with
  | [] => ret (db, None)
  | typ :: rest =>
      match activeLogFileMap db !! typ with
      | None => syncLoop env rest db
      | Some mlf =>
          if locked mlf then block
          else
            let held := setActive typ (setLocked true mlf) db in
            r ← logfileSync env (lf mlf);
            match r with
            | Some e => ret (held, Some e)
            | None => syncLoop env rest (setActive typ (setLocked false mlf) held)
            end
      end
  end.

(** An iteration order of a Go map: its keys, each once, in any order. *)
Definition iterationOrder (order : list Z) (db : LazyDB) : Prop :=
  order ≡ₚ map fst (map_to_list (activeLogFileMap db)).

Definition Sync (env : Env) (order : list Z) (db : LazyDB)
  : M (LazyDB * option error) :=
  syncLoop env order db.

Definition Close (db : LazyDB) : M (LazyDB * option error) :=
  ret (db, None).

(** ** The write path and the read path *)

Definition segmentName (f : LogFile) : string := FileName (FType f) (Fid f).

(** Modelled from the spec: the size of a segment, the length of its
    file. *)
Definition segmentSize (f : LogFile) (w : World) : Z :=
  Z.of_nat (length (fileContent (segmentName f) w)).

(** Modelled from the spec: append of a segment, which is not in src.  The
    bytes go to the end of the file and the call returns the offset they
    start at; a failed write leaves the file as it was. *)
Definition logfileAppend (env : Env) (f : LogFile) (bytes : list byte)
  : M (Z + error) :=
  fun w => match envWrite env f with
           | Some e => Ret (inr e) w
           | None =>
               Ret (inl (segmentSize f w))
                   (mkWorld (wExists w)
                      (appendFile (segmentName f) bytes (wDir w))
                      (wLog w) (wSynced w))
           end.

Definition maxFid (fids : list Z) : Z := foldr Z.max 0 fids.

(** Modelled from the spec: fid minting, max(known fids) + 1, in the
    unsigned 32 bits of a fid: after 4294967295 comes 0. *)
Definition mintFid (fids : list Z) : Z := uint32 (maxFid fids + 1).

(** Modelled from the spec: writeEntry of a category's segment set, which
    is not in src; writeLogEntry is writeEntry on the encoded entry.
    With no active segment one is created.  When the bytes would take the
    active segment over the maximum size, a fid is minted and entered in
    the registry, the active segment moves to the archived map and the
    segment of the new fid becomes active.  Then the bytes are appended.
    A failure to open leaves the engine as it was. *)
Definition writeEntry (env : Env) (typ : Z) (encoded : list byte)
  (db : LazyDB) : M (LazyDB * (ValuePos + error)) :=
  match fidsMap db !! typ, archivedLogFile db !! typ with
  | Some fids, Some arch =>
      size ← (fun w => Ret (match activeLogFileMap db !! typ with
                             | Some mlf => segmentSize (lf mlf) w
                             | None => 0
                             end) w);
      r ← match activeLogFileMap db !! typ with
          | Some mlf =>
              if size + Z.of_nat (length encoded) >? MaxLogFileSize (cfg db)
              then
                o ← logfileOpen env typ (mintFid fids);
                match o with
                | inr e => ret (db, inr e)
                | inl f =>
                    ret (setActive typ (mkMutexLogFile f false)
                           (setArchived typ (<[Fid (lf mlf) := mlf]> arch)
                              (setFids typ (fids ++ [mintFid fids]) db)),
                         inl f)
                end
              else ret (db, inl (lf mlf))
          | None =>
              o ← logfileOpen env typ (mintFid fids);
              match o with
              | inr e => ret (db, inr e)
              | inl f =>
                  ret (setActive typ (mkMutexLogFile f false)
                         (setFids typ (fids ++ [mintFid fids]) db),
                       inl f)
              end
          end;
      match r with
      | (db1, inr e) => ret (db1, inr e)
      | (db1, inl f) =>
          a ← logfileAppend env f encoded;
          match a with
          | inr e => ret (db1, inr e)
          | inl off =>
              ret (db1, inl (mkValuePos (Fid f) off
                               (Z.of_nat (length encoded))))
          end
      end
  | _, _ => nilDeref
  end.

(** A sequence of writes, each to its category. *)
Fixpoint writeAll (env : Env) (ws : list (Z * list byte)) (db : LazyDB)
  : M (LazyDB * list (ValuePos + error)) :=
  match ws with
  | [] => ret (db, [])
  | (typ, encoded) :: rest =>
      r ← writeEntry env typ encoded db;
      rs ← writeAll env rest r.1;
      ret (rs.1, r.2 :: rs.2)
  end.

(** Modelled from the spec: the archived lookup path. *)
Definition getArchivedLogFile (db : LazyDB) (typ fid : Z)
  : option MutexLogFile :=
  archivedLogFile db !! typ ≫= fun arch => arch !! fid.

(** Modelled from the spec: the segment a fid is read from, the active one
    when the fid is its fid and an archived one otherwise. *)
Definition getLogFile (db : LazyDB) (typ fid : Z) : option LogFile :=
  match activeLogFileMap db !! typ with
  | Some mlf =>
      if Fid (lf mlf) =? fid then Some (lf mlf)
      else lf <$> getArchivedLogFile db typ fid
  | None => lf <$> getArchivedLogFile db typ fid
  end.

(** Modelled from the spec: readAt of a category's segment set. *)
Definition readAt (db : LazyDB) (typ fid : Z) (off len : nat)
  : M (list byte + error) :=
  fun w => match getLogFile db typ fid with
           | None => Ret (inr ErrLogFileNotExist) w
           | Some f =>
               let c := fileContent (segmentName f) w in
               if (off + len <=? length c)%nat
               then Ret (inl (take len (drop off c))) w
               else Ret (inr (ErrIO "read out of range")) w
           end.

(** ** What the scan reads off the names *)

(** An entry the scan has no use for: its name lacks the prefix, or does
    not split into three fields, or its fid field is not a number. *)
Definition malformed (name : string) : bool :=
  negb (HasPrefix name FilePrefix)
  || match SplitDot name with
     | [_; _; field2] => negb (numeric field2)
     | _ => true
     end.

(** The category and the fid the scan reads off a name. *)
Definition parseName (name : string) : option (Z * Z) :=
  if HasPrefix name FilePrefix then
    match SplitDot name with
    | [_; field1; field2] =>
        match Atoi field2 with
        | Some n => Some (uint8 (default 0 (FileTypesMap !! field1)), uint32 n)
        | None => None
        end
    | _ => None
    end
  else None.

(** The fids the scan discovers for a category, in listing order. *)
Fixpoint discovered (typ : Z) (names : list string) : list Z :=
  match names with
  | [] => []
  | name :: rest =>
      match parseName name with
      | Some (t, f) =>
          if decide (t = typ) then f :: discovered typ rest
          else discovered typ rest
      | None => discovered typ rest
      end
  end.

(** ** The engine and its directory *)

(** A fid of a category that the scan of the directory would discover. *)
Definition known (typ : Z) (w : World) (f : Z) : Prop :=
  f ∈ discovered typ (map fst (wDir w)).

(** The scan reads the name of every segment of the registry back as the
    category and the fid it was named for. *)
Definition namesReadBack (db : LazyDB) : Prop :=
  map_Forall (fun typ fids =>
    Forall (fun f => parseName (FileName typ f) = Some (typ, f)) fids)
    (fidsMap db).

(** Modelled from the spec: the on-disk layout, one file for a category
    and a fid, named to encode both unambiguously.  Package logfile names
    the segment of a category and a 32-bit fid so that the scan reads that
    category and that fid off the name. *)
Definition namesEncode : Prop :=
  forall typ f,
    isCategory typ -> 0 <= f < 4294967296 ->
    parseName (FileName typ f) = Some (typ, f).

(** The active fid of every category is the largest fid of its registry:
    no rotation has minted a fid past 4294967295. *)
Definition activeIsMax (db : LazyDB) : Prop :=
  forall typ fids mlf,
    fidsMap db !! typ = Some fids ->
    activeLogFileMap db !! typ = Some mlf ->
    Fid (lf mlf) = maxFid fids.

(** A category whose fid has wrapped: its registry holds 4294967295 and its
    active segment is the one of fid 0. *)
Definition wrapped (typ : Z) (db : LazyDB) : Prop :=
  exists fids mlf,
    fidsMap db !! typ = Some fids
    /\ activeLogFileMap db !! typ = Some mlf
    /\ maxFid fids = 4294967295
    /\ Fid (lf mlf) = 0.

(** Only the categories have registries, and these hold 32-bit fids. *)
Definition registryInRange (db : LazyDB) : Prop :=
  forall typ fids,
    fidsMap db !! typ = Some fids ->
    isCategory typ /\ forall f, f ∈ fids -> 0 <= f < 4294967296.

(** The engine agrees with its directory on a category: the registry holds
    the fids the scan would discover, the active segment is the one of the
    largest of them, and every archived segment is the one of a fid of the
    registry. *)
Definition consistentAt (typ : Z) (db : LazyDB) (w : World) : Prop :=
  exists fids arch,
    fidsMap db !! typ = Some fids
    /\ archivedLogFile db !! typ = Some arch
    /\ Forall (fun f => 0 <= f) fids
    /\ (forall f, f ∈ fids <-> known typ w f)
    /\ match activeLogFileMap db !! typ with
       | Some mlf => lf mlf = mkLogFile (maxFid fids) typ /\ maxFid fids ∈ fids
       | None => fids = []
       end
    /\ forall f m, arch !! f = Some m -> f ∈ fids /\ lf m = mkLogFile f typ.

Definition consistent (db : LazyDB) (w : World) : Prop :=
  forall typ, isCategory typ -> consistentAt typ db w.

(** Two states of the directory with the same files as far as the engine
    can tell: the same bytes under every name and the same fids to
    discover. *)
Definition sameFiles (w w' : World) : Prop :=
  wExists w' = wExists w
  /\ (forall n, fileContent n w' = fileContent n w)
  /\ forall t x, known t w' x <-> known t w x.

(** Every fid of a registry of [db] is in the same registry of [db']. *)
Definition registrySubset (db db' : LazyDB) : Prop :=
  forall typ fids,
    fidsMap db !! typ = Some fids ->
    exists fids', fidsMap db' !! typ = Some fids' /\ forall f, f ∈ fids -> f ∈ fids'.

(** The engine after a write that opened the segment [h] of a new fid. *)
Definition withNewSegment (typ : Z) (fids : list Z)
  (arch : gmap Z MutexLogFile) (h : LogFile) (db : LazyDB) : LazyDB :=
  match activeLogFileMap db !! typ with
  | Some mlf =>
      setActive typ (mkMutexLogFile h false)
        (setArchived typ (<[Fid (lf mlf) := mlf]> arch)
           (setFids typ (fids ++ [mintFid fids]) db))
  | None =>
      setActive typ (mkMutexLogFile h false)
        (setFids typ (fids ++ [mintFid fids]) db)
  end.

Definition logged (name : string) (w : World) : World :=
  mkWorld (wExists w) (wDir w) (wLog w ++ [InvalidLogFileName name])
    (wSynced w).

(** What [build] leaves for its own category. *)
Definition builtFor (typ : Z) (db db' : LazyDB) : Prop :=
  exists fids a,
    fidsMap db !! typ = Some fids
    /\ archivedLogFile db !! typ = Some a
    /\ fidsMap db' !! typ = Some (sortFids fids)
    /\ ((fids = [] /\ activeLogFileMap db' !! typ = activeLogFileMap db !! typ
         /\ archivedLogFile db' !! typ = Some a)
        \/ exists init m,
             sortFids fids = init ++ [m]
             /\ activeLogFileMap db' !! typ = Some (recovered typ m)
             /\ archivedLogFile db' !! typ = Some (archiveAll typ init a)).

(** A category left as it was. *)
Definition untouched (typ : Z) (db db' : LazyDB) : Prop :=
  fidsMap db' !! typ = fidsMap db !! typ
  /\ activeLogFileMap db' !! typ = activeLogFileMap db !! typ
  /\ archivedLogFile db' !! typ = archivedLogFile db !! typ.

(** What recovery leaves for a category, from the fids [D] discovered for
    it: the registry is [D] sorted; the last fid of the sorted list is
    active and the fids before it are archived; with no fid discovered
    there is no active segment. *)
Definition recoveredCategory (typ : Z) (D : list Z) (db' : LazyDB) : Prop :=
  fidsMap db' !! typ = Some (sortFids D)
  /\ ((D = [] /\ activeLogFileMap db' !! typ = None
       /\ archivedLogFile db' !! typ = Some ∅)
      \/ exists init m,
           sortFids D = init ++ [m]
           /\ activeLogFileMap db' !! typ = Some (recovered typ m)
           /\ archivedLogFile db' !! typ = Some (archiveAll typ init ∅)).

(** Every fid of the registry is known to the directory and named so that
    the scan reads it back. *)
Definition registryKnown (db : LazyDB) (w : World) : Prop :=
  forall typ fids f,
    fidsMap db !! typ = Some fids -> f ∈ fids ->
    known typ w f /\ parseName (FileName typ f) = Some (typ, f).

(** An operating system that reads the directory and opens every segment
    without a failure. *)
Definition opensAll (env : Env) : Prop :=
  envReadDir env = None /\ forall typ f, envOpen env typ f = None.

(** A directory and an engine a later Open can scan: the directory exists,
    and only the categories have fids to discover and registries. *)
Definition reopenable (db : LazyDB) (w : World) : Prop :=
  wExists w = true
  /\ (forall t x, known t w x -> isCategory t)
  /\ forall typ, is_Some (fidsMap db !! typ) -> isCategory typ.

(** Two engines with the same configuration and the same indexes. *)
Definition sameIndexes (db db' : LazyDB) : Prop :=
  cfg db' = cfg db /\ index db' = index db /\ strIndex db' = strIndex db
  /\ hashIndex db' = hashIndex db /\ listIndex db' = listIndex db.

(** Every name of a listing that the scan reads a fid off has a category
    that Open made a registry for. *)
Definition scans (names : list string) : Prop :=
  forall n t f, n ∈ names -> parseName n = Some (t, f) -> isCategory t.

(** Every segment the scan of a listing discovers can be opened. *)
Definition opensDiscovered (env : Env) (names : list string) : Prop :=
  forall typ f, f ∈ discovered typ names -> envOpen env typ f = None.

End Engine.

(** * Concrete directories and engines *)

(** A directory with two string segments, a hash segment and a stray file. *)
Definition exampleDir : World :=
  dirOf ["log.hash.0000000007"; "log.strs.0000000001"; "log.strs.0000000002";
         "readme"].

(** An engine with an active string segment and an active hash segment. *)
Definition syncExampleDB : LazyDB :=
  setActive valueTypeString (recovered valueTypeString 2)
    (setActive valueTypeHash (recovered valueTypeHash 7) (newLazyDB stdConfig)).

(** An operating system that fails to sync hash segments. *)
Definition hashSyncFails : Env :=
  mkEnv None None (fun _ _ => None)
    (fun f => if FType f =? valueTypeHash then Some (ErrIO "sync") else None)
    (fun _ => None).

(** An engine whose active string segment, of fid 2, holds 120 bytes. *)
Definition rotationExampleDB : LazyDB :=
  setFids valueTypeString [1; 2] syncExampleDB.


(** Three entries of 60 bytes for the string category: with a maximum
    size of 150 the third one rotates. *)
Definition threeWrites : list (Z * list byte) :=
  [(valueTypeString, repeat x00 60); (valueTypeString, repeat x01 60);
   (valueTypeString, repeat x02 60)].

(** The engine and the world a call returned. *)
Definition engineOf {A} (o : Outcome (option LazyDB * A)) : LazyDB :=
  match o with
  | Ret (Some db, _) _ => db
  | _ => newLazyDB stdConfig
  end.

Definition worldOf {A} (o : Outcome A) : World :=
  match o with
  | Ret _ w => w
  | _ => dirOf []
  end.

(** A session: Open on a missing directory, three writes, Open again. *)
Definition firstOpen : Outcome (option LazyDB * option error) :=
  Open (L := stdLogfile) noFaults stdConfig
    (mkWorld false [] [] []).

Definition afterWrites : Outcome (LazyDB * list (ValuePos + error)) :=
  writeAll (L := stdLogfile) noFaults threeWrites (engineOf firstOpen)
    (worldOf firstOpen).

Definition writtenDB : LazyDB :=
  match afterWrites with Ret (db, _) _ => db | _ => newLazyDB stdConfig end.

Definition writeResults : list (ValuePos + error) :=
  match afterWrites with Ret (_, rs) _ => rs | _ => [] end.

Definition secondOpen : Outcome (option LazyDB * option error) :=
  Open (L := stdLogfile) noFaults stdConfig
    (worldOf afterWrites).

(** Recovery of the example directory by a fresh engine, and Open on it. *)
Definition exampleRecovery : Outcome (LazyDB * option error) :=
  buildLogFiles (L := stdLogfile) noFaults (newLazyDB stdConfig) exampleDir.

Definition recoveredDB : LazyDB :=
  match exampleRecovery with
  | Ret (db, _) _ => db
  | _ => newLazyDB stdConfig
  end.

Definition exampleOpen : Outcome (option LazyDB * option error) :=
  Open (L := stdLogfile) noFaults stdConfig exampleDir.

(** The engine that a Sync with a failing hash segment leaves: the lock of
    the hash segment is held. *)
Definition failedSyncDB : LazyDB :=
  setActive valueTypeHash (setLocked true (recovered valueTypeHash 7))
    syncExampleDB.

(** An operating system that cannot make the directory. *)
Definition mkdirFails : Env :=
  mkEnv (Some (ErrIO "mkdir")) None (fun _ _ => None) (fun _ => None)
    (fun _ => None).

(** A session at the largest fid: the directory holds the string segment
    of fid 4294967295 with 120 bytes, and one entry of 60 bytes is
    written, which rotates. *)
Definition largestFidDir : World :=
  mkWorld true [("log.strs.4294967295", repeat x00 120)] [] [].

Definition largestFidOpen : Outcome (option LazyDB * option error) :=
  Open (L := stdLogfile) noFaults stdConfig largestFidDir.

Definition largestFidWrite : Outcome (LazyDB * list (ValuePos + error)) :=
  writeAll (L := stdLogfile) noFaults [(valueTypeString, repeat x01 60)]
    (engineOf largestFidOpen) (worldOf largestFidOpen).

Definition largestFidDB : LazyDB :=
  match largestFidWrite with
  | Ret (db, _) _ => db
  | _ => newLazyDB stdConfig
  end.

Definition largestFidResults : list (ValuePos + error) :=
  match largestFidWrite with Ret (_, rs) _ => rs | _ => [] end.

Definition largestFidReopen : Outcome (option LazyDB * option error) :=
  Open (L := stdLogfile) noFaults stdConfig (worldOf largestFidWrite).

(** * Properties *)

Section Properties.

Context {L : Logfile}.

Ltac unfold_M :=
  unfold mbind, M_bind, bind, mret, M_ret, ret, Fatalf, nilDeref, block,
    Printf in *.

Lemma bind_Ret {A B} (m : M A) (k : A -> M B) w b w' :
  (m ≫= k) w = Ret b w' ->
  exists a w1, m w = Ret a w1 /\ k a w1 = Ret b w'.
Proof.
  unfold_M. destruct (m w) as [a w1| | |]; try discriminate. eauto.
Qed.

Lemma bind_eq {A B} (m : M A) (k : A -> M B) w a w1 :
  m w = Ret a w1 -> (m ≫= k) w = k a w1.
Proof. unfold_M. intros ->. reflexivity. Qed.

(** ** Computations whose result does not depend on the world *)

Lemma sameResult_ret {A} (a : A) : sameResult (ret a) (ret a).
Proof. intros w1 w2. reflexivity. Qed.

Lemma sameResult_bind {A B} (m1 m2 : M A) (k1 k2 : A -> M B) :
  sameResult m1 m2 -> (forall a, sameResult (k1 a) (k2 a)) ->
  sameResult (m1 ≫= k1) (m2 ≫= k2).
Proof.
  intros Hm Hk w1 w2. specialize (Hm w1 w2). unfold_M.
  destruct (m1 w1), (m2 w2); simpl in Hm; try discriminate; try reflexivity.
  injection Hm as ->. apply Hk.
Qed.

Lemma sameResult_trans {A} (m1 m2 m3 : M A) :
  sameResult m1 m2 -> sameResult m2 m3 -> sameResult m1 m3.
Proof. intros H12 H23 w1 w3. rewrite (H12 w1 w1). apply H23. Qed.

Lemma sameResult_Printf m : sameResult (Printf m) (Printf m).
Proof. intros w1 w2. reflexivity. Qed.

Lemma sameResult_scanEntry name db :
  sameResult (scanEntry name db) (scanEntry name db).
Proof.
  unfold scanEntry.
  destruct (negb _); [apply sameResult_ret|].
  destruct (SplitDot name) as [|a [|b [|c [|? ?]]]];
    try (apply sameResult_bind; [apply sameResult_Printf|
                                 intros; apply sameResult_ret]).
  destruct (Atoi c).
  - destruct (fidsMap db !! _); [apply sameResult_ret|]. intros ? ?. reflexivity.
  - apply sameResult_bind; [apply sameResult_Printf|intros; apply sameResult_ret].
Qed.

Lemma sameResult_scanDir names db :
  sameResult (scanDir names db) (scanDir names db).
Proof.
  revert db. induction names as [|n names IH]; intros db; simpl.
  - apply sameResult_ret.
  - apply sameResult_bind; [apply sameResult_scanEntry|apply IH].
Qed.

Lemma sameResult_logfileOpen env typ f :
  sameResult (logfileOpen env typ f) (logfileOpen env typ f).
Proof.
  intros w1 w2. unfold logfileOpen.
  destruct (envOpen env typ f); reflexivity.
Qed.

Lemma sameResult_openLoop env typ n i fids db :
  sameResult (openLoop env typ n i fids db) (openLoop env typ n i fids db).
Proof.
  revert i db. induction fids as [|f fids IH]; intros i db; simpl.
  - apply sameResult_ret.
  - apply sameResult_bind; [apply sameResult_logfileOpen|].
    intros [lfile|e]; [|intros ? ?; reflexivity].
    destruct (Nat.eqb i (n - 1)); [apply IH|].
    destruct (archivedLogFile db !! typ); [apply IH|intros ? ?; reflexivity].
Qed.

Lemma sameResult_build env typ db :
  sameResult (build env typ db) (build env typ db).
Proof.
  unfold build.
  destruct (fidsMap db !! typ) as [[|f fids]|].
  - apply sameResult_ret.
  - apply sameResult_openLoop.
  - intros ? ?; reflexivity.
Qed.

Lemma sameResult_buildFrom env typ n db :
  sameResult (buildFrom env typ n db) (buildFrom env typ n db).
Proof.
  revert typ db. induction n as [|n IH]; intros typ db; simpl.
  - apply sameResult_ret.
  - apply sameResult_bind; [apply sameResult_build|intros; apply IH].
Qed.

(** ** Close *)

(** C10.  Close returns nil and changes nothing: the engine it returns is
    the engine it was given, field for field, and the directory, the log
    and the record of synced segments are as they were. *)
Theorem Close_returns_nil_and_changes_nothing (db : LazyDB) (w : World) :
  Close db w = Ret (db, None) w.
Proof. reflexivity. Qed.

(** ** Open *)

(** C8.  When Open returns, the error is nil and the engine is not: every
    failure inside Open ends the process instead. *)
Theorem Open_returns_no_error (env : Env) (c : DBConfig) (w w' : World)
    (r : option LazyDB) (e : option error) :
  Open env c w = Ret (r, e) w' ->
  e = None /\ exists db, r = Some db.
Proof.
  unfold Open. intros H.
  apply bind_Ret in H as (ok & w1 & _ & H).
  apply bind_Ret in H as (mk & w2 & _ & H).
  destruct mk as [err|]; [discriminate|].
  apply bind_Ret in H as ([db [err|]] & w3 & _ & H); [discriminate|].
  unfold_M. injection H as <- <- _. eauto.
Qed.

(** ** Malformed names *)

Lemma parseDigits_allDigits s acc n :
  parseDigits s acc = Some n -> allDigits s = true.
Proof.
  revert acc. induction s as [|c s IH]; intros acc H; simpl in *; [done|].
  destruct (isDigit c); [|discriminate]. simpl. eauto.
Qed.

Lemma Atoi_numeric s : numeric s = false -> Atoi s = None.
Proof.
  destruct s as [|c rest]; [done|]. unfold Atoi, numeric.
  destruct (isSign c).
  - destruct rest as [|c' rest']; [done|]. intros Hd.
    destruct (parseDigits _ 0) as [n|] eqn:Hp; [|done].
    apply parseDigits_allDigits in Hp. congruence.
  - intros Hd. destruct (parseDigits _ 0) as [n|] eqn:Hp; [|done].
    apply parseDigits_allDigits in Hp. congruence.
Qed.

Lemma scanEntry_malformed name db w :
  malformed name = true ->
  scanEntry name db w = Ret db w \/ scanEntry name db w = Ret db (logged name w).
Proof.
  unfold malformed, scanEntry. intros H.
  destruct (HasPrefix name FilePrefix); simpl in *; [|by left].
  destruct (SplitDot name) as [|a [|b [|c [|? ?]]]]; try by right.
  apply negb_true_iff, Atoi_numeric in H. rewrite H. by right.
Qed.

Lemma scanDir_app l1 l2 db :
  forall w, scanDir (l1 ++ l2) db w = (scanDir l1 db ≫= scanDir l2) w.
Proof.
  revert db. induction l1 as [|n l1 IH]; intros db w; simpl; [done|].
  unfold_M. destruct (scanEntry n db w) as [db1 w1| | |];
    first [done | apply IH].
Qed.

Lemma scanDir_skip name rest db :
  malformed name = true ->
  sameResult (scanDir (name :: rest) db) (scanDir rest db).
Proof.
  intros Hbad w1 w2. simpl.
  destruct (scanEntry_malformed name db w1 Hbad) as [E|E];
    rewrite (bind_eq _ _ _ _ _ E); apply sameResult_scanDir.
Qed.

Lemma scanDir_skip_middle l1 name l2 db :
  malformed name = true ->
  sameResult (scanDir (l1 ++ name :: l2) db) (scanDir (l1 ++ l2) db).
Proof.
  intros Hbad. revert db. induction l1 as [|n l1 IH]; intros db.
  - by apply scanDir_skip.
  - simpl. apply sameResult_bind; [apply sameResult_scanEntry|]. intros; apply IH.
Qed.

Lemma buildLogFiles_ReadDir_error env db w e :
  envReadDir env = Some e -> buildLogFiles env db w = Ret (db, Some e) w.
Proof.
  intros E. unfold buildLogFiles, mbind, M_bind, bind, ReadDir.
  rewrite E. reflexivity.
Qed.

Lemma buildLogFiles_no_directory env db w :
  envReadDir env = None -> wExists w = false ->
  buildLogFiles env db w = Ret (db, Some (ErrIO "no such directory")) w.
Proof.
  intros E Hex. unfold buildLogFiles, mbind, M_bind, bind, ReadDir.
  rewrite E, Hex. reflexivity.
Qed.

Lemma buildLogFiles_listing env db w :
  envReadDir env = None -> wExists w = true ->
  buildLogFiles env db w
  = (scanDir (map fst (wDir w)) db ≫= fun db1 =>
     buildFrom env 0 logFileTypeNum db1 ≫= fun db2 => ret (db2, None)) w.
Proof.
  intros E Hex. unfold buildLogFiles.
  unfold mbind at 1, M_bind at 1, bind at 1, ReadDir.
  rewrite E, Hex. reflexivity.
Qed.

(** C7.  An entry whose name lacks the prefix, or does not split into three
    fields, or whose fid field is not a number, is skipped: the scan leaves
    the engine as it was and writes at most one warning, and recovery ends
    the same way, with the same engine and the same error value, as in the
    directory without that entry. *)
Theorem malformed_entries_are_skipped (env : Env) (db : LazyDB)
    (name : string) (data : list byte) (l1 l2 : list (string * list byte))
    (ex : bool) (lg : list logmsg) (sy : list LogFile) :
  malformed name = true ->
  (forall w, scanEntry name db w = Ret db w
             \/ scanEntry name db w = Ret db (logged name w))
  /\ result (buildLogFiles env db (mkWorld ex (l1 ++ (name, data) :: l2) lg sy))
     = result (buildLogFiles env db (mkWorld ex (l1 ++ l2) lg sy)).
Proof.
  intros Hbad. split; [intros w; by apply scanEntry_malformed|].
  destruct (envReadDir env) as [e|] eqn:Erd.
  { by rewrite !(buildLogFiles_ReadDir_error _ _ _ e). }
  destruct ex.
  2: { by rewrite !(buildLogFiles_no_directory _ _ _ Erd). }
  rewrite !(buildLogFiles_listing _ _ _ Erd) by done. simpl wDir.
  rewrite !map_app. simpl map.
  apply sameResult_bind.
  - by apply scanDir_skip_middle.
  - intros db1. apply sameResult_bind; [apply sameResult_buildFrom|].
    intros; apply sameResult_ret.
Qed.

(** ** The directory scan *)

Lemma discovered_cons typ name rest :
  discovered typ (name :: rest) = discovered typ [name] ++ discovered typ rest.
Proof.
  simpl. destruct (parseName name) as [[t f]|]; [|done].
  by destruct (decide (t = typ)).
Qed.

Lemma discovered_app typ l1 l2 :
  discovered typ (l1 ++ l2) = discovered typ l1 ++ discovered typ l2.
Proof.
  induction l1 as [|n l1 IH]; [done|].
  rewrite <- app_comm_cons, discovered_cons, (discovered_cons _ n l1), IH.
  by rewrite app_assoc.
Qed.

Lemma fmap_app_nil (o : option (list Z)) : (fun l => l ++ []) <$> o = o.
Proof. destruct o; simpl; [by rewrite app_nil_r|done]. Qed.

Lemma scanEntry_Ret name db w db' w' :
  scanEntry name db w = Ret db' w' ->
  activeLogFileMap db' = activeLogFileMap db
  /\ archivedLogFile db' = archivedLogFile db
  /\ forall typ, fidsMap db' !! typ
                 = (fun l => l ++ discovered typ [name]) <$> fidsMap db !! typ.
Proof.
  unfold scanEntry. simpl discovered. unfold parseName.
  destruct (HasPrefix name FilePrefix); simpl.
  2: { unfold_M. intros [= <- _]. by setoid_rewrite fmap_app_nil. }
  destruct (SplitDot name) as [|a [|b [|c [|? ?]]]];
    try (unfold_M; intros [= <- _]; by setoid_rewrite fmap_app_nil).
  destruct (Atoi c) as [n|].
  2: { unfold_M. intros [= <- _]. by setoid_rewrite fmap_app_nil. }
  destruct (fidsMap db !! _) as [fids|] eqn:Hf; [|discriminate].
  unfold_M. intros [= <- _]. simpl. do 2 (split; [done|]). intros typ.
  destruct (decide (_ = typ)) as [<-|Hne].
  - by rewrite lookup_insert_eq, Hf.
  - by rewrite lookup_insert_ne, fmap_app_nil.
Qed.

Lemma scanDir_Ret names db w db' w' :
  scanDir names db w = Ret db' w' ->
  activeLogFileMap db' = activeLogFileMap db
  /\ archivedLogFile db' = archivedLogFile db
  /\ forall typ, fidsMap db' !! typ
                 = (fun l => l ++ discovered typ names) <$> fidsMap db !! typ.
Proof.
  revert db w. induction names as [|n names IH]; intros db w H.
  - unfold_M. simpl in H. injection H as <- _.
    by setoid_rewrite fmap_app_nil.
  - simpl in H. apply bind_Ret in H as (db1 & w1 & H1 & H2).
    apply scanEntry_Ret in H1 as (Ha & Hr & Hf).
    apply IH in H2 as (Ha2 & Hr2 & Hf2).
    split; [congruence|]. split; [congruence|]. intros typ.
    rewrite Hf2, Hf, (discovered_cons typ n names). destruct (fidsMap db !! typ); [|done].
    unfold fmap, option_fmap, option_map. by rewrite app_assoc.
Qed.

(** ** Sorting the registry *)

Lemma insertFid_perm x l : insertFid x l ≡ₚ x :: l.
Proof.
  induction l as [|y l IH]; simpl; [done|].
  destruct (x <=? y); [done|]. rewrite IH. apply Permutation_swap.
Qed.

Lemma sortFids_perm l : sortFids l ≡ₚ l.
Proof.
  induction l as [|x l IH]; simpl; [done|]. by rewrite insertFid_perm, IH.
Qed.

Lemma insertFid_sorted x l :
  StronglySorted Z.le l -> StronglySorted Z.le (insertFid x l).
Proof.
  induction 1 as [|y l Hs IH Hall]; simpl.
  - repeat constructor.
  - destruct (x <=? y) eqn:E.
    + apply Z.leb_le in E. constructor; [by constructor|].
      constructor; [done|]. eapply Forall_impl; [exact Hall|]. intros; lia.
    + apply Z.leb_gt in E. constructor; [done|].
      rewrite insertFid_perm. constructor; [lia|done].
Qed.

Lemma sortFids_sorted l : StronglySorted Z.le (sortFids l).
Proof.
  induction l as [|x l IH]; simpl; [constructor|]. by apply insertFid_sorted.
Qed.

Lemma sorted_snoc_max init m :
  StronglySorted Z.le (init ++ [m]) -> forall x, x ∈ init ++ [m] -> x <= m.
Proof.
  induction init as [|y init IH]; simpl; intros Hs x Hx.
  - rewrite list_elem_of_singleton in Hx. lia.
  - inversion Hs as [|? ? Hs' Hall]; subst.
    rewrite elem_of_cons in Hx. destruct Hx as [->|Hx]; [|by apply IH].
    rewrite Forall_forall in Hall. apply Hall. set_solver.
Qed.

Lemma sortFids_nil l : sortFids l = [] -> l = [].
Proof.
  intros H. apply Permutation_nil. by rewrite <- (sortFids_perm l), H.
Qed.

Lemma snoc_cases {A} (l : list A) : l = [] \/ exists init m, l = init ++ [m].
Proof.
  induction l as [|x l IH] using rev_ind; [by left|right; eauto].
Qed.

(** ** Building the segments of a category *)

Lemma logfileOpen_Ret env typ f w r w' :
  logfileOpen env typ f w = Ret r w' ->
  r = inl (mkLogFile f typ) \/ exists e, r = inr e.
Proof.
  unfold logfileOpen. destruct (envOpen env typ f) as [e|]; intros [= <- _];
    eauto.
Qed.

Lemma openLoop_Ret env typ fids :
  forall n i db w db' w' a,
    openLoop env typ n i fids db w = Ret db' w' ->
    (i + length fids = n)%nat ->
    archivedLogFile db !! typ = Some a ->
    fidsMap db' = fidsMap db
    /\ ((fids = [] /\ activeLogFileMap db' = activeLogFileMap db
         /\ archivedLogFile db' = archivedLogFile db)
        \/ exists init m,
             fids = init ++ [m]
             /\ activeLogFileMap db' = <[typ := recovered typ m]> (activeLogFileMap db)
             /\ archivedLogFile db' = <[typ := archiveAll typ init a]> (archivedLogFile db)).
Proof.
  induction fids as [|f rest IH]; intros n i db w db' w' a H Hn Ha.
  - unfold_M. simpl in H. injection H as <- _. split; [done|]. by left.
  - simpl in H. apply bind_Ret in H as (r & w1 & Ho & H).
    apply logfileOpen_Ret in Ho as [->|[e ->]]; [|discriminate].
    simpl in Hn. destruct (Nat.eqb i (n - 1)) eqn:E.
    + apply Nat.eqb_eq in E. assert (rest = []) as ->.
      { destruct rest; [done|]. simpl in Hn. lia. }
      unfold_M. simpl in H. injection H as <- _. simpl. split; [done|].
      right. exists [], f. split; [done|]. split; [done|].
      simpl. by rewrite insert_id.
    + apply Nat.eqb_neq in E. rewrite Ha in H.
      eapply (IH n (S i) _ _ _ _ (<[f := recovered typ f]> a)) in H;
        [|lia|simpl; by rewrite lookup_insert_eq].
      destruct H as (Hf & [(-> & _)|(init & m & -> & Hact & Harch)]).
      { simpl in Hn. lia. }
      split; [done|]. right. exists (f :: init), m. split; [done|].
      split; [done|]. rewrite Harch. simpl. by rewrite insert_insert_eq.
Qed.

Lemma build_Ret env t db w db' w' a :
  build env t db w = Ret db' w' ->
  archivedLogFile db !! t = Some a ->
  builtFor t db db' /\ forall typ, typ <> t -> untouched typ db db'.
Proof.
  unfold build. intros H Ha.
  destruct (fidsMap db !! t) as [fids|] eqn:Hf; [|discriminate].
  destruct fids as [|f0 fids0].
  { unfold_M. injection H as <- _. split; [|done].
    exists [], a. repeat split; try done. by left. }
  remember (f0 :: fids0) as fids eqn:Efids.
  eapply openLoop_Ret in H; [|simpl; lia|exact Ha].
  simpl in H. destruct H as (Hfm & [(Hnil & _)|(init & m & Hs & Hact & Harch)]).
  { apply sortFids_nil in Hnil. congruence. }
  split.
  - exists fids, a. split; [done|]. split; [done|]. split.
    { by rewrite Hfm, lookup_insert_eq. }
    right. exists init, m. split; [done|].
    by rewrite Hact, Harch, !lookup_insert_eq.
  - intros typ Hne. unfold untouched.
    by rewrite Hfm, Hact, Harch, !lookup_insert_ne.
Qed.

Lemma builtFor_untouched typ db db1 db' :
  builtFor typ db db1 -> untouched typ db1 db' -> builtFor typ db db'.
Proof.
  intros (fids & a & Hf & Ha & Hf1 & Hrest) (Uf & Ua & Ur).
  exists fids, a. rewrite Uf, Ua, Ur. done.
Qed.

Lemma untouched_builtFor typ db db1 db' :
  untouched typ db db1 -> builtFor typ db1 db' -> builtFor typ db db'.
Proof.
  intros (Uf & Ua & Ur) (fids & a & Hf & Ha & Hf1 & Hrest).
  exists fids, a. rewrite <- Uf, <- Ua, <- Ur. done.
Qed.

Lemma untouched_trans typ db db1 db' :
  untouched typ db db1 -> untouched typ db1 db' -> untouched typ db db'.
Proof.
  intros (Uf & Ua & Ur) (Uf' & Ua' & Ur'). unfold untouched.
  by rewrite Uf', Ua', Ur'.
Qed.

Lemma buildFrom_Ret env n :
  forall t db w db' w',
    buildFrom env t n db w = Ret db' w' ->
    (forall typ, t <= typ < t + Z.of_nat n -> is_Some (archivedLogFile db !! typ)) ->
    forall typ,
      (t <= typ < t + Z.of_nat n -> builtFor typ db db')
      /\ (~ (t <= typ < t + Z.of_nat n) -> untouched typ db db').
Proof.
  induction n as [|n IH]; intros t db w db' w' H Hsome typ.
  - unfold_M. simpl in H. injection H as <- _. split; [lia|done].
  - simpl in H. apply bind_Ret in H as (db1 & w1 & Hb & H).
    destruct (Hsome t ltac:(lia)) as [a Ha].
    apply (build_Ret _ _ _ _ _ _ a) in Hb as (Hbuilt & Hothers); [|done].
    eapply IH in H.
    2: { intros typ' Hr. destruct (Hothers typ' ltac:(lia)) as (_ & _ & ->).
         apply Hsome. lia. }
    destruct H as (Hin & Hout). split.
    + intros Hr. destruct (decide (typ = t)) as [->|Hne].
      * eapply builtFor_untouched; [done|]. apply Hout. lia.
      * eapply untouched_builtFor; [by apply Hothers|]. apply Hin. lia.
    + intros Hr. eapply untouched_trans; [apply Hothers; lia|].
      apply Hout. lia.
Qed.

(** ** Recovery of a fresh engine *)

Lemma newLazyDB_category c typ :
  isCategory typ ->
  fidsMap (newLazyDB c) !! typ = Some []
  /\ activeLogFileMap (newLazyDB c) !! typ = None
  /\ archivedLogFile (newLazyDB c) !! typ = Some ∅.
Proof.
  unfold isCategory, logFileTypeNum. intros H.
  assert (typ = 0 \/ typ = 1 \/ typ = 2 \/ typ = 3 \/ typ = 4) as Hc by lia.
  destruct Hc as [->|[->|[->|[->| ->]]]]; done.
Qed.

Lemma newLazyDB_other c typ :
  ~ isCategory typ ->
  fidsMap (newLazyDB c) !! typ = None
  /\ activeLogFileMap (newLazyDB c) !! typ = None
  /\ archivedLogFile (newLazyDB c) !! typ = None.
Proof.
  unfold isCategory, logFileTypeNum. intros H. simpl.
  rewrite !lookup_insert_ne, !lookup_empty by lia. done.
Qed.

Lemma recovery_category env c w db' w' typ :
  buildLogFiles env (newLazyDB c) w = Ret (db', None) w' ->
  isCategory typ ->
  recoveredCategory typ (discovered typ (map fst (wDir w))) db'.
Proof.
  intros H Hc.
  destruct (envReadDir env) as [e|] eqn:Erd.
  { by rewrite (buildLogFiles_ReadDir_error _ _ _ e) in H. }
  destruct (wExists w) eqn:Hex.
  2: { by rewrite (buildLogFiles_no_directory _ _ _ Erd) in H. }
  rewrite (buildLogFiles_listing _ _ _ Erd) in H by done.
  apply bind_Ret in H as (db1 & w1 & Hscan & H).
  apply bind_Ret in H as (db2 & w2 & Hbuild & H).
  unfold_M. injection H as <- _.
  apply scanDir_Ret in Hscan as (Ha & Hr & Hf).
  eapply buildFrom_Ret in Hbuild.
  2: { intros t Ht. rewrite Hr.
       destruct (newLazyDB_category c t) as (_ & _ & ->); [exact Ht|done]. }
  destruct Hbuild as (Hin & _).
  destruct (Hin Hc) as (fids & a & Hf1 & Ha1 & Hf2 & Hrest).
  destruct (newLazyDB_category c typ Hc) as (N1 & N2 & N3).
  rewrite Hf, N1 in Hf1. simpl in Hf1. injection Hf1 as <-.
  rewrite Hr, N3 in Ha1. injection Ha1 as <-.
  split; [done|].
  destruct Hrest as [(Hnil & Hact & Harch)|(init & m & Hs & Hact & Harch)].
  - left. rewrite Ha, N2 in Hact. done.
  - right. eauto.
Qed.

Lemma scanDir_no_registry names :
  forall db w db' w' typ,
    fidsMap db !! typ = None ->
    scanDir names db w = Ret db' w' ->
    discovered typ names = [].
Proof.
  induction names as [|n names IH]; intros db w db' w' typ Hnone Hscan;
    [done|].
  simpl in Hscan. apply bind_Ret in Hscan as (dbx & wx & He & Hscan).
  assert (Hx : fidsMap dbx !! typ = None /\ discovered typ [n] = []).
  { revert He. unfold scanEntry. simpl. unfold parseName.
    destruct (HasPrefix n FilePrefix); simpl;
      [|unfold_M; by intros [= <- _]].
    destruct (SplitDot n) as [|x [|y [|z [|? ?]]]];
      try (unfold_M; by intros [= <- _]).
    destruct (Atoi z); [|unfold_M; by intros [= <- _]].
    destruct (fidsMap db !! uint8 _) as [fids|] eqn:Hl; [|by unfold_M].
    unfold_M. intros [= <- _]. simpl.
    destruct (decide (_ = typ)) as [E|E]; [congruence|].
    by rewrite lookup_insert_ne. }
  destruct Hx as (Hx1 & Hx2).
  rewrite discovered_cons, Hx2. simpl. eauto.
Qed.

Lemma recovery_other env c w db' w' typ :
  buildLogFiles env (newLazyDB c) w = Ret (db', None) w' ->
  ~ isCategory typ ->
  fidsMap db' !! typ = None
  /\ activeLogFileMap db' !! typ = None
  /\ archivedLogFile db' !! typ = None
  /\ discovered typ (map fst (wDir w)) = [].
Proof.
  intros H Hc.
  destruct (envReadDir env) as [e|] eqn:Erd.
  { by rewrite (buildLogFiles_ReadDir_error _ _ _ e) in H. }
  destruct (wExists w) eqn:Hex.
  2: { by rewrite (buildLogFiles_no_directory _ _ _ Erd) in H. }
  rewrite (buildLogFiles_listing _ _ _ Erd) in H by done.
  apply bind_Ret in H as (db1 & w1 & Hscan & H).
  apply bind_Ret in H as (db2 & w2 & Hbuild & H).
  unfold_M. injection H as <- _.
  assert (Hdisc : discovered typ (map fst (wDir w)) = []).
  { eapply scanDir_no_registry; [|exact Hscan].
    by destruct (newLazyDB_other c typ Hc). }
  apply scanDir_Ret in Hscan as (Ha & Hr & Hf).
  eapply buildFrom_Ret in Hbuild.
  2: { intros t Ht. rewrite Hr.
       destruct (newLazyDB_category c t) as (_ & _ & ->); [exact Ht|done]. }
  destruct Hbuild as (_ & Hout).
  destruct (Hout Hc) as (U1 & U2 & U3).
  destruct (newLazyDB_other c typ Hc) as (N1 & N2 & N3).
  rewrite U1, U2, U3, Hf, Ha, Hr, N1, N2, N3. done.
Qed.

Lemma archiveAll_lookup typ l :
  forall a f,
    archiveAll typ l a !! f
    = if decide (f ∈ l) then Some (recovered typ f) else a !! f.
Proof.
  induction l as [|x l IH]; intros a f; simpl.
  - destruct (decide (f ∈ [])) as [H|H]; [set_solver|done].
  - unfold archiveAll in *. simpl. rewrite IH.
    destruct (decide (f ∈ l)) as [Hl|Hl].
    + rewrite decide_True by set_solver. done.
    + destruct (decide (f = x)) as [->|Hne].
      * rewrite decide_True by set_solver. by rewrite lookup_insert_eq.
      * rewrite decide_False by set_solver. by rewrite lookup_insert_ne.
Qed.

(** ** The registry after recovery *)

(** C9.  After buildLogFiles on a fresh engine, the registry of every
    category holds exactly the fids discovered for it, in ascending order,
    and the fid of the active segment, when there is one, is its last
    element: the active fid stays in the registry. *)
Theorem registry_sorted_after_recovery (env : Env) (c : DBConfig)
    (w w' : World) (db' : LazyDB) (typ : Z) :
  buildLogFiles env (newLazyDB c) w = Ret (db', None) w' ->
  isCategory typ ->
  exists fids,
    fidsMap db' !! typ = Some fids
    /\ fids ≡ₚ discovered typ (map fst (wDir w))
    /\ StronglySorted Z.le fids
    /\ (discovered typ (map fst (wDir w)) <> [] ->
        is_Some (activeLogFileMap db' !! typ))
    /\ forall mlf, activeLogFileMap db' !! typ = Some mlf ->
                   last fids = Some (Fid (lf mlf)).
Proof.
  intros H Hc. destruct (recovery_category _ _ _ _ _ _ H Hc) as (Hf & Hrest).
  exists (sortFids (discovered typ (map fst (wDir w)))).
  split; [done|]. split; [apply sortFids_perm|].
  split; [apply sortFids_sorted|].
  destruct Hrest as [(Hnil & Hact & _)|(init & m & Hs & Hact & _)].
  - split; [done|]. intros mlf. rewrite Hact. done.
  - split; [by rewrite Hact|]. intros mlf. rewrite Hact, Hs.
    intros [= <-]. by rewrite last_snoc.
Qed.

(** ** Active and archived segments after recovery *)

(** C1, as amended.  After buildLogFiles on a fresh engine, for a category
    with at least one discovered fid: the active segment is the one of the
    largest discovered fid, and the archived map holds exactly the fids
    standing before the last place of the ascending list of discovered
    fids, each with the segment opened for it.  When no fid was discovered
    twice these are the discovered fids other than the largest, and only
    those. *)
Theorem recovery_active_and_archived (env : Env) (c : DBConfig)
    (w w' : World) (db' : LazyDB) (typ : Z) :
  buildLogFiles env (newLazyDB c) w = Ret (db', None) w' ->
  discovered typ (map fst (wDir w)) <> [] ->
  exists init m a,
    sortFids (discovered typ (map fst (wDir w))) = init ++ [m]
    /\ m ∈ discovered typ (map fst (wDir w))
    /\ (forall f, f ∈ discovered typ (map fst (wDir w)) -> f <= m)
    /\ activeLogFileMap db' !! typ = Some (recovered typ m)
    /\ archivedLogFile db' !! typ = Some a
    /\ (forall f, a !! f = if decide (f ∈ init) then Some (recovered typ f)
                           else None)
    /\ (NoDup (discovered typ (map fst (wDir w))) ->
        archivesTheOthers typ (discovered typ (map fst (wDir w))) db').
Proof.
  intros H Hne. set (D := discovered typ (map fst (wDir w))) in *.
  assert (Hc : isCategory typ).
  { destruct (decide (isCategory typ)) as [Hc|Hc]; [done|].
    by destruct (recovery_other _ _ _ _ _ _ H Hc) as (_ & _ & _ & HD). }
  destruct (recovery_category _ _ _ _ _ _ H Hc) as (Hf & Hrest). fold D in Hf, Hrest.
  destruct Hrest as [(Hnil & _)|(init & m & Hs & Hact & Harch)]; [done|].
  assert (Hperm : init ++ [m] ≡ₚ D) by (rewrite <- Hs; apply sortFids_perm).
  assert (Hmax : forall f, f ∈ D -> f <= m).
  { intros f Hin. apply (sorted_snoc_max init m).
    - rewrite <- Hs. apply sortFids_sorted.
    - by rewrite Hperm. }
  assert (Hm : m ∈ D) by (rewrite <- Hperm; set_solver).
  assert (Hlook : forall f, archiveAll typ init ∅ !! f
                  = if decide (f ∈ init) then Some (recovered typ f) else None).
  { intros f. by rewrite archiveAll_lookup, lookup_empty. }
  exists init, m, (archiveAll typ init ∅).
  repeat (split; [done|]). intros Hnd.
  exists (recovered typ m), (archiveAll typ init ∅).
  repeat (split; [done|]). intros f. rewrite Hlook. simpl.
  rewrite <- Hperm in Hnd. apply NoDup_app in Hnd as (_ & Hdisj & _).
  destruct (decide (f ∈ init)) as [Hin|Hin].
  - split; [intros _|by eauto]. split.
    + rewrite <- Hperm. set_solver.
    + intros ->. apply (Hdisj m Hin). set_solver.
  - split; [by intros [? ?]|]. intros (HfD & Hfm).
    rewrite <- Hperm in HfD. set_solver.
Qed.

(** C3, as amended.  After buildLogFiles on a fresh engine, a category
    with no discovered fid has no active segment: its registry and its
    archived map are empty and [activeLogFileMap] has no entry for it. *)
Theorem recovery_of_empty_category (env : Env) (c : DBConfig)
    (w w' : World) (db' : LazyDB) (typ : Z) :
  buildLogFiles env (newLazyDB c) w = Ret (db', None) w' ->
  discovered typ (map fst (wDir w)) = [] ->
  activeLogFileMap db' !! typ = None
  /\ (isCategory typ ->
      fidsMap db' !! typ = Some [] /\ archivedLogFile db' !! typ = Some ∅).
Proof.
  intros H HD. destruct (decide (isCategory typ)) as [Hc|Hc].
  - destruct (recovery_category _ _ _ _ _ _ H Hc) as (Hf & Hrest).
    rewrite HD in Hf, Hrest. simpl in *.
    destruct Hrest as [(_ & Hact & Harch)|(init & m & Hs & _)].
    + done.
    + by destruct init.
  - destruct (recovery_other _ _ _ _ _ _ H Hc) as (_ & Hact & _). done.
Qed.

(** ** Sync *)

Lemma addSynced_nil w : addSynced [] w = w.
Proof. destruct w. unfold addSynced. simpl. by rewrite app_nil_r. Qed.

Lemma addSynced_cons f l w : addSynced l (addSynced [f] w) = addSynced (f :: l) w.
Proof. unfold addSynced. simpl. by rewrite <- app_assoc. Qed.

(** Taking and releasing the lock of a segment leaves the engine as it was. *)
Lemma relock_id typ mlf db :
  activeLogFileMap db !! typ = Some mlf -> locked mlf = false ->
  setActive typ (setLocked false mlf) (setActive typ (setLocked true mlf) db) = db.
Proof.
  destruct db, mlf. unfold setActive, setLocked. simpl. intros Hl ->.
  f_equal. rewrite insert_insert_eq. by apply insert_id.
Qed.

Lemma syncedOf_cons_Some db typ mlf rest :
  activeLogFileMap db !! typ = Some mlf ->
  syncedOf db (typ :: rest) = lf mlf :: syncedOf db rest.
Proof. unfold syncedOf. simpl. by intros ->. Qed.

Lemma syncedOf_cons_None db typ rest :
  activeLogFileMap db !! typ = None ->
  syncedOf db (typ :: rest) = syncedOf db rest.
Proof. unfold syncedOf. simpl. by intros ->. Qed.

Lemma syncLoop_all_succeed env db order :
  (forall typ mlf, activeLogFileMap db !! typ = Some mlf -> locked mlf = false) ->
  (forall typ mlf, typ ∈ order -> activeLogFileMap db !! typ = Some mlf ->
                   envSync env (lf mlf) = None) ->
  forall w, syncLoop env order db w = Ret (db, None) (addSynced (syncedOf db order) w).
Proof using Type.
  intros Hfree. induction order as [|typ rest IH]; intros Hok w.
  - simpl. by rewrite addSynced_nil.
  - assert (Hrest : forall t m, t ∈ rest -> activeLogFileMap db !! t = Some m ->
                                envSync env (lf m) = None).
    { intros t m Hin Hl. apply (Hok t m); [apply elem_of_cons; by right|done]. }
    assert (Hhead : typ ∈ typ :: rest) by (apply elem_of_cons; by left).
    destruct (activeLogFileMap db !! typ) as [mlf|] eqn:Hm.
    + rewrite (syncedOf_cons_Some _ _ mlf), <- addSynced_cons by done.
      cbn [syncLoop]. rewrite Hm, (Hfree _ _ Hm).
      unfold mbind, M_bind, bind, logfileSync.
      rewrite (Hok typ mlf Hhead Hm).
      rewrite relock_id by eauto.
      by rewrite (IH Hrest).
    + rewrite (syncedOf_cons_None _ _ _ Hm). cbn [syncLoop]. rewrite Hm.
      by apply IH.
Qed.

Lemma syncLoop_first_failure env db before typ after mlf e :
  (forall t m, activeLogFileMap db !! t = Some m -> locked m = false) ->
  (forall t m, t ∈ before -> activeLogFileMap db !! t = Some m ->
               envSync env (lf m) = None) ->
  activeLogFileMap db !! typ = Some mlf ->
  envSync env (lf mlf) = Some e ->
  forall w, syncLoop env (before ++ typ :: after) db w
            = Ret (setActive typ (setLocked true mlf) db, Some e)
                  (addSynced (syncedOf db (before ++ [typ])) w).
Proof using Type.
  intros Hfree Hok Hm He. induction before as [|t rest IH]; intros w.
  - cbn [app]. rewrite (syncedOf_cons_Some _ _ mlf) by done.
    cbn [syncLoop]. rewrite Hm, (Hfree _ _ Hm).
    unfold mbind, M_bind, bind, logfileSync. by rewrite He.
  - assert (Hrest : forall t' m, t' ∈ rest -> activeLogFileMap db !! t' = Some m ->
                                 envSync env (lf m) = None).
    { intros t' m Hin Hl. apply (Hok t' m); [apply elem_of_cons; by right|done]. }
    assert (Hhead : t ∈ t :: rest) by (apply elem_of_cons; by left).
    rewrite <- !app_comm_cons.
    destruct (activeLogFileMap db !! t) as [m|] eqn:Ht.
    + rewrite (syncedOf_cons_Some _ _ m), <- addSynced_cons by done.
      cbn [syncLoop]. rewrite Ht, (Hfree _ _ Ht).
      unfold mbind, M_bind, bind, logfileSync.
      rewrite (Hok t m Hhead Ht).
      rewrite relock_id by eauto.
      by rewrite (IH Hrest).
    + rewrite (syncedOf_cons_None _ _ _ Ht). cbn [syncLoop]. rewrite Ht.
      by apply IH.
Qed.

Lemma iterationOrder_elem order db typ mlf :
  iterationOrder order db -> activeLogFileMap db !! typ = Some mlf ->
  typ ∈ order.
Proof.
  unfold iterationOrder. intros -> Hm.
  apply list_elem_of_fmap. exists (typ, mlf). split; [done|].
  by apply elem_of_map_to_list.
Qed.

Lemma syncedOf_elem db order typ mlf :
  typ ∈ order -> activeLogFileMap db !! typ = Some mlf ->
  lf mlf ∈ syncedOf db order.
Proof.
  intros Hin Hm. unfold syncedOf. apply list_elem_of_omap.
  exists typ. split; [done|]. by rewrite Hm.
Qed.

(** After a failed Sync the lock of the failing segment is still held: the
    next Sync that reaches the segment waits for it for ever. *)
Lemma syncLoop_held_lock_blocks env typ rest db w mlf :
  activeLogFileMap db !! typ = Some mlf -> locked mlf = true ->
  syncLoop env (typ :: rest) db w = Blocked.
Proof using Type.
  intros Hm Hl. simpl. by rewrite Hm, Hl.
Qed.

(** X16.  With no lock of an active segment held, and whatever order the
    map iteration takes: if every segment syncs, Sync has called Sync on
    the active segment of every category, once each, and returns nil with
    the engine as it was; if the segment of [typ] is the first to fail,
    Sync returns its error, having called Sync on the segments before it
    and on that one, and on no segment after it. *)
Theorem Sync_stops_at_first_failure (env : Env) (order : list Z)
    (db : LazyDB) (w : World) :
  iterationOrder order db ->
  (forall typ mlf, activeLogFileMap db !! typ = Some mlf -> locked mlf = false) ->
  ((forall typ mlf, activeLogFileMap db !! typ = Some mlf ->
                    envSync env (lf mlf) = None) ->
   Sync env order db w = Ret (db, None) (addSynced (syncedOf db order) w)
   /\ forall typ mlf, activeLogFileMap db !! typ = Some mlf ->
                      lf mlf ∈ syncedOf db order)
  /\ (forall before typ after mlf e,
        order = before ++ typ :: after ->
        activeLogFileMap db !! typ = Some mlf ->
        envSync env (lf mlf) = Some e ->
        (forall t m, t ∈ before -> activeLogFileMap db !! t = Some m ->
                     envSync env (lf m) = None) ->
        Sync env order db w
        = Ret (setActive typ (setLocked true mlf) db, Some e)
              (addSynced (syncedOf db (before ++ [typ])) w)).
Proof using Type.
  intros Hord Hfree. split.
  - intros Hok. split.
    + apply syncLoop_all_succeed; eauto.
    + intros typ mlf Hm. eapply syncedOf_elem; [|done].
      by eapply iterationOrder_elem.
  - intros before typ after mlf e -> Hm He Hok.
    by apply syncLoop_first_failure.
Qed.

(** ** The largest fid of a registry *)

Lemma maxFid_nonneg fids : 0 <= maxFid fids.
Proof. induction fids as [|x fids IH]; simpl; lia. Qed.

Lemma maxFid_ge fids f : f ∈ fids -> f <= maxFid fids.
Proof.
  induction fids as [|x fids IH]; simpl.
  - by intros ?%elem_of_nil.
  - rewrite elem_of_cons. intros [->|H]; [lia|]. specialize (IH H). lia.
Qed.

Lemma maxFid_le fids b :
  0 <= b -> (forall f, f ∈ fids -> f <= b) -> maxFid fids <= b.
Proof.
  intros Hb. induction fids as [|x fids IH]; simpl; intros H; [done|].
  assert (x <= b) by (apply H, elem_of_cons; by left).
  assert (maxFid fids <= b) by (apply IH; intros f Hf; apply H, elem_of_cons; by right).
  lia.
Qed.

Lemma maxFid_sorted_snoc init m :
  StronglySorted Z.le (init ++ [m]) -> 0 <= m -> maxFid (init ++ [m]) = m.
Proof.
  intros Hs Hm. apply Z.le_antisymm.
  - apply maxFid_le; [done|]. by apply sorted_snoc_max.
  - apply maxFid_ge. rewrite elem_of_app, list_elem_of_singleton. by right.
Qed.

Lemma mintFid_range fids : 0 <= mintFid fids < 4294967296.
Proof. unfold mintFid, uint32. apply Z.mod_pos_bound. lia. Qed.

Lemma mintFid_next fids :
  maxFid fids < 4294967295 -> mintFid fids = maxFid fids + 1.
Proof.
  intros Hlt. pose proof (maxFid_nonneg fids). unfold mintFid, uint32.
  apply Z.mod_small. lia.
Qed.

Lemma mintFid_wraps fids : maxFid fids = 4294967295 -> mintFid fids = 0.
Proof. intros H. unfold mintFid. by rewrite H. Qed.

Lemma maxFid_mint fids :
  maxFid fids < 4294967295 -> maxFid (fids ++ [mintFid fids]) = mintFid fids.
Proof.
  intros Hlt. rewrite (mintFid_next fids Hlt). apply Z.le_antisymm.
  - apply maxFid_le; [pose proof (maxFid_nonneg fids); lia|].
    intros f. rewrite elem_of_app, list_elem_of_singleton.
    intros [H| ->]; [apply maxFid_ge in H|]; lia.
  - apply maxFid_ge. rewrite elem_of_app, list_elem_of_singleton. by right.
Qed.

Lemma maxFid_snoc fids x : maxFid (fids ++ [x]) = Z.max (maxFid fids) x.
Proof. induction fids as [|y fids IH]; simpl; [lia|]. rewrite IH. lia. Qed.

(** ** Files of the directory *)

Lemma lookupFile_Some_name n d c :
  lookupFile n d = Some c -> n ∈ map fst d.
Proof.
  unfold lookupFile. induction d as [|e d IH]; simpl; [done|].
  destruct (String.eqb (fst e) n) eqn:E.
  - apply String.eqb_eq in E. intros _. rewrite E. apply elem_of_cons. by left.
  - intros H. apply elem_of_cons. right. by apply IH.
Qed.

Lemma createFile_names n d :
  exists l1 l2, map fst d = l1 ++ l2 /\ map fst (createFile n d) = l1 ++ n :: l2.
Proof.
  induction d as [|e d (l1 & l2 & H1 & H2)]; simpl.
  - by exists [], [].
  - destruct (String.leb n (fst e)).
    + by exists [], (fst e :: map fst d).
    + exists (fst e :: l1), l2. simpl. by rewrite H1, H2.
Qed.

Lemma lookupFile_createFile_other n n' d :
  n' <> n -> lookupFile n' (createFile n d) = lookupFile n' d.
Proof.
  intros Hne. unfold lookupFile. induction d as [|e d IH]; simpl.
  - destruct (String.eqb n n') eqn:E; [|done].
    apply String.eqb_eq in E. congruence.
  - destruct (String.leb n (fst e)); simpl.
    + destruct (String.eqb n n') eqn:E; [|done].
      apply String.eqb_eq in E. congruence.
    + destruct (String.eqb (fst e) n'); [done|apply IH].
Qed.

Lemma lookupFile_createFile_same n d :
  lookupFile n d = None -> lookupFile n (createFile n d) = Some [].
Proof.
  unfold lookupFile. induction d as [|e d IH]; simpl.
  - by rewrite String.eqb_refl.
  - destruct (String.eqb (fst e) n) eqn:E; [done|]. intros H.
    destruct (String.leb n (fst e)); simpl.
    + by rewrite String.eqb_refl.
    + rewrite E. by apply IH.
Qed.

Lemma appendFile_names n b d : map fst (appendFile n b d) = map fst d.
Proof.
  induction d as [|e d IH]; simpl; [done|].
  destruct (String.eqb (fst e) n); simpl; [done|]. by rewrite IH.
Qed.




(** ** Rotation *)


(** A write that fits the active segment goes to it: no segment is created
    and the registry, the active segment and the archived map stay. *)
Lemma write_that_fits_does_not_rotate env typ encoded db w mlf fids arch :
  activeLogFileMap db !! typ = Some mlf ->
  fidsMap db !! typ = Some fids ->
  archivedLogFile db !! typ = Some arch ->
  segmentSize (lf mlf) w + Z.of_nat (length encoded) <= MaxLogFileSize (cfg db) ->
  exists r w', writeEntry env typ encoded db w = Ret (db, r) w'
               /\ forall pos, r = inl pos ->
                    fid pos = Fid (lf mlf) /\ offset pos = segmentSize (lf mlf) w.
Proof.
  intros Hact Hf Harch Hsize.
  unfold writeEntry. rewrite Hf, Harch, Hact.
  unfold mbind, M_bind, bind at 1 2.
  destruct (Z.gtb_spec (segmentSize (lf mlf) w + Z.of_nat (length encoded))
              (MaxLogFileSize (cfg db))) as [Hgt|_]; [lia|].
  unfold ret at 1. unfold bind, logfileAppend.
  destruct (envWrite env (lf mlf)); do 2 eexists; (split; [reflexivity|]).
  - by intros pos [=].
  - by intros pos [= <-].
Qed.

(** ** What the scan would discover *)

Lemma discovered_elem typ names f :
  f ∈ discovered typ names
  <-> exists n, n ∈ names /\ parseName n = Some (typ, f).
Proof.
  induction names as [|n names IH].
  - simpl. split; [by intros ?%elem_of_nil|]. by intros (? & ?%elem_of_nil & _).
  - rewrite discovered_cons, elem_of_app, IH. simpl.
    split.
    + intros [H|(n' & Hin & Hp)].
      * exists n. split; [apply elem_of_cons; by left|].
        destruct (parseName n) as [[t x]|]; [|by apply elem_of_nil in H].
        destruct (decide (t = typ)) as [->|]; [|by apply elem_of_nil in H].
        apply list_elem_of_singleton in H. by subst.
      * exists n'. split; [apply elem_of_cons; by right|done].
    + intros (n' & Hin & Hp). apply elem_of_cons in Hin as [->|Hin].
      * left. rewrite Hp. rewrite decide_True by done.
        by apply list_elem_of_singleton.
      * right. by exists n'.
Qed.

Lemma parseName_range n t f : parseName n = Some (t, f) -> 0 <= f < 4294967296.
Proof.
  unfold parseName. destruct (HasPrefix n FilePrefix); [|done].
  destruct (SplitDot n) as [|a [|b [|c [|? ?]]]]; try done.
  destruct (Atoi c) as [x|]; [|done]. intros [= _ <-].
  unfold uint32. apply Z.mod_pos_bound. lia.
Qed.

Lemma known_range typ w f : known typ w f -> 0 <= f < 4294967296.
Proof.
  unfold known. rewrite discovered_elem. intros (n & _ & Hp).
  by eapply parseName_range.
Qed.

Lemma known_insert typ f d l1 n l2 ex lg sy ex' lg' sy' :
  map fst d = l1 ++ l2 ->
  forall d', map fst d' = l1 ++ n :: l2 ->
  known typ (mkWorld ex' d' lg' sy') f
  <-> known typ (mkWorld ex d lg sy) f \/ parseName n = Some (typ, f).
Proof.
  intros Hd d' Hd'. unfold known. simpl. rewrite Hd, Hd', !discovered_elem.
  split.
  - intros (n' & Hin & Hp). rewrite elem_of_app, elem_of_cons in Hin.
    destruct Hin as [Hin|[->|Hin]]; [left|by right|left];
      exists n'; (split; [|done]); rewrite elem_of_app; auto.
  - intros [(n' & Hin & Hp)|Hp].
    + exists n'. split; [|done]. rewrite elem_of_app in Hin.
      rewrite elem_of_app, elem_of_cons. tauto.
    + exists n. split; [|done]. rewrite elem_of_app, elem_of_cons. tauto.
Qed.

(** ** What recovery and the write path do to the directory *)

Lemma sameFiles_refl w : sameFiles w w.
Proof. by repeat split. Qed.

Lemma sameFiles_trans w1 w2 w3 :
  sameFiles w1 w2 -> sameFiles w2 w3 -> sameFiles w1 w3.
Proof.
  intros (E1 & C1 & K1) (E2 & C2 & K2). split; [congruence|]. split.
  - intros n. by rewrite C2, C1.
  - intros t x. by rewrite K2, K1.
Qed.

Lemma logfileOpen_effect env typ f w h w' :
  logfileOpen env typ f w = Ret (inl h) w' ->
  parseName (FileName typ f) = Some (typ, f) ->
  h = mkLogFile f typ
  /\ wExists w' = wExists w
  /\ (forall n, fileContent n w' = fileContent n w)
  /\ forall t x, known t w' x <-> known t w x \/ (t = typ /\ x = f).
Proof.
  unfold logfileOpen. destruct (envOpen env typ f) as [e|]; [discriminate|].
  intros [= <- <-] Hp. split; [done|]. split; [done|].
  destruct (lookupFile (FileName typ f) (wDir w)) as [c|] eqn:Hl.
  - split; [done|]. intros t x. unfold known. simpl. split; [by left|].
    intros [H|[-> ->]]; [done|]. apply discovered_elem.
    exists (FileName typ f). split; [|done]. by eapply lookupFile_Some_name.
  - split.
    + intros n. unfold fileContent. simpl.
      destruct (decide (n = FileName typ f)) as [->|Hne].
      * by rewrite lookupFile_createFile_same, Hl.
      * by rewrite lookupFile_createFile_other.
    + intros t x.
      destruct (createFile_names (FileName typ f) (wDir w)) as (l1 & l2 & H1 & H2).
      destruct w as [ex d lg sy]. simpl in *.
      rewrite (known_insert t x d l1 (FileName typ f) l2 ex lg sy) by done.
      rewrite Hp. split; (intros [H|H]; [by left|right]).
      * by injection H as -> ->.
      * by destruct H as [-> ->].
Qed.

Lemma logfileOpen_sameFiles env typ f w h w' :
  logfileOpen env typ f w = Ret (inl h) w' ->
  parseName (FileName typ f) = Some (typ, f) ->
  known typ w f ->
  sameFiles w w'.
Proof.
  intros H Hp Hk.
  destruct (logfileOpen_effect _ _ _ _ _ _ H Hp) as (_ & He & Hc & Hkn).
  split; [done|]. split; [done|]. intros t x. rewrite Hkn.
  split; [|by left]. intros [?|[-> ->]]; done.
Qed.

Lemma scanEntry_world name db w db' w' :
  scanEntry name db w = Ret db' w' ->
  wExists w' = wExists w /\ wDir w' = wDir w.
Proof.
  unfold scanEntry. destruct (negb _); [unfold_M; by intros [= _ <-]|].
  destruct (SplitDot name) as [|a [|b [|c [|? ?]]]];
    try (unfold_M; by intros [= _ <-]).
  destruct (Atoi c); [|unfold_M; by intros [= _ <-]].
  destruct (fidsMap db !! uint8 _); unfold_M; [by intros [= _ <-]|done].
Qed.

Lemma scanDir_world names db w db' w' :
  scanDir names db w = Ret db' w' ->
  wExists w' = wExists w /\ wDir w' = wDir w.
Proof.
  revert db w. induction names as [|n names IH]; intros db w H; simpl in H.
  - unfold_M. by injection H as _ <-.
  - apply bind_Ret in H as (db1 & w1 & H1 & H2).
    apply scanEntry_world in H1 as (E1 & D1).
    apply IH in H2 as (E2 & D2). split; congruence.
Qed.

Lemma sameFiles_of_dir w w' :
  wExists w' = wExists w -> wDir w' = wDir w -> sameFiles w w'.
Proof.
  intros He Hd. split; [done|]. unfold fileContent, known. by rewrite Hd.
Qed.

Lemma openLoop_sameFiles env typ fids :
  forall n i db w db' w',
    openLoop env typ n i fids db w = Ret db' w' ->
    (forall f, f ∈ fids ->
               known typ w f /\ parseName (FileName typ f) = Some (typ, f)) ->
    sameFiles w w'.
Proof.
  induction fids as [|f rest IH]; intros n i db w db' w' H Hk.
  - unfold_M. simpl in H. injection H as _ <-. apply sameFiles_refl.
  - simpl in H. apply bind_Ret in H as (r & w1 & Ho & H).
    destruct r as [h|e]; [|discriminate].
    destruct (Hk f) as (Hkf & Hpf); [apply elem_of_cons; by left|].
    pose proof (logfileOpen_sameFiles _ _ _ _ _ _ Ho Hpf Hkf) as Hs.
    assert (Hk' : forall x, x ∈ rest ->
              known typ w1 x /\ parseName (FileName typ x) = Some (typ, x)).
    { intros x Hx. destruct (Hk x) as (Hkx & Hpx); [apply elem_of_cons; by right|].
      split; [|done]. by apply Hs. }
    eapply sameFiles_trans; [exact Hs|].
    destruct (Nat.eqb i (n - 1)); [by eapply IH|].
    destruct (archivedLogFile db !! typ); [by eapply IH|discriminate].
Qed.

Lemma build_sameFiles env t db w db' w' :
  build env t db w = Ret db' w' ->
  registryKnown db w ->
  sameFiles w w'.
Proof.
  unfold build. intros H Hk.
  destruct (fidsMap db !! t) as [fids|] eqn:Hf; [|discriminate].
  destruct fids as [|f0 fids0].
  { unfold_M. injection H as _ <-. apply sameFiles_refl. }
  eapply openLoop_sameFiles; [exact H|]. intros f Hin.
  apply (Hk t _ f Hf). by rewrite <- (sortFids_perm (f0 :: fids0)).
Qed.

Lemma registryKnown_step db w db' w' :
  registryKnown db w -> sameFiles w w' ->
  (forall typ fids', fidsMap db' !! typ = Some fids' ->
     exists fids, fidsMap db !! typ = Some fids /\ forall f, f ∈ fids' -> f ∈ fids) ->
  registryKnown db' w'.
Proof.
  intros Hk (_ & _ & Hs) Hsub typ fids' f Hf Hin.
  destruct (Hsub typ fids' Hf) as (fids & Hf0 & Hincl).
  destruct (Hk typ fids f Hf0 (Hincl f Hin)) as (Hkf & Hp).
  split; [by apply Hs|done].
Qed.

Lemma buildFrom_sameFiles env n :
  forall t db w db' w',
    buildFrom env t n db w = Ret db' w' ->
    (forall typ, t <= typ < t + Z.of_nat n -> is_Some (archivedLogFile db !! typ)) ->
    registryKnown db w ->
    sameFiles w w'.
Proof.
  induction n as [|n IH]; intros t db w db' w' H Hsome Hk.
  - unfold_M. simpl in H. injection H as _ <-. apply sameFiles_refl.
  - simpl in H. apply bind_Ret in H as (db1 & w1 & Hb & H).
    pose proof (build_sameFiles _ _ _ _ _ _ Hb Hk) as Hs.
    destruct (Hsome t ltac:(lia)) as [a Ha].
    apply (build_Ret _ _ _ _ _ _ a) in Hb as (Hbuilt & Hothers); [|done].
    eapply sameFiles_trans; [exact Hs|]. eapply IH; [exact H| |].
    + intros typ' Hr. destruct (Hothers typ' ltac:(lia)) as (_ & _ & ->).
      apply Hsome. lia.
    + eapply registryKnown_step; [exact Hk|exact Hs|].
      intros typ fids' Hf'. destruct (decide (typ = t)) as [->|Hne].
      * destruct Hbuilt as (fids & a' & Hf & _ & Hf1 & _).
        exists fids. split; [done|]. rewrite Hf1 in Hf'. injection Hf' as <-.
        intros f. by rewrite (sortFids_perm fids).
      * destruct (Hothers typ Hne) as (Hu & _). rewrite Hu in Hf'. eauto.
Qed.

(** ** Recovery leaves the engine consistent with its directory *)

Lemma namesReadBack_elem db typ fids f :
  namesReadBack db -> fidsMap db !! typ = Some fids -> f ∈ fids ->
  parseName (FileName typ f) = Some (typ, f).
Proof.
  intros H Hf Hin. specialize (H typ fids Hf). simpl in H.
  rewrite Forall_forall in H. by apply H.
Qed.

Lemma namesReadBack_subset db db' :
  registrySubset db db' -> namesReadBack db' -> namesReadBack db.
Proof.
  intros Hsub H typ fids Hf. simpl. apply Forall_forall. intros f Hin.
  destruct (Hsub typ fids Hf) as (fids' & Hf' & Hincl).
  eapply namesReadBack_elem; [exact H|exact Hf'|by apply Hincl].
Qed.

Lemma registrySubset_refl db : registrySubset db db.
Proof. intros typ fids Hf. eauto. Qed.

Lemma registrySubset_trans db1 db2 db3 :
  registrySubset db1 db2 -> registrySubset db2 db3 -> registrySubset db1 db3.
Proof.
  intros H12 H23 typ fids Hf.
  destruct (H12 typ fids Hf) as (fids2 & Hf2 & Hi2).
  destruct (H23 typ fids2 Hf2) as (fids3 & Hf3 & Hi3).
  exists fids3. split; [done|]. auto.
Qed.

Lemma recovery_consistent env c w db' w' :
  buildLogFiles env (newLazyDB c) w = Ret (db', None) w' ->
  namesReadBack db' ->
  consistent db' w' /\ sameFiles w w'.
Proof.
  intros H Hnames.
  pose proof (fun typ Hc => recovery_category _ _ _ _ _ typ H Hc) as Hcat.
  pose proof (fun typ Hc => recovery_other _ _ _ _ _ typ H Hc) as Hoth.
  destruct (envReadDir env) as [e|] eqn:Erd.
  { by rewrite (buildLogFiles_ReadDir_error _ _ _ e) in H. }
  destruct (wExists w) eqn:Hex.
  2: { by rewrite (buildLogFiles_no_directory _ _ _ Erd) in H. }
  rewrite (buildLogFiles_listing _ _ _ Erd) in H by done.
  apply bind_Ret in H as (db1 & w1 & Hscan & H).
  apply bind_Ret in H as (db2 & w2 & Hbuild & H).
  unfold_M. injection H as <- <-.
  destruct (scanDir_world _ _ _ _ _ Hscan) as (He1 & Hd1).
  pose proof (sameFiles_of_dir _ _ He1 Hd1) as Hs1.
  apply scanDir_Ret in Hscan as (Ha & Hr & Hf).
  assert (Hk1 : registryKnown db1 w1).
  { intros typ fids f Hfids Hin. rewrite Hf in Hfids.
    destruct (decide (isCategory typ)) as [Hc|Hc].
    - destruct (newLazyDB_category c typ Hc) as (N1 & _).
      rewrite N1 in Hfids. simpl in Hfids. injection Hfids as <-.
      split; [unfold known; by rewrite Hd1|].
      destruct (Hcat typ Hc) as (Hreg & _).
      eapply namesReadBack_elem; [exact Hnames|exact Hreg|].
      by rewrite (sortFids_perm _).
    - destruct (newLazyDB_other c typ Hc) as (N1 & _).
      by rewrite N1 in Hfids. }
  assert (Hs2 : sameFiles w1 w2).
  { eapply buildFrom_sameFiles; [exact Hbuild| |exact Hk1].
    intros t Ht. rewrite Hr.
    destruct (newLazyDB_category c t) as (_ & _ & ->); [exact Ht|done]. }
  assert (Hs : sameFiles w w2) by (eapply sameFiles_trans; eauto).
  split; [|done]. intros typ Hc.
  destruct (Hcat typ Hc) as (Hreg & Hrest).
  set (D := discovered typ (map fst (wDir w))) in *.
  assert (Hmem : forall f, f ∈ sortFids D <-> known typ w2 f).
  { intros f. rewrite (sortFids_perm D). destruct Hs as (_ & _ & Hkn).
    by rewrite Hkn. }
  assert (Hpos : Forall (fun f => 0 <= f) (sortFids D)).
  { apply Forall_forall. intros f Hin. apply Hmem in Hin.
    apply known_range in Hin. lia. }
  destruct Hrest as [(Hnil & Hact & Harch)|(init & m & Hsort & Hact & Harch)].
  - exists (sortFids D), ∅. rewrite Hact. repeat (split; [done|]).
    split; [by rewrite Hnil|]. intros f m. by rewrite lookup_empty.
  - exists (sortFids D), (archiveAll typ init ∅). rewrite Hact.
    repeat (split; [done|]).
    assert (Hm0 : 0 <= m).
    { rewrite Forall_forall in Hpos. apply Hpos. rewrite Hsort.
      rewrite elem_of_app, list_elem_of_singleton. by right. }
    assert (Hmax : maxFid (sortFids D) = m).
    { rewrite Hsort. apply maxFid_sorted_snoc; [|done].
      rewrite <- Hsort. apply sortFids_sorted. }
    split.
    + simpl. rewrite Hmax. split; [done|]. rewrite Hsort.
      rewrite elem_of_app, list_elem_of_singleton. by right.
    + intros f mm. rewrite archiveAll_lookup, lookup_empty.
      destruct (decide (f ∈ init)) as [Hin|Hin]; [|done].
      intros [= <-]. split; [|done]. rewrite Hsort, elem_of_app. by left.
Qed.

Lemma Open_Ret env c w0 r e w1 :
  Open env c w0 = Ret (r, e) w1 ->
  exists db0 w0',
    r = Some db0 /\ e = None /\ wDir w0' = wDir w0
    /\ buildLogFiles env (newLazyDB c) w0' = Ret (db0, None) w1.
Proof.
  unfold Open. intros H.
  apply bind_Ret in H as (ok & wa & Hpe & H).
  apply bind_Ret in H as (mk & wb & Hmk & H).
  destruct mk as [err|]; [discriminate|].
  apply bind_Ret in H as ([db [err|]] & w3 & Hb & H); [discriminate|].
  unfold_M. injection H as <- <- <-.
  exists db, wb. repeat (split; [done|]). split; [|done].
  unfold PathExist in Hpe. injection Hpe as <- <-.
  destruct (negb (wExists w0)).
  - unfold MkdirAll in Hmk. destruct (envMkdirAll env); [discriminate|].
    by injection Hmk as <-.
  - by injection Hmk as <-.
Qed.

(** ** A write leaves the engine consistent with its directory *)

Lemma logfileAppend_names env f enc w a w' :
  logfileAppend env f enc w = Ret a w' ->
  wExists w' = wExists w /\ map fst (wDir w') = map fst (wDir w).
Proof.
  unfold logfileAppend. destruct (envWrite env f); intros [= _ <-]; [done|].
  simpl. by rewrite appendFile_names.
Qed.

Lemma writeEntry_cases env typ enc db w db1 r w1 :
  writeEntry env typ enc db w = Ret (db1, r) w1 ->
  exists fids arch,
    fidsMap db !! typ = Some fids
    /\ archivedLogFile db !! typ = Some arch
    /\ ((db1 = db /\ wExists w1 = wExists w
         /\ map fst (wDir w1) = map fst (wDir w))
        \/ exists h wo,
             logfileOpen env typ (mintFid fids) w = Ret (inl h) wo
             /\ wExists w1 = wExists wo
             /\ map fst (wDir w1) = map fst (wDir wo)
             /\ db1 = withNewSegment typ fids arch h db).
Proof.
  unfold writeEntry. intros H.
  destruct (fidsMap db !! typ) as [fids|] eqn:Hf; [|discriminate].
  destruct (archivedLogFile db !! typ) as [arch|] eqn:Ha; [|discriminate].
  exists fids, arch. do 2 (split; [done|]).
  apply bind_Ret in H as (size & w0 & Hsz & H). injection Hsz as <- <-.
  apply bind_Ret in H as ([dbm rm] & wm & Hmid & H).
  assert (Hfin : db1 = dbm /\ wExists w1 = wExists wm
                 /\ map fst (wDir w1) = map fst (wDir wm)).
  { destruct rm as [f|e].
    - apply bind_Ret in H as (a & wa & Happ & H).
      apply logfileAppend_names in Happ as (E1 & E2).
      destruct a; unfold_M; by injection H as <- _ <-.
    - unfold_M. by injection H as <- _ <-. }
  destruct Hfin as (-> & E1 & E2). clear H.
  unfold withNewSegment.
  destruct (activeLogFileMap db !! typ) as [mlf|].
  - destruct (_ >? _).
    + apply bind_Ret in Hmid as (o & wo & Ho & Hmid).
      destruct o as [h|e]; unfold_M; injection Hmid as <- _ <-.
      * right. by exists h, wo.
      * left. unfold logfileOpen in Ho.
        destruct (envOpen env typ (mintFid fids)); [|discriminate].
        injection Ho as _ <-. done.
    + unfold_M. injection Hmid as <- _ <-. by left.
  - apply bind_Ret in Hmid as (o & wo & Ho & Hmid).
    destruct o as [h|e]; unfold_M; injection Hmid as <- _ <-.
    + right. by exists h, wo.
    + left. unfold logfileOpen in Ho.
      destruct (envOpen env typ (mintFid fids)); [|discriminate].
      injection Ho as _ <-. done.
Qed.

Lemma withNewSegment_fids typ fids arch h db t :
  fidsMap (withNewSegment typ fids arch h db) !! t
  = if decide (typ = t) then Some (fids ++ [mintFid fids]) else fidsMap db !! t.
Proof.
  unfold withNewSegment. destruct (activeLogFileMap db !! typ); simpl;
    apply lookup_insert.
Qed.

Lemma writeEntry_registrySubset env typ enc db w db1 r w1 :
  writeEntry env typ enc db w = Ret (db1, r) w1 -> registrySubset db db1.
Proof.
  intros H. apply writeEntry_cases in H
    as (fids & arch & Hf & Ha & [(-> & _)|(h & wo & _ & _ & _ & ->)]).
  - apply registrySubset_refl.
  - intros t fids' Hf'. rewrite withNewSegment_fids.
    destruct (decide (typ = t)) as [<-|Hne]; [|eauto].
    rewrite Hf in Hf'. injection Hf' as <-. eexists. split; [done|].
    intros f Hin. rewrite elem_of_app. by left.
Qed.

Lemma consistentAt_frame t db w db1 w1 :
  fidsMap db1 !! t = fidsMap db !! t ->
  activeLogFileMap db1 !! t = activeLogFileMap db !! t ->
  archivedLogFile db1 !! t = archivedLogFile db !! t ->
  (forall x, known t w1 x <-> known t w x) ->
  consistentAt t db w -> consistentAt t db1 w1.
Proof.
  intros Ef Ea Er Hk (fids & arch & Hf & Ha & Hpos & Hmem & Hact & Harch).
  exists fids, arch. rewrite Ef, Ea, Er. do 3 (split; [done|]).
  split; [intros f; by rewrite Hmem, Hk|]. by split.
Qed.

Lemma known_names t w w1 x :
  map fst (wDir w1) = map fst (wDir w) -> known t w1 x <-> known t w x.
Proof. unfold known. by intros ->. Qed.

Lemma withNewSegment_active typ fids arch h db t :
  activeLogFileMap (withNewSegment typ fids arch h db) !! t
  = if decide (typ = t) then Some (mkMutexLogFile h false)
    else activeLogFileMap db !! t.
Proof.
  unfold withNewSegment. destruct (activeLogFileMap db !! typ); simpl;
    apply lookup_insert.
Qed.

Lemma withNewSegment_archived typ fids arch h db t :
  typ <> t ->
  archivedLogFile (withNewSegment typ fids arch h db) !! t
  = archivedLogFile db !! t.
Proof.
  intros Hne. unfold withNewSegment.
  destruct (activeLogFileMap db !! typ); simpl; [|done].
  by rewrite lookup_insert_ne.
Qed.

(** A write that opens the next segment of a category below the largest
    fid leaves the category as the directory has it. *)
Lemma withNewSegment_consistentAt typ fids arch h db w w1 :
  fidsMap db !! typ = Some fids ->
  archivedLogFile db !! typ = Some arch ->
  h = mkLogFile (mintFid fids) typ ->
  (forall x, known typ w1 x <-> known typ w x \/ x = mintFid fids) ->
  maxFid fids < 4294967295 ->
  consistentAt typ db w ->
  consistentAt typ (withNewSegment typ fids arch h db) w1.
Proof.
  intros Hf Ha -> Hk1 Hlt
    (fids' & arch' & Hf' & Ha' & Hpos & Hmem & Hact & Harch).
  rewrite Hf in Hf'. injection Hf' as <-. rewrite Ha in Ha'. injection Ha' as <-.
  assert (Hmint : 0 <= mintFid fids) by (pose proof (mintFid_range fids); lia).
  assert (Hpos1 : Forall (fun f => 0 <= f) (fids ++ [mintFid fids])).
  { apply Forall_app. split; [done|]. by repeat constructor. }
  assert (Hmem1 : forall f, f ∈ fids ++ [mintFid fids] <-> known typ w1 f).
  { intros f. rewrite Hk1, elem_of_app, list_elem_of_singleton, Hmem. tauto. }
  assert (Hin1 : maxFid (fids ++ [mintFid fids]) ∈ fids ++ [mintFid fids]).
  { rewrite maxFid_mint by done.
    rewrite elem_of_app, list_elem_of_singleton. by right. }
  unfold withNewSegment.
  destruct (activeLogFileMap db !! typ) as [mlf|] eqn:Hmlf.
  - destruct Hact as (Hlf & Hmaxin).
    exists (fids ++ [mintFid fids]), (<[Fid (lf mlf) := mlf]> arch). simpl.
    rewrite !lookup_insert_eq.
    split; [done|]. split; [done|]. split; [exact Hpos1|].
    split; [exact Hmem1|].
    split; [split; [simpl; by rewrite maxFid_mint|exact Hin1]|].
    intros f m. rewrite lookup_insert.
    destruct (decide (Fid (lf mlf) = f)) as [<-|Hnf].
    + intros [= <-]. rewrite Hlf. simpl. split; [|done].
      rewrite elem_of_app. by left.
    + intros Hl. destruct (Harch f m Hl) as (Hin & Hlfm). split; [|done].
      rewrite elem_of_app. by left.
  - exists (fids ++ [mintFid fids]), arch. simpl.
    rewrite !lookup_insert_eq.
    split; [done|]. split; [done|]. split; [exact Hpos1|].
    split; [exact Hmem1|].
    split; [split; [simpl; by rewrite maxFid_mint|exact Hin1]|].
    intros f m Hl. destruct (Harch f m Hl) as (Hin & Hlfm). split; [|done].
    rewrite elem_of_app. by left.
Qed.

(** A write keeps every category as the directory has it, until the fid of
    the category wraps; from then on the category stays wrapped. *)
Lemma writeEntry_keeps env typ enc db w db1 r w1 :
  writeEntry env typ enc db w = Ret (db1, r) w1 ->
  namesReadBack db1 ->
  (forall t, isCategory t -> consistentAt t db w \/ wrapped t db) ->
  forall t, isCategory t -> consistentAt t db1 w1 \/ wrapped t db1.
Proof.
  intros H Hnames Hinv.
  apply writeEntry_cases in H
    as (fids & arch & Hf & Ha & [(-> & _ & Hn)|(h & wo & Ho & _ & Hn & Hdb1)]).
  { intros t Ht. destruct (Hinv t Ht) as [Hc|Hw]; [left|by right].
    apply (consistentAt_frame t db w db w1); [done|done|done| |done].
    intros x. by apply known_names. }
  assert (Hp : parseName (FileName typ (mintFid fids)) = Some (typ, mintFid fids)).
  { eapply namesReadBack_elem; [exact Hnames| |].
    - rewrite Hdb1, withNewSegment_fids. by rewrite decide_True.
    - rewrite elem_of_app, list_elem_of_singleton. by right. }
  destruct (logfileOpen_effect _ _ _ _ _ _ Ho Hp) as (Hh & _ & _ & Hkn).
  assert (Hk1 : forall t x, known t w1 x
                            <-> known t w x \/ (t = typ /\ x = mintFid fids)).
  { intros t x. by rewrite (known_names t wo w1 x), Hkn. }
  intros t Ht. destruct (decide (t = typ)) as [->|Hne].
  2: { destruct (Hinv t Ht) as [Hc|(fs & m & Hfs & Hm & Hmax & Hz)].
       - left. eapply (consistentAt_frame t db w); [| | | |exact Hc].
         + rewrite Hdb1, withNewSegment_fids. by rewrite decide_False.
         + rewrite Hdb1, withNewSegment_active. by rewrite decide_False.
         + rewrite Hdb1. by apply withNewSegment_archived.
         + intros x. rewrite Hk1. split; [|by left]. by intros [?|[? _]].
       - right. exists fs, m. rewrite Hdb1.
         rewrite withNewSegment_fids, withNewSegment_active.
         by rewrite !decide_False. }
  assert (Hwrap : maxFid fids = 4294967295 -> wrapped typ db1).
  { intros Hmax. exists (fids ++ [mintFid fids]), (mkMutexLogFile h false).
    rewrite Hdb1, withNewSegment_fids, withNewSegment_active.
    rewrite !decide_True by done. split; [done|]. split; [done|].
    rewrite maxFid_snoc, Hh, (mintFid_wraps fids Hmax). simpl.
    split; [lia|done]. }
  destruct (Hinv typ Ht) as [Hc|(fs & m & Hfs & Hm & Hmax & Hz)].
  2: { right. apply Hwrap. rewrite Hf in Hfs. by injection Hfs as <-. }
  assert (Hle : maxFid fids <= 4294967295).
  { destruct Hc as (fids' & _ & Hf' & _ & _ & Hmem & _).
    rewrite Hf in Hf'. injection Hf' as <-.
    apply maxFid_le; [lia|]. intros f Hin. apply Hmem, known_range in Hin. lia. }
  destruct (decide (maxFid fids = 4294967295)) as [Hmax|Hmax];
    [right; by apply Hwrap|left].
  rewrite Hdb1.
  apply (withNewSegment_consistentAt typ fids arch h db w w1);
    [done|done|done| |lia|done].
  intros x. rewrite Hk1. tauto.
Qed.

Lemma writeAll_registrySubset env ws :
  forall db w db' rs w',
    writeAll env ws db w = Ret (db', rs) w' -> registrySubset db db'.
Proof.
  induction ws as [|[typ enc] ws IH]; intros db w db' rs w' H; simpl in H.
  - unfold_M. injection H as <- _ _. apply registrySubset_refl.
  - apply bind_Ret in H as ([db1 r] & w1 & Hw & H).
    apply bind_Ret in H as ([db2 rs2] & w2 & Hrest & H).
    unfold_M. simpl in H. injection H as <- _ _.
    eapply registrySubset_trans; [by eapply writeEntry_registrySubset|].
    by eapply IH.
Qed.

Lemma writeAll_keeps env ws :
  forall db w db' rs w',
    writeAll env ws db w = Ret (db', rs) w' ->
    namesReadBack db' ->
    (forall t, isCategory t -> consistentAt t db w \/ wrapped t db) ->
    forall t, isCategory t -> consistentAt t db' w' \/ wrapped t db'.
Proof.
  induction ws as [|[typ enc] ws IH]; intros db w db' rs w' H Hn Hinv;
    simpl in H.
  - unfold_M. by injection H as <- _ <-.
  - apply bind_Ret in H as ([db1 r] & w1 & Hw & H).
    apply bind_Ret in H as ([db2 rs2] & w2 & Hrest & H).
    unfold_M. simpl in H. injection H as <- _ <-.
    eapply IH; [exact Hrest|exact Hn|].
    eapply writeEntry_keeps; [exact Hw| |exact Hinv].
    eapply namesReadBack_subset; [|exact Hn].
    by eapply writeAll_registrySubset.
Qed.

(** Where every active fid is the largest of its registry no category has
    wrapped. *)
Lemma activeIsMax_consistent db w :
  activeIsMax db ->
  (forall t, isCategory t -> consistentAt t db w \/ wrapped t db) ->
  consistent db w.
Proof.
  intros Hmax Hinv t Ht.
  destruct (Hinv t Ht) as [Hc|(fids & mlf & Hf & Hm & Hlarge & Hz)]; [done|].
  specialize (Hmax t fids mlf Hf Hm). lia.
Qed.

(** ** The registries hold 32-bit fids of the categories *)

Lemma recovery_registryInRange env c w db' w' :
  buildLogFiles env (newLazyDB c) w = Ret (db', None) w' ->
  registryInRange db'.
Proof.
  intros H typ fids Hf.
  destruct (decide (isCategory typ)) as [Hc|Hc].
  - split; [done|]. intros f Hin.
    destruct (recovery_category _ _ _ _ _ typ H Hc) as (Hreg & _).
    rewrite Hreg in Hf. injection Hf as <-.
    rewrite (sortFids_perm _) in Hin.
    apply discovered_elem in Hin as (n & _ & Hp). by eapply parseName_range.
  - destruct (recovery_other _ _ _ _ _ typ H Hc) as (Hnone & _). congruence.
Qed.

Lemma writeEntry_registryInRange env typ enc db w db1 r w1 :
  writeEntry env typ enc db w = Ret (db1, r) w1 ->
  registryInRange db -> registryInRange db1.
Proof.
  intros H Hin. apply writeEntry_cases in H
    as (fids & arch & Hf & Ha & [(-> & _)|(h & wo & _ & _ & _ & ->)]);
    [done|].
  intros t fs. rewrite withNewSegment_fids.
  destruct (decide (typ = t)) as [<-|Hne]; [|apply Hin].
  intros [= <-]. destruct (Hin typ fids Hf) as (Hc & Hr). split; [done|].
  intros f. rewrite elem_of_app, list_elem_of_singleton.
  intros [Hf1| ->]; [by apply Hr|apply mintFid_range].
Qed.

Lemma writeAll_registryInRange env ws :
  forall db w db' rs w',
    writeAll env ws db w = Ret (db', rs) w' ->
    registryInRange db -> registryInRange db'.
Proof.
  induction ws as [|[typ enc] ws IH]; intros db w db' rs w' H Hin; simpl in H.
  - unfold_M. by injection H as <- _ _.
  - apply bind_Ret in H as ([db1 r] & w1 & Hw & H).
    apply bind_Ret in H as ([db2 rs2] & w2 & Hrest & H).
    unfold_M. simpl in H. injection H as <- _ _.
    eapply IH; [exact Hrest|]. by eapply writeEntry_registryInRange.
Qed.

Lemma namesEncode_readBack db :
  namesEncode -> registryInRange db -> namesReadBack db.
Proof.
  intros Henc Hin typ fids Hf. simpl. apply Forall_forall. intros f Hmem.
  destruct (Hin typ fids Hf) as (Hc & Hr). apply Henc; [done|by apply Hr].
Qed.

(** ** Open returns when the operating system reports no failure *)

Lemma scanEntry_returns name db w :
  (forall t f, parseName name = Some (t, f) -> is_Some (fidsMap db !! t)) ->
  exists db' w', scanEntry name db w = Ret db' w'.
Proof.
  unfold scanEntry, parseName. intros H.
  destruct (HasPrefix name FilePrefix); simpl; [|by eexists _, _].
  destruct (SplitDot name) as [|a [|b [|c [|? ?]]]]; try by eexists _, _.
  destruct (Atoi c) as [n|]; [|by eexists _, _].
  destruct (H _ _ eq_refl) as [fids ->]. by eexists _, _.
Qed.

Lemma scanDir_returns names :
  forall db w,
    (forall n t f, n ∈ names -> parseName n = Some (t, f) ->
                   is_Some (fidsMap db !! t)) ->
    exists db' w', scanDir names db w = Ret db' w'.
Proof.
  induction names as [|n names IH]; intros db w H; simpl.
  - by eexists _, _.
  - destruct (scanEntry_returns n db w) as (db1 & w1 & E).
    { intros t f. apply H, elem_of_cons. by left. }
    rewrite (bind_eq _ _ _ _ _ E). apply IH. intros n' t f Hin Hp.
    apply scanEntry_Ret in E as (_ & _ & Hf). rewrite Hf.
    apply fmap_is_Some. eapply H; [|done]. apply elem_of_cons. by right.
Qed.

Lemma openLoop_returns env typ fids :
  (forall f, envOpen env typ f = None) ->
  forall n i db w,
    is_Some (archivedLogFile db !! typ) ->
    exists db' w', openLoop env typ n i fids db w = Ret db' w'.
Proof.
  intros Hopen. induction fids as [|f rest IH]; intros n i db w Ha; simpl.
  - by eexists _, _.
  - unfold mbind, M_bind, bind, logfileOpen. rewrite Hopen.
    destruct (Nat.eqb i (n - 1)); [by apply IH|].
    destruct Ha as [a Ha]. rewrite Ha. apply IH. simpl.
    by rewrite lookup_insert_eq.
Qed.

Lemma build_returns env typ db w :
  (forall f, envOpen env typ f = None) ->
  is_Some (fidsMap db !! typ) -> is_Some (archivedLogFile db !! typ) ->
  exists db' w', build env typ db w = Ret db' w'.
Proof.
  intros Hopen [fids Hf] Ha. unfold build. rewrite Hf.
  destruct fids as [|f0 fids0]; [by eexists _, _|].
  by apply openLoop_returns.
Qed.

Lemma buildFrom_returns env n :
  (forall typ f, envOpen env typ f = None) ->
  forall t db w,
    (forall typ, t <= typ < t + Z.of_nat n ->
       is_Some (fidsMap db !! typ) /\ is_Some (archivedLogFile db !! typ)) ->
    exists db' w', buildFrom env t n db w = Ret db' w'.
Proof.
  intros Hopen. induction n as [|n IH]; intros t db w H; simpl.
  - by eexists _, _.
  - destruct (H t ltac:(lia)) as (Hf & Ha).
    destruct (build_returns env t db w (Hopen t) Hf Ha) as (db1 & w1 & E).
    rewrite (bind_eq _ _ _ _ _ E). apply IH. intros typ Hr.
    destruct Ha as [a Ha].
    destruct (build_Ret _ _ _ _ _ _ a E Ha) as (_ & Hothers).
    destruct (Hothers typ ltac:(lia)) as (-> & _ & ->). apply H. lia.
Qed.

Lemma Open_returns env c w :
  opensAll env -> wExists w = true ->
  (forall t x, known t w x -> isCategory t) ->
  exists db w', Open env c w = Ret (Some db, None) w'.
Proof.
  intros (Hrd & Hopen) Hex Hcat. unfold Open.
  unfold mbind at 1, M_bind at 1, bind at 1, PathExist. rewrite Hex. simpl negb.
  unfold mbind at 1, M_bind at 1, bind at 1, ret at 1.
  assert (Hb : exists db w', buildLogFiles env (newLazyDB c) w = Ret (db, None) w').
  { rewrite (buildLogFiles_listing _ _ _ Hrd Hex).
    destruct (scanDir_returns (map fst (wDir w)) (newLazyDB c) w) as (db1 & w1 & E).
    { intros n t f Hin Hp.
      assert (Hc : isCategory t).
      { apply (Hcat t f). apply discovered_elem. eauto. }
      destruct (newLazyDB_category c t Hc) as (-> & _). done. }
    rewrite (bind_eq _ _ _ _ _ E).
    apply scanDir_Ret in E as (_ & Hr & Hf).
    destruct (buildFrom_returns env logFileTypeNum Hopen 0 db1 w1) as (db2 & w2 & E2).
    { intros typ Ht. rewrite Hf, Hr.
      destruct (newLazyDB_category c typ) as (-> & _ & ->); [exact Ht|done]. }
    rewrite (bind_eq _ _ _ _ _ E2). by eexists _, _. }
  destruct Hb as (db & w' & Hb).
  rewrite (bind_eq _ _ _ _ _ Hb). by eexists _, _.
Qed.

Lemma recovery_reopenable env c w db' w' :
  buildLogFiles env (newLazyDB c) w = Ret (db', None) w' ->
  sameFiles w w' ->
  reopenable db' w'.
Proof.
  intros H (Hex & _ & Hkn).
  assert (Hex0 : wExists w = true).
  { destruct (envReadDir env) as [e|] eqn:Erd.
    { by rewrite (buildLogFiles_ReadDir_error _ _ _ e) in H. }
    destruct (wExists w) eqn:E; [done|].
    by rewrite (buildLogFiles_no_directory _ _ _ Erd) in H. }
  split; [congruence|]. split.
  - intros t x Hk. apply Hkn in Hk.
    destruct (decide (isCategory t)) as [Hc|Hc]; [done|].
    destruct (recovery_other _ _ _ _ _ t H Hc) as (_ & _ & _ & HD).
    unfold known in Hk. rewrite HD in Hk. by apply elem_of_nil in Hk.
  - intros typ Hs. destruct (decide (isCategory typ)) as [Hc|Hc]; [done|].
    destruct (recovery_other _ _ _ _ _ typ H Hc) as (Hnone & _).
    rewrite Hnone in Hs. by destruct Hs.
Qed.

Lemma writeEntry_reopenable env typ enc db w db1 r w1 :
  writeEntry env typ enc db w = Ret (db1, r) w1 ->
  reopenable db w -> namesReadBack db1 -> reopenable db1 w1.
Proof.
  intros H (Hex & Hcat & Hreg) Hnames.
  apply writeEntry_cases in H
    as (fids & arch & Hf & Ha & [(-> & He & Hn)|(h & wo & Ho & He & Hn & Hdb1)]).
  { split; [congruence|]. split; [|done].
    intros t x. rewrite (known_names t w w1 x Hn). apply Hcat. }
  assert (Hp : parseName (FileName typ (mintFid fids)) = Some (typ, mintFid fids)).
  { eapply namesReadBack_elem; [exact Hnames| |].
    - rewrite Hdb1, withNewSegment_fids. by rewrite decide_True.
    - rewrite elem_of_app, list_elem_of_singleton. by right. }
  destruct (logfileOpen_effect _ _ _ _ _ _ Ho Hp) as (_ & Heo & _ & Hkn).
  assert (Hc : isCategory typ) by (apply Hreg; by rewrite Hf).
  split; [congruence|]. split.
  - intros t x. rewrite (known_names t wo w1 x Hn), Hkn.
    intros [Hk|[-> _]]; [by eapply Hcat|done].
  - intros t. rewrite Hdb1, withNewSegment_fids.
    destruct (decide (typ = t)) as [<-|_]; [done|apply Hreg].
Qed.

Lemma writeAll_reopenable env ws :
  forall db w db' rs w',
    writeAll env ws db w = Ret (db', rs) w' ->
    reopenable db w -> namesReadBack db' -> reopenable db' w'.
Proof.
  induction ws as [|[typ enc] ws IH]; intros db w db' rs w' H Hc Hn;
    simpl in H.
  - unfold_M. by injection H as <- _ <-.
  - apply bind_Ret in H as ([db1 r] & w1 & Hw & H).
    apply bind_Ret in H as ([db2 rs2] & w2 & Hrest & H).
    unfold_M. simpl in H. injection H as <- _ <-.
    eapply IH; [exact Hrest| |exact Hn].
    eapply writeEntry_reopenable; [exact Hw|exact Hc|].
    eapply namesReadBack_subset; [|exact Hn].
    by eapply writeAll_registrySubset.
Qed.

(** ** Closing and opening again *)

Lemma getLogFile_archived db w typ f m :
  consistentAt typ db w ->
  getArchivedLogFile db typ f = Some m ->
  lf m = mkLogFile f typ /\ known typ w f
  /\ getLogFile db typ f = Some (mkLogFile f typ).
Proof.
  intros (fids & arch & Hf & Ha & Hpos & Hmem & Hact & Harch) Hget.
  unfold getArchivedLogFile in Hget. rewrite Ha in Hget. simpl in Hget.
  destruct (Harch f m Hget) as (Hin & Hlf).
  split; [done|]. split; [by apply Hmem|].
  unfold getLogFile, getArchivedLogFile. rewrite Ha. simpl. rewrite Hget. simpl.
  destruct (activeLogFileMap db !! typ) as [mlf|]; [|by rewrite Hlf].
  destruct Hact as (Hlfa & _).
  destruct (Z.eqb_spec (Fid (lf mlf)) f) as [E|_]; [|by rewrite Hlf].
  rewrite Hlfa in E |- *. simpl in E. by rewrite E.
Qed.

Lemma reopen_same env2 c2 db w db2 w2 :
  consistent db w -> namesReadBack db ->
  buildLogFiles env2 (newLazyDB c2) w = Ret (db2, None) w2 ->
  sameFiles w w2
  /\ forall typ, isCategory typ ->
       (fun m => Fid (lf m)) <$> activeLogFileMap db2 !! typ
       = (fun m => Fid (lf m)) <$> activeLogFileMap db !! typ
       /\ forall f m,
            getArchivedLogFile db typ f = Some m ->
            getLogFile db2 typ f = Some (lf m)
            /\ getLogFile db typ f = Some (lf m).
Proof.
  intros Hcons Hnames H.
  pose proof (fun typ Hc => recovery_category _ _ _ _ _ typ H Hc) as Hcat.
  pose proof (fun typ Hc => recovery_other _ _ _ _ _ typ H Hc) as Hoth.
  assert (Hnames2 : namesReadBack db2).
  { intros typ fids2 Hf2. simpl. apply Forall_forall. intros f Hin.
    destruct (decide (isCategory typ)) as [Hc|Hc].
    - destruct (Hcat typ Hc) as (Hreg & _). rewrite Hreg in Hf2.
      injection Hf2 as <-. rewrite (sortFids_perm _) in Hin.
      destruct (Hcons typ Hc) as (fids & arch & Hf & _ & _ & Hmem & _).
      eapply namesReadBack_elem; [exact Hnames|exact Hf|]. by apply Hmem.
    - destruct (Hoth typ Hc) as (Hnone & _). by rewrite Hnone in Hf2. }
  destruct (recovery_consistent _ _ _ _ _ H Hnames2) as (_ & Hsame).
  split; [done|]. intros typ Hc.
  destruct (Hcons typ Hc) as (fids & arch & Hf & Ha & Hpos & Hmem & Hact & Harch).
  destruct (Hcat typ Hc) as (Hreg & Hrest).
  set (D := discovered typ (map fst (wDir w))) in *.
  assert (HD : forall f, f ∈ fids <-> f ∈ sortFids D).
  { intros f. by rewrite Hmem, (sortFids_perm D). }
  assert (Hsorted : StronglySorted Z.le (sortFids D)) by apply sortFids_sorted.
  split.
  - destruct Hrest as [(Hnil & Hact2 & _)|(init & mx & Hsort & Hact2 & _)].
    + rewrite Hact2. destruct (activeLogFileMap db !! typ) as [mlf|]; [|done].
      destruct Hact as (_ & Hin). apply HD in Hin. rewrite Hnil in Hin.
      by apply elem_of_nil in Hin.
    + rewrite Hact2. simpl.
      assert (Hmx : mx ∈ fids).
      { apply HD. rewrite Hsort, elem_of_app, list_elem_of_singleton. by right. }
      destruct (activeLogFileMap db !! typ) as [mlf|].
      * destruct Hact as (Hlf & Hin). simpl. rewrite Hlf. simpl. f_equal.
        apply Z.le_antisymm; [by apply maxFid_ge|].
        apply (sorted_snoc_max init mx); [by rewrite <- Hsort|].
        rewrite <- Hsort. by apply HD.
      * rewrite Hact in Hmx. by apply elem_of_nil in Hmx.
  - intros f m Hget.
    destruct (getLogFile_archived db w typ f m (Hcons typ Hc) Hget)
      as (Hlf & Hk & Hg).
    split; [|by rewrite Hlf]. rewrite Hlf.
    assert (Hin : f ∈ sortFids D) by (by rewrite (sortFids_perm D)).
    destruct Hrest as [(Hnil & _)|(init & mx & Hsort & Hact2 & Harch2)].
    { rewrite Hnil in Hin. by apply elem_of_nil in Hin. }
    unfold getLogFile, getArchivedLogFile. rewrite Hact2, Harch2. simpl.
    destruct (Z.eqb_spec mx f) as [->|Hne]; [done|].
    rewrite archiveAll_lookup. rewrite Hsort, elem_of_app, list_elem_of_singleton in Hin.
    destruct Hin as [Hin| ->]; [|done]. by rewrite decide_True.
Qed.

(** C5, as amended.  An engine is opened on a directory, any sequence of
    entries is written, the engine is closed and an engine is opened on the
    directory again, where package logfile names a segment so that the scan
    reads its category and fid off the name.  If before closing the active
    fid of every category is the largest fid of its registry, that is, no
    rotation has minted a fid past 4294967295, then opening again returns
    whenever the operating system reports no failure, and for every engine
    it returns and every category the active fid is the active fid before
    closing, and every fid that was archived is still retrieved and gives
    the same bytes for the same fid, offset and length. *)
Theorem recovery_is_idempotent (env env2 : Env) (c : DBConfig)
    (w0 w1 w wc : World) (db0 db dbc : LazyDB)
    (ws : list (Z * list byte)) (rs : list (ValuePos + error))
    (ec : option error) :
  namesEncode ->
  Open env c w0 = Ret (Some db0, None) w1 ->
  writeAll env ws db0 w1 = Ret (db, rs) w ->
  activeIsMax db ->
  Close db w = Ret (dbc, ec) wc ->
  (opensAll env2 -> exists db2 w2, Open env2 c wc = Ret (Some db2, None) w2)
  /\ forall db2 w2,
       Open env2 c wc = Ret (Some db2, None) w2 ->
       forall typ, isCategory typ ->
         (fun m => Fid (lf m)) <$> activeLogFileMap db2 !! typ
         = (fun m => Fid (lf m)) <$> activeLogFileMap db !! typ
         /\ forall f m,
              getArchivedLogFile db typ f = Some m ->
              getLogFile db2 typ f = Some (lf m)
              /\ forall off len,
                   result (readAt db2 typ f off len w2)
                   = result (readAt db typ f off len w).
Proof.
  intros Henc Hopen Hwrites Hmax Hclose.
  unfold Close in Hclose. unfold_M. injection Hclose as <- _ <-.
  apply Open_Ret in Hopen as (? & w0' & [= <-] & _ & Hd0 & Hrec).
  assert (Hnames : namesReadBack db).
  { apply namesEncode_readBack; [done|].
    eapply writeAll_registryInRange; [exact Hwrites|].
    by eapply recovery_registryInRange. }
  assert (Hn0 : namesReadBack db0).
  { eapply namesReadBack_subset; [|exact Hnames].
    by eapply writeAll_registrySubset. }
  destruct (recovery_consistent _ _ _ _ _ Hrec Hn0) as (Hc0 & Hs0).
  assert (Hcons : consistent db w).
  { apply activeIsMax_consistent; [done|].
    eapply writeAll_keeps; [exact Hwrites|exact Hnames|].
    intros t Ht. left. by apply Hc0. }
  pose proof (recovery_reopenable _ _ _ _ _ Hrec Hs0) as Hr0.
  destruct (writeAll_reopenable _ _ _ _ _ _ _ Hwrites Hr0 Hnames)
    as (Hex & Hcat & _).
  split; [intros Hall; by apply Open_returns|].
  intros db2 w2 Hreopen typ Hc.
  apply Open_Ret in Hreopen as (? & w' & [= <-] & _ & Hd & Hrec2).
  assert (Hcons' : consistent db w').
  { intros t Ht. apply (consistentAt_frame t db w); [done|done|done| |by apply Hcons].
    intros x. apply known_names. by rewrite Hd. }
  destruct (reopen_same _ _ _ _ _ _ Hcons' Hnames Hrec2) as (Hsame & Hre).
  destruct (Hre typ Hc) as (Hactive & Harch). split; [done|].
  intros f m Hget. destruct (Harch f m Hget) as (Hg2 & Hg). split; [done|].
  intros off len. unfold readAt. rewrite Hg2, Hg.
  destruct Hsame as (_ & Hcontent & _).
  assert (Hsamec : fileContent (segmentName (lf m)) w2
                   = fileContent (segmentName (lf m)) w).
  { rewrite Hcontent. unfold fileContent. by rewrite Hd. }
  rewrite Hsamec. by destruct (_ <=? _)%nat.
Qed.

(** * Further properties *)

(** ** Sync and the locks of the segments *)

Lemma syncLoop_error_holds_lock env order :
  forall db w db' e w',
    (forall t m, activeLogFileMap db !! t = Some m -> locked m = false) ->
    syncLoop env order db w = Ret (db', Some e) w' ->
    exists typ mlf, activeLogFileMap db' !! typ = Some mlf /\ locked mlf = true.
Proof using Type.
  induction order as [|t rest IH]; intros db w db' e w' Hfree H; simpl in H.
  - unfold_M. discriminate.
  - destruct (activeLogFileMap db !! t) as [m|] eqn:Hm; [|by eapply IH].
    rewrite (Hfree _ _ Hm) in H.
    unfold mbind, M_bind, bind, logfileSync in H.
    destruct (envSync env (lf m)) as [e0|].
    + unfold ret in H. injection H as <- _ _. exists t, (setLocked true m).
      simpl. by rewrite lookup_insert_eq.
    + rewrite relock_id in H by eauto. by eapply IH.
Qed.

Lemma syncLoop_with_held_lock env order :
  forall db w typ mlf,
    activeLogFileMap db !! typ = Some mlf -> locked mlf = true ->
    typ ∈ order ->
    syncLoop env order db w = Blocked
    \/ exists db' e w', syncLoop env order db w = Ret (db', Some e) w'.
Proof using Type.
  induction order as [|t rest IH]; intros db w typ mlf Hm Hl Hin.
  - by apply elem_of_nil in Hin.
  - simpl. destruct (activeLogFileMap db !! t) as [m|] eqn:Ht.
    + destruct (locked m) eqn:Hlm; [by left|].
      assert (Hne : t <> typ) by (intros ->; congruence).
      apply elem_of_cons in Hin as [->|Hin]; [done|].
      unfold mbind, M_bind, bind, logfileSync.
      destruct (envSync env (lf m)) as [e0|].
      * right. by eexists _, _, _.
      * rewrite relock_id by eauto.
        eapply IH; [exact Hm|exact Hl|exact Hin].
    + apply elem_of_cons in Hin as [->|Hin]; [congruence|].
      eapply IH; [exact Hm|exact Hl|exact Hin].
Qed.

(** X1.  Sync returns on its failure path without releasing the lock it
    took.  So once a Sync has returned an error, no later Sync on that
    engine returns nil, whatever the operating system then does and
    whatever order the map iteration takes: it waits for ever on the held
    lock, unless another segment fails before it gets there. *)
Theorem Sync_never_succeeds_after_a_failure (env env2 : Env)
    (order order2 : list Z) (db db' : LazyDB) (w w' w2 : World) (e : error) :
  (forall t m, activeLogFileMap db !! t = Some m -> locked m = false) ->
  Sync env order db w = Ret (db', Some e) w' ->
  iterationOrder order2 db' ->
  Sync env2 order2 db' w2 = Blocked
  \/ exists db'' e2 w'', Sync env2 order2 db' w2 = Ret (db'', Some e2) w''.
Proof using Type.
  intros Hfree H Hord.
  destruct (syncLoop_error_holds_lock _ _ _ _ _ _ _ Hfree H)
    as (typ & mlf & Hm & Hl).
  eapply syncLoop_with_held_lock; [exact Hm|exact Hl|].
  by eapply iterationOrder_elem.
Qed.

Lemma syncLoop_frame env order :
  forall db w db' r w',
    syncLoop env order db w = Ret (db', r) w' ->
    (cfg db' = cfg db /\ index db' = index db /\ strIndex db' = strIndex db
     /\ hashIndex db' = hashIndex db /\ listIndex db' = listIndex db
     /\ fidsMap db' = fidsMap db /\ archivedLogFile db' = archivedLogFile db
     /\ forall t, lf <$> activeLogFileMap db' !! t = lf <$> activeLogFileMap db !! t)
    /\ wExists w' = wExists w /\ wDir w' = wDir w /\ wLog w' = wLog w
    /\ exists reached rest,
         order = reached ++ rest
         /\ wSynced w' = wSynced w ++ syncedOf db reached
         /\ (r = None -> rest = []).
Proof using Type.
  induction order as [|t order IH]; intros db w db' r w' H.
  - simpl in H. unfold_M. injection H as <- <- <-.
    split; [done|]. do 3 (split; [done|]). exists [], [].
    unfold syncedOf. simpl. by rewrite app_nil_r.
  - destruct (activeLogFileMap db !! t) as [m|] eqn:Hm.
    + cbn [syncLoop] in H. rewrite Hm in H.
      destruct (locked m) eqn:Hl; [discriminate|].
      unfold mbind, M_bind, bind, logfileSync in H.
      destruct (envSync env (lf m)) as [e0|].
      * unfold ret in H. injection H as <- <- <-. simpl.
        split.
        { do 7 (split; [done|]). intros t'. rewrite lookup_insert.
          destruct (decide (t = t')) as [<-|]; [by rewrite Hm|done]. }
        do 3 (split; [done|]). exists [t], order.
        split; [done|]. split; [|done].
        by rewrite (syncedOf_cons_Some _ _ m).
      * rewrite relock_id in H by eauto.
        apply IH in H as (Hdb & He & Hd & Hlg & reached & rest & -> & Hs & Hr).
        split; [done|]. simpl in *. do 3 (split; [done|]).
        exists (t :: reached), rest. split; [done|]. split; [|done].
        rewrite Hs, (syncedOf_cons_Some _ _ m) by done.
        by rewrite <- app_assoc.
    + cbn [syncLoop] in H. rewrite Hm in H.
      apply IH in H as (Hdb & He & Hd & Hlg & reached & rest & -> & Hs & Hr).
      split; [done|]. do 3 (split; [done|]).
      exists (t :: reached), rest. split; [done|]. split; [|done].
      by rewrite (syncedOf_cons_None _ _ _ Hm).
Qed.

(** X2.  Whenever Sync returns, with nil or with an error, it has touched
    nothing but the locks: the configuration, the indexes, the registries
    and the archived maps are as they were, every category has the active
    segment it had, and the directory and the log are unchanged.  The
    segments it called Sync on are active segments, those of the keys the
    iteration had reached, in that order; no archived segment is synced. *)
Theorem Sync_touches_only_locks (env : Env) (order : list Z)
    (db db' : LazyDB) (w w' : World) (r : option error) :
  Sync env order db w = Ret (db', r) w' ->
  (cfg db' = cfg db /\ index db' = index db /\ strIndex db' = strIndex db
   /\ hashIndex db' = hashIndex db /\ listIndex db' = listIndex db
   /\ fidsMap db' = fidsMap db /\ archivedLogFile db' = archivedLogFile db
   /\ forall t, lf <$> activeLogFileMap db' !! t = lf <$> activeLogFileMap db !! t)
  /\ wExists w' = wExists w /\ wDir w' = wDir w /\ wLog w' = wLog w
  /\ exists reached rest,
       order = reached ++ rest
       /\ wSynced w' = wSynced w ++ syncedOf db reached
       /\ (r = None -> rest = []).
Proof using Type.
  apply syncLoop_frame.
Qed.

(** ** Recovery leaves the configuration and the indexes alone *)

Lemma sameIndexes_refl db : sameIndexes db db.
Proof using Type. by repeat split. Qed.

Lemma sameIndexes_trans db1 db2 db3 :
  sameIndexes db1 db2 -> sameIndexes db2 db3 -> sameIndexes db1 db3.
Proof using Type.
  intros (A1 & A2 & A3 & A4 & A5) (B1 & B2 & B3 & B4 & B5).
  repeat split; congruence.
Qed.

Lemma scanEntry_indexes name db w db' w' :
  scanEntry name db w = Ret db' w' -> sameIndexes db db'.
Proof.
  unfold scanEntry. destruct (negb _).
  { unfold_M. intros [= <- _]. apply sameIndexes_refl. }
  destruct (SplitDot name) as [|a [|b [|c [|? ?]]]];
    try (unfold_M; intros [= <- _]; apply sameIndexes_refl).
  destruct (Atoi c); [|unfold_M; intros [= <- _]; apply sameIndexes_refl].
  destruct (fidsMap db !! uint8 _); unfold_M; [|done].
  intros [= <- _]. by repeat split.
Qed.

Lemma scanDir_indexes names :
  forall db w db' w', scanDir names db w = Ret db' w' -> sameIndexes db db'.
Proof.
  induction names as [|n names IH]; intros db w db' w' H; simpl in H.
  - unfold_M. injection H as <- _. apply sameIndexes_refl.
  - apply bind_Ret in H as (db1 & w1 & H1 & H2).
    eapply sameIndexes_trans; [by eapply scanEntry_indexes|by eapply IH].
Qed.

Lemma openLoop_indexes env typ fids :
  forall n i db w db' w',
    openLoop env typ n i fids db w = Ret db' w' -> sameIndexes db db'.
Proof.
  induction fids as [|f rest IH]; intros n i db w db' w' H; simpl in H.
  - unfold_M. injection H as <- _. apply sameIndexes_refl.
  - apply bind_Ret in H as (r & w1 & Ho & H).
    destruct r as [h|e]; [|discriminate].
    destruct (Nat.eqb i (n - 1)).
    + apply IH in H. destruct H as (A1 & A2 & A3 & A4 & A5). by repeat split.
    + destruct (archivedLogFile db !! typ); [|discriminate].
      apply IH in H. destruct H as (A1 & A2 & A3 & A4 & A5). by repeat split.
Qed.

Lemma build_indexes env typ db w db' w' :
  build env typ db w = Ret db' w' -> sameIndexes db db'.
Proof.
  unfold build. destruct (fidsMap db !! typ) as [[|f0 fids0]|]; [| |done].
  - unfold_M. intros [= <- _]. apply sameIndexes_refl.
  - intros H. apply openLoop_indexes in H.
    destruct H as (A1 & A2 & A3 & A4 & A5). by repeat split.
Qed.

Lemma buildFrom_indexes env n :
  forall t db w db' w',
    buildFrom env t n db w = Ret db' w' -> sameIndexes db db'.
Proof.
  induction n as [|n IH]; intros t db w db' w' H; simpl in H.
  - unfold_M. injection H as <- _. apply sameIndexes_refl.
  - apply bind_Ret in H as (db1 & w1 & H1 & H2).
    eapply sameIndexes_trans; [by eapply build_indexes|by eapply IH].
Qed.

Lemma buildLogFiles_indexes env db w db' r w' :
  buildLogFiles env db w = Ret (db', r) w' -> sameIndexes db db'.
Proof.
  unfold buildLogFiles. intros H.
  apply bind_Ret in H as (l & w0 & _ & H). destruct l as [names|e].
  - apply bind_Ret in H as (db1 & w1 & H1 & H).
    apply bind_Ret in H as (db2 & w2 & H2 & H).
    unfold_M. injection H as <- _ _.
    eapply sameIndexes_trans; [by eapply scanDir_indexes|by eapply buildFrom_indexes].
  - unfold_M. injection H as <- _ _. apply sameIndexes_refl.
Qed.

(** X3.  The engine Open returns has the configuration it was given and
    empty indexes, whatever segments the directory holds: Open recovers
    the segments only, the rebuilding of the indexes is commented out. *)
Theorem Open_returns_empty_indexes (env : Env) (c : DBConfig)
    (w w' : World) (db : LazyDB) (e : option error) :
  Open env c w = Ret (Some db, e) w' ->
  cfg db = c /\ index db = ∅ /\ strIndex db = ∅ /\ hashIndex db = ∅
  /\ listIndex db = ∅.
Proof.
  intros H. apply Open_Ret in H as (db0 & w0 & [= <-] & _ & _ & H).
  by apply buildLogFiles_indexes in H as (-> & -> & -> & -> & ->).
Qed.

(** ** Recovery of an engine that is not fresh *)

(** X4.  buildLogFiles adds to the registries, it does not reset them: run
    on an engine whose registry of a category holds [fids], it leaves the
    registry with [fids] and the discovered fids together, sorted; the
    last of them is active, the ones before it are archived and the
    entries the archived map had under other fids stay.  Run twice, it
    enters every fid twice. *)
Theorem buildLogFiles_adds_to_the_registry (env : Env) (db db' : LazyDB)
    (w w' : World) (typ : Z) (fids : list Z) (a : gmap Z MutexLogFile) :
  buildLogFiles env db w = Ret (db', None) w' ->
  (forall t, isCategory t -> is_Some (archivedLogFile db !! t)) ->
  isCategory typ ->
  fidsMap db !! typ = Some fids ->
  archivedLogFile db !! typ = Some a ->
  let all := fids ++ discovered typ (map fst (wDir w)) in
  fidsMap db' !! typ = Some (sortFids all)
  /\ ((all = [] /\ activeLogFileMap db' !! typ = activeLogFileMap db !! typ
       /\ archivedLogFile db' !! typ = Some a)
      \/ exists init m a',
           sortFids all = init ++ [m]
           /\ activeLogFileMap db' !! typ = Some (recovered typ m)
           /\ archivedLogFile db' !! typ = Some a'
           /\ forall f, a' !! f = if decide (f ∈ init)
                                  then Some (recovered typ f) else a !! f).
Proof.
  intros H Hsome Hc Hf Ha all.
  destruct (envReadDir env) as [e|] eqn:Erd.
  { by rewrite (buildLogFiles_ReadDir_error _ _ _ e) in H. }
  destruct (wExists w) eqn:Hex.
  2: { by rewrite (buildLogFiles_no_directory _ _ _ Erd) in H. }
  rewrite (buildLogFiles_listing _ _ _ Erd) in H by done.
  apply bind_Ret in H as (db1 & w1 & Hscan & H).
  apply bind_Ret in H as (db2 & w2 & Hbuild & H).
  unfold_M. injection H as <- _.
  apply scanDir_Ret in Hscan as (Hact1 & Harch1 & Hf1).
  eapply buildFrom_Ret in Hbuild.
  2: { intros t Ht. rewrite Harch1. by apply Hsome. }
  destruct Hbuild as (Hin & _).
  destruct (Hin Hc) as (fids1 & a1 & Hfa & Haa & Hreg & Hrest).
  rewrite Hf1, Hf in Hfa. simpl in Hfa. injection Hfa as <-.
  rewrite Harch1, Ha in Haa. injection Haa as <-.
  split; [done|].
  destruct Hrest as [(Hnil & Hact & Harch)|(init & m & Hs & Hact & Harch)].
  - left. by rewrite Hact, Hact1.
  - right. exists init, m, (archiveAll typ init a). do 3 (split; [done|]).
    intros f. apply archiveAll_lookup.
Qed.

(** ** The order of the fids after recovery *)

(** X5.  After buildLogFiles on a fresh engine no archived fid is larger
    than the active fid of its category, and a category has archived
    segments only if it has an active one. *)
Theorem archived_fids_never_exceed_the_active_fid (env : Env) (c : DBConfig)
    (w w' : World) (db' : LazyDB) (typ f : Z) (a : gmap Z MutexLogFile)
    (m : MutexLogFile) :
  buildLogFiles env (newLazyDB c) w = Ret (db', None) w' ->
  archivedLogFile db' !! typ = Some a ->
  a !! f = Some m ->
  Fid (lf m) = f
  /\ exists act, activeLogFileMap db' !! typ = Some act /\ f <= Fid (lf act).
Proof.
  intros H Ha Hm.
  destruct (decide (isCategory typ)) as [Hc|Hc].
  2: { destruct (recovery_other _ _ _ _ _ typ H Hc) as (_ & _ & Hnone & _).
       congruence. }
  destruct (recovery_category _ _ _ _ _ typ H Hc) as (_ & Hrest).
  destruct Hrest as [(_ & _ & Harch)|(init & mx & Hs & Hact & Harch)].
  - rewrite Harch in Ha. injection Ha as <-. by rewrite lookup_empty in Hm.
  - rewrite Harch in Ha. injection Ha as <-.
    rewrite archiveAll_lookup, lookup_empty in Hm.
    destruct (decide (f ∈ init)) as [Hin|]; [|done]. injection Hm as <-.
    split; [done|]. exists (recovered typ mx). split; [done|]. simpl.
    apply (sorted_snoc_max init mx).
    + rewrite <- Hs. apply sortFids_sorted.
    + rewrite elem_of_app. by left.
Qed.

(** ** What a well-formed name adds *)

Lemma recovery_registers env c w w' db' typ f :
  buildLogFiles env (newLazyDB c) w = Ret (db', None) w' ->
  f ∈ discovered typ (map fst (wDir w)) ->
  isCategory typ
  /\ (exists fids, fidsMap db' !! typ = Some fids /\ f ∈ fids)
  /\ ((exists act, activeLogFileMap db' !! typ = Some act /\ Fid (lf act) = f)
      \/ exists arch, archivedLogFile db' !! typ = Some arch
                      /\ arch !! f = Some (recovered typ f)).
Proof.
  intros H Hin.
  assert (Hc : isCategory typ).
  { destruct (decide (isCategory typ)) as [Hc|Hc]; [done|].
    destruct (recovery_other _ _ _ _ _ typ H Hc) as (_ & _ & _ & HD).
    rewrite HD in Hin. by apply elem_of_nil in Hin. }
  split; [done|].
  destruct (recovery_category _ _ _ _ _ typ H Hc) as (Hreg & Hrest).
  split. { eexists. split; [done|]. by rewrite (sortFids_perm _). }
  destruct Hrest as [(Hnil & _)|(init & m & Hs & Hact & Harch)].
  { rewrite Hnil in Hin. by apply elem_of_nil in Hin. }
  rewrite <- (sortFids_perm _), Hs, elem_of_app, list_elem_of_singleton in Hin.
  destruct Hin as [Hin| ->].
  - right. eexists. split; [done|].
    by rewrite archiveAll_lookup, decide_True.
  - left. by eexists.
Qed.

(** X6.  A name with the prefix and three fields whose last field Atoi
    reads as the number [n] is taken for a segment of the category that
    the table gives for its middle field, with the fid [n mod 2^32]: so a
    negative number or one of more than 32 bits is accepted and wraps, and
    a middle field that is not in the table counts as the string category.
    When recovery returns, that fid is in the registry of that category and
    its segment is the active one or an archived one. *)
Theorem well_formed_name_is_registered (env : Env) (c : DBConfig)
    (w w' : World) (db' : LazyDB) (name a b fld : string) (n : Z) :
  buildLogFiles env (newLazyDB c) w = Ret (db', None) w' ->
  name ∈ map fst (wDir w) ->
  HasPrefix name FilePrefix = true ->
  SplitDot name = [a; b; fld] ->
  Atoi fld = Some n ->
  let typ := uint8 (default 0 (FileTypesMap !! b)) in
  let f := n mod 4294967296 in
  isCategory typ
  /\ (FileTypesMap !! b = None -> typ = valueTypeString)
  /\ 0 <= f < 4294967296
  /\ (exists fids, fidsMap db' !! typ = Some fids /\ f ∈ fids)
  /\ ((exists act, activeLogFileMap db' !! typ = Some act /\ Fid (lf act) = f)
      \/ exists arch, archivedLogFile db' !! typ = Some arch
                      /\ arch !! f = Some (recovered typ f)).
Proof.
  intros H Hin Hpre Hsplit Hatoi typ f.
  assert (Hp : parseName name = Some (typ, f)).
  { unfold parseName. by rewrite Hpre, Hsplit, Hatoi. }
  assert (Hd : f ∈ discovered typ (map fst (wDir w))).
  { apply discovered_elem. eauto. }
  destruct (recovery_registers _ _ _ _ _ _ _ H Hd) as (Hc & Hreg & Hseg).
  split; [done|]. split; [by intros Hnone; unfold typ; rewrite Hnone|].
  split; [by eapply parseName_range|]. done.
Qed.

(** ** When Open returns and when it exits *)

Lemma openLoop_exits env typ fids f e :
  f ∈ fids -> envOpen env typ f = Some e ->
  forall n i db w,
    is_Some (archivedLogFile db !! typ) ->
    openLoop env typ n i fids db w = Exit.
Proof.
  intros Hin Hfail. induction fids as [|h rest IH]; intros n i db w Ha.
  { by apply elem_of_nil in Hin. }
  simpl. unfold mbind, M_bind, bind, logfileOpen.
  destruct (envOpen env typ h) as [e'|] eqn:Eh; [done|].
  apply elem_of_cons in Hin as [->|Hin]; [congruence|].
  destruct (Nat.eqb i (n - 1)); [by apply IH|].
  destruct Ha as [a Ha]. rewrite Ha. apply IH; [done|].
  simpl. by rewrite lookup_insert_eq.
Qed.

Lemma openLoop_returns_or_exits env typ fids :
  forall n i db w,
    is_Some (archivedLogFile db !! typ) ->
    (exists db' w', openLoop env typ n i fids db w = Ret db' w')
    \/ openLoop env typ n i fids db w = Exit.
Proof.
  induction fids as [|h rest IH]; intros n i db w Ha; simpl.
  { left. by eexists _, _. }
  unfold mbind, M_bind, bind, logfileOpen.
  destruct (envOpen env typ h) as [e'|]; [by right|].
  destruct (Nat.eqb i (n - 1)); [by apply IH|].
  destruct Ha as [a Ha]. rewrite Ha. apply IH. simpl.
  by rewrite lookup_insert_eq.
Qed.

Lemma build_returns_or_exits env typ db w :
  is_Some (fidsMap db !! typ) -> is_Some (archivedLogFile db !! typ) ->
  (exists db' w', build env typ db w = Ret db' w')
  \/ build env typ db w = Exit.
Proof.
  intros [fids Hf] Ha. unfold build. rewrite Hf.
  destruct fids as [|f0 fids0]; [left; by eexists _, _|].
  by apply openLoop_returns_or_exits.
Qed.

Lemma build_exits env typ db w fids f e :
  fidsMap db !! typ = Some fids -> is_Some (archivedLogFile db !! typ) ->
  f ∈ fids -> envOpen env typ f = Some e ->
  build env typ db w = Exit.
Proof.
  intros Hf Ha Hin Hfail. unfold build. rewrite Hf.
  destruct fids as [|f0 fids0]; [by apply elem_of_nil in Hin|].
  eapply openLoop_exits; [|exact Hfail|done].
  by rewrite (sortFids_perm (f0 :: fids0)).
Qed.

Lemma buildFrom_exits env typ fids f e n :
  f ∈ fids -> envOpen env typ f = Some e ->
  forall t db w,
    (forall typ', t <= typ' < t + Z.of_nat n ->
       is_Some (fidsMap db !! typ') /\ is_Some (archivedLogFile db !! typ')) ->
    t <= typ < t + Z.of_nat n ->
    fidsMap db !! typ = Some fids ->
    buildFrom env t n db w = Exit.
Proof.
  intros Hin Hfail. induction n as [|n IH]; intros t db w H Hr Hf; [lia|].
  simpl. destruct (H t ltac:(lia)) as (Hft & Hat).
  destruct (decide (t = typ)) as [->|Hne].
  { unfold mbind, M_bind, bind.
    by rewrite (build_exits env typ db w fids f e Hf Hat Hin Hfail). }
  destruct (build_returns_or_exits env t db w Hft Hat) as [(db1 & w1 & E)|E].
  2: { unfold mbind, M_bind, bind. by rewrite E. }
  rewrite (bind_eq _ _ _ _ _ E). destruct Hat as [a Ha].
  destruct (build_Ret _ _ _ _ _ _ a E Ha) as (_ & Hothers).
  apply IH; [|lia|].
  - intros typ' Hr'. destruct (Hothers typ' ltac:(lia)) as (-> & _ & ->).
    apply H. lia.
  - destruct (Hothers typ ltac:(done)) as (-> & _). done.
Qed.

Lemma openLoop_returns_discovered env typ fids :
  (forall f, f ∈ fids -> envOpen env typ f = None) ->
  forall n i db w,
    is_Some (archivedLogFile db !! typ) ->
    exists db' w', openLoop env typ n i fids db w = Ret db' w'.
Proof.
  induction fids as [|h rest IH]; intros Hopen n i db w Ha; simpl.
  - by eexists _, _.
  - unfold mbind, M_bind, bind, logfileOpen.
    rewrite Hopen by (apply elem_of_cons; by left).
    assert (Hrest : forall f, f ∈ rest -> envOpen env typ f = None)
      by (intros f Hin; apply Hopen, elem_of_cons; by right).
    destruct (Nat.eqb i (n - 1)); [by apply IH|].
    destruct Ha as [a Ha]. rewrite Ha. apply IH; [done|]. simpl.
    by rewrite lookup_insert_eq.
Qed.

Lemma build_returns_discovered env typ db w fids :
  fidsMap db !! typ = Some fids -> is_Some (archivedLogFile db !! typ) ->
  (forall f, f ∈ fids -> envOpen env typ f = None) ->
  exists db' w', build env typ db w = Ret db' w'.
Proof.
  intros Hf Ha Hopen. unfold build. rewrite Hf.
  destruct fids as [|f0 fids0]; [by eexists _, _|].
  apply openLoop_returns_discovered; [|done].
  intros f Hin. apply Hopen. by rewrite <- (sortFids_perm (f0 :: fids0)).
Qed.

Lemma buildFrom_returns_discovered env n :
  forall t db w,
    (forall typ, t <= typ < t + Z.of_nat n ->
       is_Some (archivedLogFile db !! typ)
       /\ exists fids, fidsMap db !! typ = Some fids
                       /\ forall f, f ∈ fids -> envOpen env typ f = None) ->
    exists db' w', buildFrom env t n db w = Ret db' w'.
Proof.
  induction n as [|n IH]; intros t db w H; simpl.
  - by eexists _, _.
  - destruct (H t ltac:(lia)) as (Ha & fids & Hf & Hopen).
    destruct (build_returns_discovered env t db w fids Hf Ha Hopen)
      as (db1 & w1 & E).
    rewrite (bind_eq _ _ _ _ _ E). apply IH. intros typ Hr.
    destruct Ha as [a Ha].
    destruct (build_Ret _ _ _ _ _ _ a E Ha) as (_ & Hothers).
    destruct (Hothers typ ltac:(lia)) as (-> & _ & ->). apply H. lia.
Qed.

Lemma scanEntry_panics name db w t f :
  parseName name = Some (t, f) -> fidsMap db !! t = None ->
  scanEntry name db w = Panic.
Proof.
  unfold parseName, scanEntry.
  destruct (HasPrefix name FilePrefix); [|done]. simpl.
  destruct (SplitDot name) as [|a [|b [|c [|? ?]]]]; try done.
  destruct (Atoi c); [|done]. intros [= <- _] ->. done.
Qed.

Lemma scanEntry_returns_or_panics name db w :
  (exists db' w', scanEntry name db w = Ret db' w')
  \/ scanEntry name db w = Panic.
Proof.
  unfold scanEntry. destruct (negb _); [left; by eexists _, _|].
  destruct (SplitDot name) as [|a [|b [|c [|? ?]]]];
    try (left; by eexists _, _).
  destruct (Atoi c); [|left; by eexists _, _].
  destruct (fidsMap db !! uint8 _); [left; by eexists _, _|by right].
Qed.

Lemma scanDir_panics names :
  forall db w n t f,
    n ∈ names -> parseName n = Some (t, f) -> fidsMap db !! t = None ->
    scanDir names db w = Panic.
Proof.
  induction names as [|h names IH]; intros db w n t f Hin Hp Hnone.
  { by apply elem_of_nil in Hin. }
  simpl. destruct (scanEntry_returns_or_panics h db w) as [(db1 & w1 & E)|E].
  2: { unfold mbind, M_bind, bind. by rewrite E. }
  rewrite (bind_eq _ _ _ _ _ E).
  apply elem_of_cons in Hin as [->|Hin].
  { by rewrite (scanEntry_panics _ _ _ _ _ Hp Hnone) in E. }
  apply (IH db1 w1 n t f Hin Hp).
  apply scanEntry_Ret in E as (_ & _ & Hf). by rewrite Hf, Hnone.
Qed.

Lemma fresh_scan_returns c names w :
  scans names -> exists db1 w1, scanDir names (newLazyDB c) w = Ret db1 w1.
Proof.
  intros Hs. apply scanDir_returns. intros n t f Hin Hp.
  destruct (newLazyDB_category c t (Hs n t f Hin Hp)) as (-> & _). done.
Qed.

Lemma buildLogFiles_returns_discovered env c w :
  envReadDir env = None -> wExists w = true ->
  scans (map fst (wDir w)) -> opensDiscovered env (map fst (wDir w)) ->
  exists db w', buildLogFiles env (newLazyDB c) w = Ret (db, None) w'.
Proof.
  intros Hrd Hex Hs Hopen. rewrite (buildLogFiles_listing _ _ _ Hrd Hex).
  destruct (fresh_scan_returns c _ w Hs) as (db1 & w1 & E).
  rewrite (bind_eq _ _ _ _ _ E).
  apply scanDir_Ret in E as (_ & Hr & Hf).
  destruct (buildFrom_returns_discovered env logFileTypeNum 0 db1 w1)
    as (db2 & w2 & E2).
  { intros typ Ht. rewrite Hf, Hr.
    destruct (newLazyDB_category c typ) as (-> & _ & ->); [exact Ht|].
    split; [done|]. eexists. split; [done|]. intros f Hin. by apply Hopen. }
  rewrite (bind_eq _ _ _ _ _ E2). by eexists _, _.
Qed.

Lemma buildLogFiles_exits env c w typ f e :
  envReadDir env = None -> wExists w = true ->
  scans (map fst (wDir w)) ->
  f ∈ discovered typ (map fst (wDir w)) -> envOpen env typ f = Some e ->
  buildLogFiles env (newLazyDB c) w = Exit.
Proof.
  intros Hrd Hex Hs Hin Hfail. rewrite (buildLogFiles_listing _ _ _ Hrd Hex).
  destruct (fresh_scan_returns c _ w Hs) as (db1 & w1 & E).
  rewrite (bind_eq _ _ _ _ _ E).
  apply scanDir_Ret in E as (_ & Hr & Hf).
  assert (Hc : isCategory typ).
  { apply discovered_elem in Hin as (n & Hn & Hp). by eapply Hs. }
  unfold mbind, M_bind, bind.
  rewrite (buildFrom_exits env typ (discovered typ (map fst (wDir w))) f e
             logFileTypeNum Hin Hfail 0 db1 w1); [done| |exact Hc|].
  - intros typ' Ht. rewrite Hf, Hr.
    destruct (newLazyDB_category c typ') as (-> & _ & ->); [exact Ht|done].
  - rewrite Hf. destruct (newLazyDB_category c typ Hc) as (-> & _). done.
Qed.

Lemma buildLogFiles_panics env c w n t f :
  envReadDir env = None -> wExists w = true ->
  n ∈ map fst (wDir w) -> parseName n = Some (t, f) -> ~ isCategory t ->
  buildLogFiles env (newLazyDB c) w = Panic.
Proof.
  intros Hrd Hex Hin Hp Hc. rewrite (buildLogFiles_listing _ _ _ Hrd Hex).
  unfold mbind, M_bind, bind.
  rewrite (scanDir_panics _ (newLazyDB c) w n t f Hin Hp); [done|].
  by destruct (newLazyDB_other c t Hc).
Qed.

(** Open up to the call of buildLogFiles: the directory is there or is
    made. *)
Lemma Open_after_mkdir env c w :
  wExists w = true \/ envMkdirAll env = None ->
  exists w0, wExists w0 = true /\ wDir w0 = wDir w
    /\ Open env c w
       = (buildLogFiles env (newLazyDB c) ≫= fun r =>
            match r with
            | (_, Some _) => Fatalf
            | (db, None) => ret (Some db, None)
            end) w0.
Proof.
  intros H. unfold Open.
  unfold mbind at 1, M_bind at 1, bind at 1, PathExist.
  destruct (wExists w) eqn:Hex; simpl negb.
  - exists w. by rewrite Hex.
  - destruct H as [|Hmk]; [done|].
    unfold mbind at 1, M_bind at 1, bind at 1, MkdirAll. rewrite Hmk.
    by eexists (mkWorld true _ _ _).
Qed.

(** X7.  Open returns in exactly one situation: the directory is there or
    can be made, it can be read, every name the scan reads a fid off has
    one of the five categories, and every discovered segment can be
    opened. *)
Theorem Open_returns_exactly_when (env : Env) (c : DBConfig) (w : World) :
  (exists db w', Open env c w = Ret (Some db, None) w')
  <-> (wExists w = true \/ envMkdirAll env = None)
      /\ envReadDir env = None
      /\ scans (map fst (wDir w))
      /\ opensDiscovered env (map fst (wDir w)).
Proof.
  split.
  - intros (db & w' & H).
    assert (Hmk : wExists w = true \/ envMkdirAll env = None).
    { destruct (wExists w) eqn:Hex; [by left|right].
      destruct (envMkdirAll env) as [e|] eqn:Hm; [|done].
      unfold Open, mbind, M_bind, bind, PathExist, MkdirAll in H.
      by rewrite Hex, Hm in H. }
    split; [done|].
    apply Open_Ret in H as (? & w0 & [= <-] & _ & Hd & H).
    assert (Hrd : envReadDir env = None).
    { destruct (envReadDir env) as [e|] eqn:Erd; [|done].
      by rewrite (buildLogFiles_ReadDir_error _ _ _ e) in H. }
    assert (Hex : wExists w0 = true).
    { destruct (wExists w0) eqn:E; [done|].
      by rewrite (buildLogFiles_no_directory _ _ _ Hrd) in H. }
    split; [done|]. rewrite <- Hd.
    assert (Hs : scans (map fst (wDir w0))).
    { intros n t f Hin Hp.
      destruct (decide (isCategory t)) as [Hc|Hc]; [done|].
      by rewrite (buildLogFiles_panics _ _ _ n t f Hrd Hex Hin Hp Hc) in H. }
    split; [done|]. intros typ f Hin.
    destruct (envOpen env typ f) as [e|] eqn:Ef; [|done].
    by rewrite (buildLogFiles_exits _ _ _ typ f e Hrd Hex Hs Hin Ef) in H.
  - intros (Hmk & Hrd & Hs & Hopen).
    destruct (Open_after_mkdir env c w Hmk) as (w0 & Hex & Hd & ->).
    rewrite <- Hd in Hs, Hopen.
    destruct (buildLogFiles_returns_discovered env c w0 Hrd Hex Hs Hopen)
      as (db & w' & E).
    rewrite (bind_eq _ _ _ _ _ E). by eexists _, _.
Qed.

(** X8.  The ways Open does not return.  It exits the process when the
    directory is missing and cannot be made, when the directory cannot be
    read, and when one discovered segment, any of them, cannot be opened;
    it panics on a nil registry when the scan reads a fid off a name whose
    category is none of the five. *)
Theorem Open_exits_or_panics (env : Env) (c : DBConfig) (w : World) :
  (wExists w = false -> is_Some (envMkdirAll env) -> Open env c w = Exit)
  /\ (wExists w = true \/ envMkdirAll env = None ->
      (is_Some (envReadDir env) -> Open env c w = Exit)
      /\ (envReadDir env = None ->
          (forall n t f, n ∈ map fst (wDir w) -> parseName n = Some (t, f) ->
                         ~ isCategory t -> Open env c w = Panic)
          /\ (scans (map fst (wDir w)) ->
              forall typ f, f ∈ discovered typ (map fst (wDir w)) ->
                            is_Some (envOpen env typ f) ->
                            Open env c w = Exit))).
Proof.
  split.
  - intros Hex [e He].
    unfold Open, mbind, M_bind, bind, PathExist, MkdirAll.
    by rewrite Hex, He.
  - intros Hmk. destruct (Open_after_mkdir env c w Hmk) as (w0 & Hex & Hd & ->).
    rewrite <- Hd. split.
    + intros [e He]. unfold mbind, M_bind, bind.
      by rewrite (buildLogFiles_ReadDir_error _ _ _ e).
    + intros Hrd. split.
      * intros n t f Hin Hp Hc. unfold mbind, M_bind, bind.
        by rewrite (buildLogFiles_panics _ _ _ n t f Hrd Hex Hin Hp Hc).
      * intros Hs typ f Hin [e He]. unfold mbind, M_bind, bind.
        by rewrite (buildLogFiles_exits _ _ _ typ f e Hrd Hex Hs Hin He).
Qed.

(** ** Sync after Open *)

Lemma recovered_active env c w db' w' typ mlf :
  buildLogFiles env (newLazyDB c) w = Ret (db', None) w' ->
  activeLogFileMap db' !! typ = Some mlf ->
  isCategory typ
  /\ exists init m,
       sortFids (discovered typ (map fst (wDir w))) = init ++ [m]
       /\ mlf = recovered typ m.
Proof.
  intros H Hm. destruct (decide (isCategory typ)) as [Hc|Hc].
  - split; [done|].
    destruct (recovery_category _ _ _ _ _ typ H Hc) as (_ & Hrest).
    destruct Hrest as [(_ & Hact & _)|(init & m & Hs & Hact & _)];
      [congruence|].
    exists init, m. split; [done|]. congruence.
  - destruct (recovery_other _ _ _ _ _ typ H Hc) as (_ & Hnone & _).
    congruence.
Qed.

(** X9.  Sync on the engine Open has just returned, with every segment
    syncing: it returns nil with the engine as it was, and the segments it
    has called Sync on are, for each category with a discovered fid, the
    segment of the largest fid, and no other. *)
Theorem Sync_after_Open (env env2 : Env) (c : DBConfig) (w w1 : World)
    (db : LazyDB) (order : list Z) :
  Open env c w = Ret (Some db, None) w1 ->
  iterationOrder order db ->
  (forall f, envSync env2 f = None) ->
  Sync env2 order db w1 = Ret (db, None) (addSynced (syncedOf db order) w1)
  /\ forall h,
       h ∈ syncedOf db order
       <-> exists typ init m,
             isCategory typ
             /\ sortFids (discovered typ (map fst (wDir w))) = init ++ [m]
             /\ h = mkLogFile m typ.
Proof.
  intros H Hord Hsync.
  apply Open_Ret in H as (? & w0 & [= <-] & _ & Hd & H). rewrite <- Hd.
  split.
  - apply syncLoop_all_succeed; [|by intros].
    intros t m Hm.
    destruct (recovered_active _ _ _ _ _ _ _ H Hm) as (_ & init & mx & _ & ->).
    done.
  - intros h. unfold syncedOf. rewrite list_elem_of_omap. split.
    + intros (t & _ & Hl).
      destruct (activeLogFileMap db !! t) as [mlf|] eqn:Hm; [|done].
      injection Hl as <-.
      destruct (recovered_active _ _ _ _ _ _ _ H Hm)
        as (Hc & init & mx & Hs & ->).
      by exists t, init, mx.
    + intros (typ & init & m & Hc & Hs & ->).
      destruct (recovery_category _ _ _ _ _ typ H Hc) as (_ & Hrest).
      destruct Hrest as [(Hnil & _)|(init' & m' & Hs' & Hact & _)].
      { rewrite Hnil in Hs. by destruct init. }
      rewrite Hs in Hs'. apply app_inj_tail in Hs' as (_ & <-).
      exists typ. split; [by eapply iterationOrder_elem|]. by rewrite Hact.
Qed.

(** ** The order of the listing *)

Lemma sortFids_Permutation l1 l2 : l1 ≡ₚ l2 -> sortFids l1 = sortFids l2.
Proof using Type.
  intros H. apply (StronglySorted_unique_strong Z.le).
  - intros x1 x2 _ _ ? ?. lia.
  - apply sortFids_sorted.
  - apply sortFids_sorted.
  - by rewrite !sortFids_perm.
Qed.

Lemma discovered_Permutation typ names1 names2 :
  names1 ≡ₚ names2 -> discovered typ names1 ≡ₚ discovered typ names2.
Proof.
  induction 1 as [|n l1 l2 _ IH|x y l|l1 l2 l3 _ IH1 _ IH2].
  - done.
  - rewrite (discovered_cons typ n l1), (discovered_cons typ n l2). by rewrite IH.
  - rewrite (discovered_cons typ y (x :: l)), (discovered_cons typ x l),
      (discovered_cons typ x (y :: l)), (discovered_cons typ y l).
    rewrite !app_assoc. f_equiv. apply Permutation_app_comm.
  - by etrans.
Qed.

Lemma scans_cases names :
  scans names
  \/ exists n t f, n ∈ names /\ parseName n = Some (t, f) /\ ~ isCategory t.
Proof.
  induction names as [|n names [IH|(n' & t & f & Hin & Hp & Hc)]].
  - left. intros n t f Hin. by apply elem_of_nil in Hin.
  - destruct (parseName n) as [[t f]|] eqn:E.
    + destruct (decide (isCategory t)) as [Hc|Hc].
      * left. intros n' t' f' Hin Hp. rewrite elem_of_cons in Hin.
        destruct Hin as [->|Hin]; [|by eapply IH].
        rewrite E in Hp. by injection Hp as <- _.
      * right. exists n, t, f. split; [apply elem_of_cons; by left|done].
    + left. intros n' t' f' Hin Hp. rewrite elem_of_cons in Hin.
      destruct Hin as [->|Hin]; [|by eapply IH]. by rewrite E in Hp.
  - right. exists n', t, f. split; [apply elem_of_cons; by right|done].
Qed.

Lemma opens_cases env names :
  opensDiscovered env names
  \/ exists typ f e, f ∈ discovered typ names /\ envOpen env typ f = Some e.
Proof.
  induction names as [|n names [IH|(typ & f & e & Hin & He)]].
  - left. intros typ f Hin. by apply elem_of_nil in Hin.
  - destruct (parseName n) as [[t f]|] eqn:E.
    + destruct (envOpen env t f) as [e|] eqn:Ef.
      * right. exists t, f, e. split; [|done]. apply discovered_elem.
        exists n. split; [apply elem_of_cons; by left|done].
      * left. intros typ f' Hin.
        apply discovered_elem in Hin as (n' & Hin & Hp).
        rewrite elem_of_cons in Hin. destruct Hin as [->|Hin].
        -- rewrite E in Hp. by injection Hp as <- <-.
        -- apply IH. apply discovered_elem. by exists n'.
    + left. intros typ f' Hin.
      apply discovered_elem in Hin as (n' & Hin & Hp).
      rewrite elem_of_cons in Hin. destruct Hin as [->|Hin].
      * by rewrite E in Hp.
      * apply IH. apply discovered_elem. by exists n'.
  - right. exists typ, f, e. split; [|done].
    apply discovered_elem in Hin as (n' & Hin & Hp). apply discovered_elem.
    exists n'. split; [apply elem_of_cons; by right|done].
Qed.

Lemma scans_Permutation names1 names2 :
  names1 ≡ₚ names2 -> scans names1 -> scans names2.
Proof.
  intros Hp Hs n t f Hin. apply (Hs n t f). by rewrite Hp.
Qed.

Lemma discovered_elem_Permutation typ names1 names2 f :
  names1 ≡ₚ names2 ->
  f ∈ discovered typ names1 -> f ∈ discovered typ names2.
Proof.
  intros Hp Hin. by rewrite <- (discovered_Permutation typ _ _ Hp).
Qed.

Lemma recoveredCategory_determined typ D1 D2 db1 db2 :
  D1 ≡ₚ D2 ->
  recoveredCategory typ D1 db1 -> recoveredCategory typ D2 db2 ->
  fidsMap db1 !! typ = fidsMap db2 !! typ
  /\ activeLogFileMap db1 !! typ = activeLogFileMap db2 !! typ
  /\ archivedLogFile db1 !! typ = archivedLogFile db2 !! typ.
Proof.
  intros Hp (Hf1 & Hd1) (Hf2 & Hd2).
  pose proof (sortFids_Permutation _ _ Hp) as Hs.
  rewrite Hf1, Hf2, Hs. split; [done|].
  destruct Hd1 as [(Hn1 & Ha1 & Hr1)|(i1 & m1 & Hs1 & Ha1 & Hr1)],
           Hd2 as [(Hn2 & Ha2 & Hr2)|(i2 & m2 & Hs2 & Ha2 & Hr2)].
  - by rewrite Ha1, Ha2, Hr1, Hr2.
  - rewrite <- Hs, Hn1 in Hs2. by destruct i2.
  - rewrite Hs, Hn2 in Hs1. by destruct i1.
  - rewrite Hs, Hs2 in Hs1. apply app_inj_tail in Hs1 as [-> ->].
    by rewrite Ha1, Ha2, Hr1, Hr2.
Qed.

Lemma recovery_determined env c w1 w2 db1 db2 w1' w2' :
  map fst (wDir w1) ≡ₚ map fst (wDir w2) ->
  buildLogFiles env (newLazyDB c) w1 = Ret (db1, None) w1' ->
  buildLogFiles env (newLazyDB c) w2 = Ret (db2, None) w2' ->
  db1 = db2.
Proof.
  intros Hp H1 H2.
  assert (forall typ,
    fidsMap db1 !! typ = fidsMap db2 !! typ
    /\ activeLogFileMap db1 !! typ = activeLogFileMap db2 !! typ
    /\ archivedLogFile db1 !! typ = archivedLogFile db2 !! typ) as Hl.
  { intros typ. destruct (decide (isCategory typ)) as [Hc|Hc].
    - eapply recoveredCategory_determined;
        [apply (discovered_Permutation typ _ _ Hp)
        |by eapply recovery_category|by eapply recovery_category].
    - destruct (recovery_other _ _ _ _ _ typ H1 Hc) as (-> & -> & -> & _).
      by destruct (recovery_other _ _ _ _ _ typ H2 Hc) as (-> & -> & -> & _). }
  assert (fidsMap db1 = fidsMap db2) as Hf by (apply map_eq; intros t; apply Hl).
  assert (activeLogFileMap db1 = activeLogFileMap db2) as Ha
    by (apply map_eq; intros t; apply Hl).
  assert (archivedLogFile db1 = archivedLogFile db2) as Hr
    by (apply map_eq; intros t; apply Hl).
  apply buildLogFiles_indexes in H1 as (Hc1 & Hi1 & Hs1 & Hh1 & Hli1).
  apply buildLogFiles_indexes in H2 as (Hc2 & Hi2 & Hs2 & Hh2 & Hli2).
  destruct db1, db2. simpl in *. congruence.
Qed.

Lemma recovery_ignores_the_listing_order env c u1 u2 :
  wExists u1 = true -> wExists u2 = true ->
  map fst (wDir u1) ≡ₚ map fst (wDir u2) ->
  result ((buildLogFiles env (newLazyDB c) ≫= fun r =>
             match r with
             | (_, Some _) => Fatalf
             | (db, None) => ret (Some db, None)
             end) u1)
  = result ((buildLogFiles env (newLazyDB c) ≫= fun r =>
               match r with
               | (_, Some _) => Fatalf
               | (db, None) => ret (Some db, @None error)
               end) u2).
Proof.
  intros Hu1 Hu2 Hp. unfold mbind, M_bind, bind.
  destruct (envReadDir env) as [e|] eqn:Hrd.
  { by rewrite !(buildLogFiles_ReadDir_error _ _ _ e Hrd). }
  destruct (scans_cases (map fst (wDir u1)))
    as [Hs|(n & t & f & Hin & Hpn & Hc)].
  2:{ rewrite (buildLogFiles_panics _ _ _ n t f Hrd Hu1 Hin Hpn Hc).
      rewrite Hp in Hin.
      by rewrite (buildLogFiles_panics _ _ _ n t f Hrd Hu2 Hin Hpn Hc). }
  pose proof (scans_Permutation _ _ Hp Hs) as Hs2.
  destruct (opens_cases env (map fst (wDir u1)))
    as [Ho|(typ & f & e & Hin & He)].
  2:{ rewrite (buildLogFiles_exits _ _ _ typ f e Hrd Hu1 Hs Hin He).
      apply (discovered_elem_Permutation _ _ _ _ Hp) in Hin.
      by rewrite (buildLogFiles_exits _ _ _ typ f e Hrd Hu2 Hs2 Hin He). }
  assert (Ho2 : opensDiscovered env (map fst (wDir u2))).
  { intros typ f Hin. apply Ho.
    by apply (discovered_elem_Permutation _ _ _ _ (symmetry Hp)). }
  destruct (buildLogFiles_returns_discovered env c u1 Hrd Hu1 Hs Ho)
    as (db1 & u1' & E1).
  destruct (buildLogFiles_returns_discovered env c u2 Hrd Hu2 Hs2 Ho2)
    as (db2 & u2' & E2).
  rewrite E1, E2. simpl.
  by rewrite (recovery_determined _ _ _ _ _ _ _ _ Hp E1 E2).
Qed.

(** X15.  Open does not depend on the order in which the directory is
    listed: for two directories that both exist or both do not and list the
    same names, each as often, in any order, Open ends the same way, and
    where it returns, it returns the same engine. *)
Theorem Open_ignores_the_listing_order (env : Env) (c : DBConfig)
    (w1 w2 : World) :
  wExists w1 = wExists w2 ->
  map fst (wDir w1) ≡ₚ map fst (wDir w2) ->
  result (Open env c w1) = result (Open env c w2).
Proof.
  intros Hex Hp.
  destruct (decide (wExists w1 = false /\ is_Some (envMkdirAll env)))
    as [[Hex1 [e Hmk]]|Hn].
  - unfold Open, mbind, M_bind, bind, PathExist, MkdirAll.
    by rewrite <- Hex, Hex1, Hmk.
  - assert (wExists w1 = true \/ envMkdirAll env = None) as Hmk.
    { destruct (wExists w1); [by left|right].
      destruct (envMkdirAll env); [|done]. destruct Hn. by split. }
    destruct (Open_after_mkdir env c w1 Hmk) as (u1 & Hu1 & Hd1 & ->).
    rewrite Hex in Hmk.
    destruct (Open_after_mkdir env c w2 Hmk) as (u2 & Hu2 & Hd2 & ->).
    rewrite <- Hd1, <- Hd2 in Hp.
    by apply recovery_ignores_the_listing_order.
Qed.

End Properties.

(** * The theorems at concrete directories *)

Ltac run_to_Ret :=
  match goal with
  | |- exists a w', ?o = Ret _ w' => vm_compute; eexists _, _; reflexivity
  end.

Lemma Open_returns_no_error_witness :
  exists db w',
    Open (L := stdLogfile) noFaults stdConfig
      (mkWorld false [] [] []) = Ret (Some db, None) w'
    /\ (None : option error) = None /\ exists db0, Some db = Some db0.
Proof.
  assert (H : exists db w',
             Open (L := stdLogfile) noFaults stdConfig
               (mkWorld false [] [] []) = Ret (Some db, None) w') by run_to_Ret.
  destruct H as (db & w' & H). exists db, w'. split; [exact H|].
  exact (Open_returns_no_error (L := stdLogfile)
           noFaults stdConfig (mkWorld false [] [] []) w' (Some db) None H).
Defined.

Lemma malformed_entries_are_skipped_witness :
  malformed (L := stdLogfile) "readme" = true
  /\ result (buildLogFiles (L := stdLogfile) noFaults
               (newLazyDB stdConfig)
               (mkWorld true ([("log.strs.0000000001", [])]
                              ++ ("readme", []) :: []) [] []))
     = result (buildLogFiles (L := stdLogfile) noFaults
                 (newLazyDB stdConfig)
                 (mkWorld true ([("log.strs.0000000001", [])] ++ []) [] [])).
Proof.
  split; [vm_compute; reflexivity|].
  apply (malformed_entries_are_skipped (L := stdLogfile) noFaults (newLazyDB stdConfig) "readme" []).
  vm_compute; reflexivity.
Defined.

Lemma registry_sorted_after_recovery_witness :
  exists db' w',
    buildLogFiles (L := stdLogfile) noFaults
      (newLazyDB stdConfig) exampleDir = Ret (db', None) w'
    /\ isCategory valueTypeString
    /\ exists fids,
         fidsMap db' !! valueTypeString = Some fids
         /\ fids ≡ₚ discovered (L := stdLogfile) valueTypeString
                      (map fst (wDir exampleDir))
         /\ StronglySorted Z.le fids
         /\ (discovered (L := stdLogfile) valueTypeString
               (map fst (wDir exampleDir)) <> [] ->
             is_Some (activeLogFileMap db' !! valueTypeString))
         /\ forall mlf, activeLogFileMap db' !! valueTypeString = Some mlf ->
                        last fids = Some (Fid (lf mlf)).
Proof.
  assert (H : exists db' w',
             buildLogFiles (L := stdLogfile) noFaults
               (newLazyDB stdConfig) exampleDir = Ret (db', None) w')
    by run_to_Ret.
  destruct H as (db' & w' & H). exists db', w'. split; [exact H|].
  assert (Hc : isCategory valueTypeString) by (by vm_compute).
  split; [exact Hc|].
  exact (registry_sorted_after_recovery (L := stdLogfile) noFaults stdConfig exampleDir w' db' valueTypeString
           H Hc).
Defined.

Lemma recovery_active_and_archived_witness :
  exists db' w',
    buildLogFiles (L := stdLogfile) noFaults
      (newLazyDB stdConfig) exampleDir = Ret (db', None) w'
    /\ discovered (L := stdLogfile) valueTypeString
         (map fst (wDir exampleDir)) = [1; 2]
    /\ activeLogFileMap db' !! valueTypeString = Some (recovered valueTypeString 2)
    /\ archivesTheOthers valueTypeString [1; 2] db'.
Proof.
  assert (H : exists db' w',
             buildLogFiles (L := stdLogfile) noFaults
               (newLazyDB stdConfig) exampleDir = Ret (db', None) w')
    by run_to_Ret.
  destruct H as (db' & w' & H). exists db', w'. split; [exact H|].
  assert (HD : discovered (L := stdLogfile) valueTypeString
                 (map fst (wDir exampleDir)) = [1; 2])
    by (vm_compute; reflexivity).
  split; [exact HD|].
  assert (Hne : discovered (L := stdLogfile) valueTypeString
                  (map fst (wDir exampleDir)) <> []) by (by rewrite HD).
  destruct (recovery_active_and_archived (L := stdLogfile) noFaults stdConfig exampleDir w' db'
              valueTypeString H Hne)
    as (init & m & a & Hs & Hm & Hmax & Hact & Harch & Hlook & Hnd).
  rewrite HD in Hs, Hnd. split.
  - rewrite Hact. change (sortFids [1; 2]) with ([1] ++ [2]) in Hs.
    apply app_inj_tail in Hs as [_ <-]. reflexivity.
  - apply Hnd. apply (bool_decide_unpack _). vm_compute. exact I.
Defined.

(** C1, counterexample.  A directory that holds log.strs.01 and log.strs.1
    yields fid 1 twice for the string category: the segment of fid 1 is
    active, and fid 1, the largest discovered fid, is in the archived map
    as well. *)
Lemma recovery_archives_a_repeated_largest_fid :
  exists db' w',
    buildLogFiles (L := stdLogfile) noFaults
      (newLazyDB stdConfig) (dirOf ["log.strs.01"; "log.strs.1"])
    = Ret (db', None) w'
    /\ discovered (L := stdLogfile) valueTypeString
         ["log.strs.01"; "log.strs.1"] = [1; 1]
    /\ ~ archivesTheOthers valueTypeString [1; 1] db'.
Proof.
  eexists _, _. split; [vm_compute; reflexivity|].
  split; [vm_compute; reflexivity|].
  intros (mlf & a & Hact & _ & _ & Harch & Hiff).
  vm_compute in Hact. injection Hact as <-.
  vm_compute in Harch. injection Harch as <-.
  destruct (Hiff 1) as [Hto _]. simpl in Hto.
  destruct Hto as [_ Hne]; [by eexists|]. by apply Hne.
Qed.

Lemma recovery_of_empty_category_witness :
  exists db' w',
    buildLogFiles (L := stdLogfile) noFaults
      (newLazyDB stdConfig) exampleDir = Ret (db', None) w'
    /\ discovered (L := stdLogfile) valueTypeList
         (map fst (wDir exampleDir)) = []
    /\ activeLogFileMap db' !! valueTypeList = None
    /\ (isCategory valueTypeList ->
        fidsMap db' !! valueTypeList = Some []
        /\ archivedLogFile db' !! valueTypeList = Some ∅).
Proof.
  assert (H : exists db' w',
             buildLogFiles (L := stdLogfile) noFaults
               (newLazyDB stdConfig) exampleDir = Ret (db', None) w')
    by run_to_Ret.
  destruct H as (db' & w' & H). exists db', w'. split; [exact H|].
  assert (HD : discovered (L := stdLogfile) valueTypeList
                 (map fst (wDir exampleDir)) = [])
    by (vm_compute; reflexivity).
  split; [exact HD|].
  exact (recovery_of_empty_category (L := stdLogfile)
           noFaults stdConfig exampleDir w' db' valueTypeList H HD).
Defined.

(** C3, counterexample.  Recovery of an empty directory returns an engine
    whose string category has no active segment, so none with fid 1. *)
Lemma recovery_of_empty_directory_has_no_active_segment :
  exists db' w',
    buildLogFiles (L := stdLogfile) noFaults
      (newLazyDB stdConfig) (dirOf []) = Ret (db', None) w'
    /\ discovered (L := stdLogfile) valueTypeString [] = []
    /\ ~ (exists mlf, activeLogFileMap db' !! valueTypeString = Some mlf
                      /\ Fid (lf mlf) = 1).
Proof.
  eexists _, _. split; [vm_compute; reflexivity|]. split; [reflexivity|].
  intros (mlf & Hact & _). vm_compute in Hact. discriminate.
Qed.

Lemma Sync_stops_at_first_failure_witness :
  iterationOrder [valueTypeString; valueTypeHash] syncExampleDB
  /\ map_Forall (fun _ mlf => locked mlf = false) (activeLogFileMap syncExampleDB)
  /\ Sync hashSyncFails [valueTypeString; valueTypeHash] syncExampleDB
       (dirOf [])
     = Ret (setActive valueTypeHash
              (setLocked true (recovered valueTypeHash 7)) syncExampleDB,
            Some (ErrIO "sync"))
           (addSynced [mkLogFile 2 valueTypeString; mkLogFile 7 valueTypeHash]
              (dirOf [])).
Proof.
  assert (Hord : iterationOrder [valueTypeString; valueTypeHash] syncExampleDB).
  { unfold iterationOrder. vm_compute. apply Permutation_swap. }
  assert (Hfree : map_Forall (fun _ mlf => locked mlf = false)
                    (activeLogFileMap syncExampleDB)).
  { apply (bool_decide_unpack _). vm_compute. exact I. }
  split; [exact Hord|]. split; [exact Hfree|].
  apply (proj2 (Sync_stops_at_first_failure hashSyncFails
                  [valueTypeString; valueTypeHash] syncExampleDB (dirOf [])
                  Hord Hfree)
           [valueTypeString] valueTypeHash [] (recovered valueTypeHash 7)
           (ErrIO "sync")).
  - reflexivity.
  - vm_compute; reflexivity.
  - reflexivity.
  - intros t m Ht Hm. apply list_elem_of_singleton in Ht. subst t.
    vm_compute in Hm. injection Hm as <-. reflexivity.
Defined.

(** * Rotation at concrete directories *)



(** * Transactions *)

(** X10. Calls of Set on a transaction, one after the other: the pending
    string entries are afterwards the ones from before followed by one entry
    for each call, in the order of the calls, with the key and the value of
    the call and no expiry; a key set twice is pending twice.  The other
    fields of the transaction stay. *)
Theorem Tx_Set_appends_in_call_order {R} (tx : Tx R)
    (kvs : list (list byte * list byte)) :
  pendingStr (foldl (fun t kv => Tx_Set kv.1 kv.2 t) tx kvs)
    = pendingStr tx ++ map (fun kv => logfile.mkLogEntry kv.1 kv.2 0) kvs
  /\ txOther (foldl (fun t kv => Tx_Set kv.1 kv.2 t) tx kvs) = txOther tx.
Proof.
  revert tx. induction kvs as [|kv kvs IH]; intros tx; simpl.
  - by rewrite app_nil_r.
  - destruct (IH (Tx_Set kv.1 kv.2 tx)) as [Hp Ho]. rewrite Hp, Ho. simpl.
    by rewrite <- app_assoc.
Qed.

(** * Keys and values of the tests *)

Lemma string_length_app (s1 s2 : string) :
  String.length (s1 ++ s2) = (String.length s1 + String.length s2)%nat.
Proof. induction s1 as [|c s1 IH]; simpl; [done|by rewrite IH]. Qed.

Lemma digitsOf_small (n : N) :
  (n < 10)%N -> digitsOf n = String (digitOf n) EmptyString.
Proof.
  intros Hn. rewrite digitsOf_equation_1. simpl.
  destruct (decide (n < 10)%N); [done|lia].
Qed.

Lemma digitsOf_large (n : N) :
  (10 <= n)%N ->
  digitsOf n = (digitsOf (n / 10) ++ String (digitOf (n mod 10)) EmptyString)%string.
Proof.
  intros Hn. rewrite digitsOf_equation_1. simpl.
  destruct (decide (n < 10)%N); [lia|done].
Qed.

Lemma digitsOf_length_le (k : nat) (n : N) :
  (n < 10 ^ N.of_nat (S k))%N -> (String.length (digitsOf n) <= S k)%nat.
Proof.
  revert n. induction k as [|k IH]; intros n Hn.
  - rewrite digitsOf_small; [simpl; lia|]. simpl in Hn. lia.
  - destruct (decide (n < 10)%N) as [Hs|Hs].
    + rewrite digitsOf_small by done. simpl. lia.
    + rewrite digitsOf_large by lia. rewrite string_length_app. simpl.
      assert (n / 10 < 10 ^ N.of_nat (S k))%N.
      { apply N.Div0.div_lt_upper_bound.
        replace (N.of_nat (S (S k))) with (N.succ (N.of_nat (S k))) in Hn by lia.
        rewrite N.pow_succ_r' in Hn. lia. }
      specialize (IH _ H). lia.
Qed.

Lemma digitsOf_length_ge (k : nat) (n : N) :
  (10 ^ N.of_nat k <= n)%N -> (S k <= String.length (digitsOf n))%nat.
Proof.
  revert n. induction k as [|k IH]; intros n Hn.
  - destruct (decide (n < 10)%N) as [Hs|Hs].
    + rewrite digitsOf_small by done. simpl. lia.
    + rewrite digitsOf_large by lia. rewrite string_length_app. simpl. lia.
  - replace (N.of_nat (S k)) with (N.succ (N.of_nat k)) in Hn by lia.
    rewrite N.pow_succ_r' in Hn.
    assert (1 <= 10 ^ N.of_nat k)%N.
    { assert (10 ^ N.of_nat k <> 0)%N by (apply N.pow_nonzero; lia). lia. }
    rewrite digitsOf_large by lia. rewrite string_length_app. simpl.
    assert (10 ^ N.of_nat k <= n / 10)%N.
    { apply N.div_le_lower_bound; lia. }
    specialize (IH _ H0). lia.
Qed.

Lemma zeros_length (k : nat) : String.length (zeros k) = k.
Proof. induction k; simpl; congruence. Qed.

Lemma padZeros_length (w : nat) (s : string) :
  String.length (padZeros w s) = Nat.max w (String.length s).
Proof. unfold padZeros. rewrite string_length_app, zeros_length. lia. Qed.

Lemma Sprintf09d_length (n : Z) :
  (9 <= String.length (Sprintf09d n))%nat
  /\ (String.length (Sprintf09d n) = 9%nat <-> -100000000 < n < 1000000000).
Proof.
  unfold Sprintf09d. destruct (Z.ltb_spec n 0) as [Hn|Hn].
  - cbn [String.length]. rewrite padZeros_length. split; [lia|].
    destruct (decide (Z.abs_N n < 10 ^ N.of_nat 8)%N) as [Hs|Hs].
    + pose proof (digitsOf_length_le 7 _ Hs). change (10 ^ N.of_nat 8)%N with 100000000%N in Hs.
      split; lia.
    + assert (10 ^ N.of_nat 8 <= Z.abs_N n)%N as Hl by lia.
      pose proof (digitsOf_length_ge 8 _ Hl).
      change (10 ^ N.of_nat 8)%N with 100000000%N in Hl. split; lia.
  - rewrite padZeros_length. split; [lia|].
    destruct (decide (Z.abs_N n < 10 ^ N.of_nat 9)%N) as [Hs|Hs].
    + pose proof (digitsOf_length_le 8 _ Hs). change (10 ^ N.of_nat 9)%N with 1000000000%N in Hs.
      split; lia.
    + assert (10 ^ N.of_nat 9 <= Z.abs_N n)%N as Hl by lia.
      pose proof (digitsOf_length_ge 9 _ Hl).
      change (10 ^ N.of_nat 9)%N with 1000000000%N in Hl. split; lia.
Qed.

(** X11. GetKey returns at least 32 bytes, and exactly 32 when the number
    is above -100000000 and below 1000000000, and only then. *)
Theorem GetKey_has_32_bytes (n : Z) :
  (32 <= String.length (GetKey n))%nat
  /\ (String.length (GetKey n) = 32%nat <-> -100000000 < n < 1000000000).
Proof.
  unfold GetKey. rewrite string_length_app.
  destruct (Sprintf09d_length n) as [Hge Hiff].
  change (String.length "kvstore-bench-key------") with 23%nat.
  split; [lia|]. rewrite <- Hiff. lia.
Qed.

Lemma isDigit_digitOf (d : N) :
  (d < 10)%N -> isDigit (digitOf d) = true /\ digitVal (digitOf d) = Z.of_N d.
Proof.
  intros Hd.
  assert (d = 0 \/ d = 1 \/ d = 2 \/ d = 3 \/ d = 4 \/ d = 5 \/ d = 6
          \/ d = 7 \/ d = 8 \/ d = 9)%N as Hc by lia.
  repeat (destruct Hc as [->|Hc]; [by vm_compute|]). subst d. by vm_compute.
Qed.

Lemma parseDigits_app (s1 s2 : string) (acc : Z) :
  parseDigits (s1 ++ s2) acc
    = match parseDigits s1 acc with
      | Some a => parseDigits s2 a
      | None => None
      end.
Proof.
  revert acc. induction s1 as [|c s1 IH]; intros acc; simpl; [done|].
  destruct (isDigit c); [apply IH|done].
Qed.

Lemma parseDigits_digitsOf (n : N) (acc : Z) :
  parseDigits (digitsOf n) acc
    = Some (acc * 10 ^ Z.of_nat (String.length (digitsOf n)) + Z.of_N n).
Proof.
  revert acc. induction n as [n IH] using (well_founded_induction N.lt_wf_0).
  intros acc. destruct (decide (n < 10)%N) as [Hs|Hs].
  - rewrite digitsOf_small by done. simpl.
    destruct (isDigit_digitOf n Hs) as [-> ->]. f_equal; lia.
  - rewrite digitsOf_large by lia. rewrite parseDigits_app.
    assert (n / 10 < n)%N as Hlt by (apply N.div_lt; lia).
    rewrite (IH _ Hlt). simpl.
    assert (n mod 10 < 10)%N as Hm by (apply N.mod_upper_bound; lia).
    destruct (isDigit_digitOf _ Hm) as [-> ->]. f_equal.
    rewrite string_length_app. simpl.
    replace (Z.of_nat (String.length (digitsOf (n / 10)) + 1))
      with (Z.succ (Z.of_nat (String.length (digitsOf (n / 10))))) by lia.
    rewrite Z.pow_succ_r by lia.
    pose proof (N.div_mod n 10 ltac:(lia)) as Hdm.
    assert (Z.of_N n = 10 * Z.of_N (n / 10) + Z.of_N (n mod 10)) as -> by lia.
    ring.
Qed.

Lemma parseDigits_zeros (k : nat) (s : string) :
  parseDigits (zeros k ++ s) 0 = parseDigits s 0.
Proof. induction k as [|k IH]; simpl; [done|]. exact IH. Qed.

Lemma parseDigits_padZeros (w : nat) (n : N) :
  parseDigits (padZeros w (digitsOf n)) 0 = Some (Z.of_N n).
Proof.
  unfold padZeros. rewrite parseDigits_zeros, parseDigits_digitsOf. f_equal; lia.
Qed.

Lemma digitsOf_head (n : N) :
  exists c rest, digitsOf n = String c rest /\ isDigit c = true.
Proof.
  induction n as [n IH] using (well_founded_induction N.lt_wf_0).
  destruct (decide (n < 10)%N) as [Hs|Hs].
  - rewrite digitsOf_small by done. do 2 eexists. split; [done|].
    by destruct (isDigit_digitOf n Hs).
  - rewrite digitsOf_large by lia.
    assert (n / 10 < n)%N as Hlt by (apply N.div_lt; lia).
    destruct (IH _ Hlt) as (c & rest & -> & Hc). simpl. by do 2 eexists.
Qed.

Lemma padZeros_head (w : nat) (n : N) :
  exists c rest, padZeros w (digitsOf n) = String c rest /\ isDigit c = true.
Proof.
  unfold padZeros. destruct (w - String.length (digitsOf n))%nat as [|k]; simpl.
  - apply digitsOf_head.
  - by do 2 eexists.
Qed.

Lemma isDigit_not_sign (c : ascii) : isDigit c = true -> isSign c = false.
Proof.
  destruct c as [[] [] [] [] [] [] [] []]; vm_compute; congruence.
Qed.

Lemma isSign_minus (c : ascii) :
  isSign c = false -> Ascii.eqb c "-" = false.
Proof. unfold isSign. intros H. by apply orb_false_elim in H as [_ ?]. Qed.

(** X12. strconv.Atoi reads back what the format of GetKey prints: for
    every int, Atoi of the zero-padded, signed text is that int, with no
    error. *)
Theorem Atoi_reads_back_Sprintf09d (n : Z) :
  minInt <= n <= maxInt -> Atoi (Sprintf09d n) = Some n.
Proof.
  intros Hr. unfold Sprintf09d. destruct (Z.ltb_spec n 0) as [Hn|Hn].
  - unfold Atoi. change (isSign "-") with true. cbv iota.
    destruct (padZeros_head 8 (Z.abs_N n)) as (c & rest & Hp & _).
    pose proof (parseDigits_padZeros 8 (Z.abs_N n)) as Hv.
    rewrite Hp in *. rewrite Hv. change (Ascii.eqb "-" "-") with true. cbv iota.
    replace (- Z.of_N (Z.abs_N n)) with n by lia.
    destruct (Z.leb_spec minInt n); [|lia]. destruct (Z.leb_spec n maxInt); [|lia].
    done.
  - destruct (padZeros_head 9 (Z.abs_N n)) as (c & rest & Hp & Hc).
    pose proof (parseDigits_padZeros 9 (Z.abs_N n)) as Hv.
    rewrite Hp in *. unfold Atoi.
    rewrite (isDigit_not_sign c Hc), Hv.
    rewrite (isSign_minus c (isDigit_not_sign c Hc)).
    replace (Z.of_N (Z.abs_N n)) with n by lia.
    destruct (Z.leb_spec minInt n); [|lia]. destruct (Z.leb_spec n maxInt); [|lia].
    done.
Qed.

Lemma Atoi_reads_back_Sprintf09d_witness :
  minInt <= -42 <= maxInt /\ Atoi (Sprintf09d (-42)) = Some (-42).
Proof.
  split; [by vm_compute|].
  apply (Atoi_reads_back_Sprintf09d (-42)). by vm_compute.
Defined.

Lemma string_app_inj (p a b : string) : (p ++ a = p ++ b)%string -> a = b.
Proof.
  induction p as [|c p IH]; [done|]. intros H. apply IH.
  change (String c (p ++ a) = String c (p ++ b))%string in H. by injection H.
Qed.

Lemma Sprintf09d_inj (n m : Z) : Sprintf09d n = Sprintf09d m -> n = m.
Proof.
  unfold Sprintf09d.
  pose proof (parseDigits_padZeros 8 (Z.abs_N n)) as Hn8.
  pose proof (parseDigits_padZeros 9 (Z.abs_N n)) as Hn9.
  pose proof (parseDigits_padZeros 8 (Z.abs_N m)) as Hm8.
  pose proof (parseDigits_padZeros 9 (Z.abs_N m)) as Hm9.
  destruct (Z.ltb_spec n 0) as [Hn|Hn], (Z.ltb_spec m 0) as [Hm|Hm]; intros H.
  - injection H as H. rewrite H in Hn8. rewrite Hn8 in Hm8.
    injection Hm8 as Hm8. lia.
  - destruct (padZeros_head 9 (Z.abs_N m)) as (c & rest & Hp & Hc).
    rewrite Hp in H. injection H as <- _. by vm_compute in Hc.
  - destruct (padZeros_head 9 (Z.abs_N n)) as (c & rest & Hp & Hc).
    rewrite Hp in H. injection H as -> _. by vm_compute in Hc.
  - rewrite H in Hn9. rewrite Hn9 in Hm9. injection Hm9 as Hm9. lia.
Qed.

(** X13. GetKey gives different keys for different numbers. *)
Theorem GetKey_is_injective (n m : Z) : GetKey n = GetKey m -> n = m.
Proof.
  unfold GetKey. intros H. apply Sprintf09d_inj. by apply string_app_inj in H.
Qed.

Lemma GetKey_is_injective_witness : GetKey 7 = GetKey 7 /\ 7 = 7.
Proof. split; [reflexivity|]. apply (GetKey_is_injective 7 7). reflexivity. Defined.

Lemma string_get_lt (s : string) (i : nat) :
  (i < String.length s)%nat -> is_Some (String.get i s).
Proof.
  revert i. induction s as [|c s IH]; intros i Hi; simpl in *; [lia|].
  destruct i; [by eexists|]. apply IH. lia.
Qed.

Lemma alphabet_get (r : N) : is_Some (String.get (N.to_nat (r mod 36)) alphabet).
Proof.
  apply string_get_lt. change (String.length alphabet) with 36%nat.
  assert (r mod 36 < 36)%N by (apply N.mod_upper_bound; lia). lia.
Qed.

Lemma GetValueFrom_returns (rnd : nat -> N) (k i : nat) :
  exists s, GetValueFrom rnd i k = Some s
    /\ String.length s = k
    /\ forall j, (j < k)%nat ->
         is_Some (String.get j s)
         /\ String.get j s = String.get (N.to_nat (rnd (i + j)%nat mod 36)) alphabet.
Proof.
  revert i. induction k as [|k IH]; intros i; cbn [GetValueFrom].
  - exists EmptyString. repeat split; try done; lia.
  - destruct (alphabet_get (rnd i)) as [c Hc]. rewrite Hc.
    destruct (IH (S i)) as (s & -> & Hl & Hj).
    exists (String c s). split; [done|]. split; [simpl; by rewrite Hl|].
    intros [|j] Hlt; cbn [String.get].
    + rewrite Nat.add_0_r, Hc. split; [by eexists|done].
    + replace (i + S j)%nat with (S i + j)%nat by lia. apply Hj. lia.
Qed.

(** X14. GetValue never indexes the alphabet out of range: whatever
    rand.Int returns, it returns n bytes (none when n is not positive), and
    byte i is the letter of the alphabet at the i-th random number modulo
    36. *)
Theorem GetValue_returns_n_letters (rnd : nat -> N) (n : Z) :
  exists s, GetValue rnd n = Some s
    /\ String.length s = Z.to_nat n
    /\ forall j, (j < Z.to_nat n)%nat ->
         is_Some (String.get j s)
         /\ String.get j s = String.get (N.to_nat (rnd j mod 36)) alphabet.
Proof.
  unfold GetValue. destruct (GetValueFrom_returns rnd (Z.to_nat n) 0) as (s & Hs & Hl & Hj).
  exists s. repeat split; try done; by apply Hj.
Qed.


(** * The further properties on the example engines *)

Lemma Sync_never_succeeds_after_a_failure_witness :
  Sync hashSyncFails [valueTypeString; valueTypeHash] syncExampleDB (dirOf [])
  = Ret (failedSyncDB, Some (ErrIO "sync"))
        (addSynced [mkLogFile 2 valueTypeString; mkLogFile 7 valueTypeHash]
           (dirOf []))
  /\ iterationOrder [valueTypeString; valueTypeHash] failedSyncDB
  /\ (Sync noFaults [valueTypeString; valueTypeHash] failedSyncDB (dirOf [])
      = Blocked
      \/ exists db'' e2 w'',
           Sync noFaults [valueTypeString; valueTypeHash] failedSyncDB
             (dirOf [])
           = Ret (db'', Some e2) w'').
Proof.
  assert (Hfree : forall t m, activeLogFileMap syncExampleDB !! t = Some m ->
                              locked m = false).
  { apply (bool_decide_unpack
             (map_Forall (fun _ mlf => locked mlf = false)
                (activeLogFileMap syncExampleDB))).
    vm_compute. exact I. }
  assert (H : Sync hashSyncFails [valueTypeString; valueTypeHash]
                syncExampleDB (dirOf [])
              = Ret (failedSyncDB, Some (ErrIO "sync"))
                    (addSynced [mkLogFile 2 valueTypeString;
                                mkLogFile 7 valueTypeHash] (dirOf [])))
    by (vm_compute; reflexivity).
  assert (Hord : iterationOrder [valueTypeString; valueTypeHash] failedSyncDB).
  { unfold iterationOrder. vm_compute. apply Permutation_swap. }
  split; [exact H|]. split; [exact Hord|].
  exact (Sync_never_succeeds_after_a_failure hashSyncFails noFaults
           [valueTypeString; valueTypeHash] [valueTypeString; valueTypeHash]
           syncExampleDB failedSyncDB (dirOf [])
           (addSynced [mkLogFile 2 valueTypeString; mkLogFile 7 valueTypeHash]
              (dirOf []))
           (dirOf []) (ErrIO "sync") Hfree H Hord).
Defined.

Lemma Sync_touches_only_locks_witness :
  Sync hashSyncFails [valueTypeString; valueTypeHash] syncExampleDB (dirOf [])
  = Ret (failedSyncDB, Some (ErrIO "sync"))
        (addSynced [mkLogFile 2 valueTypeString; mkLogFile 7 valueTypeHash]
           (dirOf []))
  /\ fidsMap failedSyncDB = fidsMap syncExampleDB
  /\ archivedLogFile failedSyncDB = archivedLogFile syncExampleDB
  /\ forall t, lf <$> activeLogFileMap failedSyncDB !! t
               = lf <$> activeLogFileMap syncExampleDB !! t.
Proof.
  assert (H : Sync hashSyncFails [valueTypeString; valueTypeHash]
                syncExampleDB (dirOf [])
              = Ret (failedSyncDB, Some (ErrIO "sync"))
                    (addSynced [mkLogFile 2 valueTypeString;
                                mkLogFile 7 valueTypeHash] (dirOf [])))
    by (vm_compute; reflexivity).
  split; [exact H|].
  destruct (Sync_touches_only_locks hashSyncFails
              [valueTypeString; valueTypeHash] syncExampleDB failedSyncDB
              (dirOf [])
              (addSynced [mkLogFile 2 valueTypeString;
                          mkLogFile 7 valueTypeHash] (dirOf []))
              (Some (ErrIO "sync")) H)
    as [(_ & _ & _ & _ & _ & Hf & Ha & Hl) _].
  split; [exact Hf|]. split; [exact Ha|exact Hl].
Defined.

Lemma Open_returns_empty_indexes_witness :
  Open (L := stdLogfile) noFaults stdConfig exampleDir
  = Ret (Some (engineOf exampleOpen), None) (worldOf exampleOpen)
  /\ cfg (engineOf exampleOpen) = stdConfig
  /\ index (engineOf exampleOpen) = ∅
  /\ strIndex (engineOf exampleOpen) = ∅
  /\ hashIndex (engineOf exampleOpen) = ∅
  /\ listIndex (engineOf exampleOpen) = ∅.
Proof.
  assert (H : Open (L := stdLogfile) noFaults stdConfig exampleDir
              = Ret (Some (engineOf exampleOpen), None) (worldOf exampleOpen))
    by (vm_compute; reflexivity).
  split; [exact H|].
  exact (Open_returns_empty_indexes (L := stdLogfile) noFaults stdConfig
           exampleDir (worldOf exampleOpen) (engineOf exampleOpen) None H).
Defined.

Lemma buildLogFiles_adds_to_the_registry_witness :
  exists db' w',
    buildLogFiles (L := stdLogfile) noFaults rotationExampleDB exampleDir
    = Ret (db', None) w'
    /\ fidsMap rotationExampleDB !! valueTypeString = Some [1; 2]
    /\ fidsMap db' !! valueTypeString = Some [1; 1; 2; 2].
Proof.
  assert (H : exists db' w',
             buildLogFiles (L := stdLogfile) noFaults rotationExampleDB
               exampleDir = Ret (db', None) w') by run_to_Ret.
  destruct H as (db' & w' & H). exists db', w'. split; [exact H|].
  assert (Hf : fidsMap rotationExampleDB !! valueTypeString = Some [1; 2])
    by (vm_compute; reflexivity).
  split; [exact Hf|].
  assert (Ha : archivedLogFile rotationExampleDB !! valueTypeString = Some ∅)
    by (vm_compute; reflexivity).
  assert (Hall : forall t, isCategory t ->
                           is_Some (archivedLogFile rotationExampleDB !! t)).
  { intros t Ht. unfold isCategory, logFileTypeNum in Ht.
    assert (t = 0 \/ t = 1 \/ t = 2 \/ t = 3 \/ t = 4) as Hc by lia.
    destruct Hc as [->|[->|[->|[->| ->]]]]; vm_compute; eexists; reflexivity. }
  assert (Hc : isCategory valueTypeString) by (by vm_compute).
  pose proof (buildLogFiles_adds_to_the_registry (L := stdLogfile) noFaults
                rotationExampleDB db' exampleDir w' valueTypeString [1; 2] ∅
                H Hall Hc Hf Ha) as Hx.
  cbv zeta in Hx. destruct Hx as [Hreg _]. rewrite Hreg.
  vm_compute; reflexivity.
Defined.

Lemma archived_fids_never_exceed_the_active_fid_witness :
  buildLogFiles (L := stdLogfile) noFaults (newLazyDB stdConfig) exampleDir
  = Ret (recoveredDB, None) (worldOf exampleRecovery)
  /\ archivedLogFile recoveredDB !! valueTypeString
     = Some (archiveAll valueTypeString [1] ∅)
  /\ archiveAll valueTypeString [1] ∅ !! 1 = Some (recovered valueTypeString 1)
  /\ Fid (lf (recovered valueTypeString 1)) = 1
  /\ exists act, activeLogFileMap recoveredDB !! valueTypeString = Some act
                 /\ 1 <= Fid (lf act).
Proof.
  assert (H : buildLogFiles (L := stdLogfile) noFaults (newLazyDB stdConfig)
                exampleDir
              = Ret (recoveredDB, None) (worldOf exampleRecovery))
    by (vm_compute; reflexivity).
  assert (Ha : archivedLogFile recoveredDB !! valueTypeString
               = Some (archiveAll valueTypeString [1] ∅))
    by (vm_compute; reflexivity).
  assert (Hm : archiveAll valueTypeString [1] ∅ !! 1
               = Some (recovered valueTypeString 1))
    by (vm_compute; reflexivity).
  split; [exact H|]. split; [exact Ha|]. split; [exact Hm|].
  exact (archived_fids_never_exceed_the_active_fid (L := stdLogfile) noFaults
           stdConfig exampleDir (worldOf exampleRecovery) recoveredDB
           valueTypeString 1 (archiveAll valueTypeString [1] ∅)
           (recovered valueTypeString 1) H Ha Hm).
Defined.

Lemma well_formed_name_is_registered_witness :
  buildLogFiles (L := stdLogfile) noFaults (newLazyDB stdConfig) exampleDir
  = Ret (recoveredDB, None) (worldOf exampleRecovery)
  /\ "log.strs.0000000002" ∈ map fst (wDir exampleDir)
  /\ SplitDot "log.strs.0000000002" = ["log"; "strs"; "0000000002"]
  /\ Atoi "0000000002" = Some 2
  /\ exists fids, fidsMap recoveredDB !! valueTypeString = Some fids /\ 2 ∈ fids.
Proof.
  assert (H : buildLogFiles (L := stdLogfile) noFaults (newLazyDB stdConfig)
                exampleDir
              = Ret (recoveredDB, None) (worldOf exampleRecovery))
    by (vm_compute; reflexivity).
  assert (Hin : "log.strs.0000000002" ∈ map fst (wDir exampleDir)).
  { apply (bool_decide_unpack _). vm_compute. exact I. }
  assert (Hpre : HasPrefix "log.strs.0000000002"
                   (FilePrefix (Logfile := stdLogfile)) = true)
    by (vm_compute; reflexivity).
  assert (Hsplit : SplitDot "log.strs.0000000002"
                   = ["log"; "strs"; "0000000002"])
    by (vm_compute; reflexivity).
  assert (Hnum : Atoi "0000000002" = Some 2) by (vm_compute; reflexivity).
  split; [exact H|]. split; [exact Hin|]. split; [exact Hsplit|].
  split; [exact Hnum|].
  pose proof (well_formed_name_is_registered (L := stdLogfile) noFaults
                stdConfig exampleDir (worldOf exampleRecovery) recoveredDB
                "log.strs.0000000002" "log" "strs" "0000000002" 2
                H Hin Hpre Hsplit Hnum) as Hx.
  cbv zeta in Hx. destruct Hx as (_ & _ & _ & Hreg & _).
  assert (Ht : uint8 (default 0 (FileTypesMap (Logfile := stdLogfile) !! "strs"))
               = valueTypeString) by (vm_compute; reflexivity).
  rewrite Ht in Hreg. exact Hreg.
Defined.

Lemma Open_returns_exactly_when_witness :
  (wExists exampleDir = true \/ envMkdirAll noFaults = None)
  /\ envReadDir noFaults = None
  /\ scans (L := stdLogfile) (map fst (wDir exampleDir))
  /\ opensDiscovered (L := stdLogfile) noFaults (map fst (wDir exampleDir)).
Proof.
  apply (proj1 (Open_returns_exactly_when (L := stdLogfile) noFaults stdConfig
                  exampleDir)).
  run_to_Ret.
Defined.

Lemma Open_exits_or_panics_witness :
  Open (L := stdLogfile) mkdirFails stdConfig (mkWorld false [] [] []) = Exit.
Proof.
  apply (proj1 (Open_exits_or_panics (L := stdLogfile) mkdirFails stdConfig
                  (mkWorld false [] [] []))).
  - reflexivity.
  - eexists. reflexivity.
Defined.

Lemma Sync_after_Open_witness :
  Open (L := stdLogfile) noFaults stdConfig exampleDir
  = Ret (Some (engineOf exampleOpen), None) (worldOf exampleOpen)
  /\ iterationOrder [valueTypeString; valueTypeHash] (engineOf exampleOpen)
  /\ Sync noFaults [valueTypeString; valueTypeHash] (engineOf exampleOpen)
       (worldOf exampleOpen)
     = Ret (engineOf exampleOpen, None)
           (addSynced
              (syncedOf (engineOf exampleOpen) [valueTypeString; valueTypeHash])
              (worldOf exampleOpen)).
Proof.
  assert (H : Open (L := stdLogfile) noFaults stdConfig exampleDir
              = Ret (Some (engineOf exampleOpen), None) (worldOf exampleOpen))
    by (vm_compute; reflexivity).
  assert (Hord : iterationOrder [valueTypeString; valueTypeHash]
                   (engineOf exampleOpen)).
  { unfold iterationOrder. vm_compute. apply Permutation_swap. }
  split; [exact H|]. split; [exact Hord|].
  exact (proj1 (Sync_after_Open (L := stdLogfile) noFaults noFaults stdConfig
                  exampleDir (worldOf exampleOpen) (engineOf exampleOpen)
                  [valueTypeString; valueTypeHash] H Hord
                  (fun _ => eq_refl))).
Defined.

Lemma Open_ignores_the_listing_order_witness :
  map fst (wDir (dirOf ["log.strs.0000000001"; "log.strs.0000000002"]))
    ≡ₚ map fst (wDir (dirOf ["log.strs.0000000002"; "log.strs.0000000001"]))
  /\ result (Open (L := stdLogfile) noFaults stdConfig
               (dirOf ["log.strs.0000000001"; "log.strs.0000000002"]))
     = result (Open (L := stdLogfile) noFaults stdConfig
                 (dirOf ["log.strs.0000000002"; "log.strs.0000000001"])).
Proof.
  assert (Hp : map fst (wDir (dirOf ["log.strs.0000000001";
                                     "log.strs.0000000002"]))
               ≡ₚ map fst (wDir (dirOf ["log.strs.0000000002";
                                        "log.strs.0000000001"])))
    by apply Permutation_swap.
  split; [exact Hp|].
  exact (Open_ignores_the_listing_order (L := stdLogfile) noFaults stdConfig
           (dirOf ["log.strs.0000000001"; "log.strs.0000000002"])
           (dirOf ["log.strs.0000000002"; "log.strs.0000000001"])
           eq_refl Hp).
Defined.


(** * The example instance names segments as the scan reads them *)

Lemma digitChar_digit (d : Z) :
  0 <= d < 10 -> isDigit (digitChar d) = true /\ digitVal (digitChar d) = d.
Proof.
  intros Hd.
  assert (d = 0 \/ d = 1 \/ d = 2 \/ d = 3 \/ d = 4 \/ d = 5 \/ d = 6
          \/ d = 7 \/ d = 8 \/ d = 9) as Hc by lia.
  repeat (destruct Hc as [->|Hc]; [by vm_compute|]). subst d. by vm_compute.
Qed.

Lemma decimal_allDigits (w : nat) :
  forall n acc, allDigits acc = true -> allDigits (decimal w n acc) = true.
Proof.
  induction w as [|w IH]; intros n acc Hacc; simpl; [done|].
  apply IH. simpl. rewrite Hacc.
  assert (0 <= n mod 10 < 10) as Hm by (apply Z.mod_pos_bound; lia).
  by destruct (digitChar_digit _ Hm) as [-> _].
Qed.

Lemma decimal_length (w : nat) :
  forall n acc, String.length (decimal w n acc) = (w + String.length acc)%nat.
Proof.
  induction w as [|w IH]; intros n acc; simpl; [done|].
  rewrite IH. simpl. lia.
Qed.

Lemma parseDigits_decimal (w : nat) :
  forall n acc a,
    parseDigits (decimal w n acc) a
    = parseDigits acc (a * 10 ^ Z.of_nat w + n mod 10 ^ Z.of_nat w).
Proof.
  induction w as [|w IH]; intros n acc a.
  - simpl. rewrite Z.mod_1_r. f_equal. lia.
  - cbn [decimal]. rewrite IH. cbn [parseDigits].
    assert (0 <= n mod 10 < 10) as Hm by (apply Z.mod_pos_bound; lia).
    destruct (digitChar_digit _ Hm) as [-> ->]. f_equal.
    replace (Z.of_nat (S w)) with (Z.succ (Z.of_nat w)) by lia.
    rewrite Z.pow_succ_r by lia.
    rewrite (Z.rem_mul_r n 10 (10 ^ Z.of_nat w)) by lia. ring.
Qed.

Lemma isDigit_not_dot (c : ascii) : isDigit c = true -> Ascii.eqb c "." = false.
Proof.
  destruct c as [[] [] [] [] [] [] [] []]; vm_compute; congruence.
Qed.

Lemma SplitDot_allDigits (s : string) : allDigits s = true -> SplitDot s = [s].
Proof.
  induction s as [|c s IH]; simpl; [done|].
  intros [Hc Hs]%andb_true_iff.
  by rewrite (isDigit_not_dot c Hc), (IH Hs).
Qed.

Lemma Atoi_allDigits (s : string) (v : Z) :
  s <> EmptyString -> allDigits s = true -> parseDigits s 0 = Some v ->
  minInt <= v <= maxInt -> Atoi s = Some v.
Proof.
  destruct s as [|c rest]; [done|]. intros _ Hd Hp Hr.
  assert (Hc : isDigit c = true).
  { simpl in Hd. by apply andb_true_iff in Hd as [? _]. }
  unfold Atoi. rewrite (isDigit_not_sign c Hc), Hp.
  rewrite (isSign_minus c (isDigit_not_sign c Hc)).
  destruct (Z.leb_spec minInt v); [|lia]. destruct (Z.leb_spec v maxInt); [|lia].
  done.
Qed.

Lemma stdLogfile_namesEncode : namesEncode (L := stdLogfile).
Proof.
  intros typ f Hc Hr.
  remember (decimal 10 f "") as ds eqn:Eds.
  assert (Hd : allDigits ds = true) by (subst ds; by apply decimal_allDigits).
  assert (Hne : ds <> EmptyString).
  { intros E. pose proof (decimal_length 10 f "") as Hl.
    rewrite <- Eds, E in Hl. simpl in Hl. lia. }
  assert (Hp : parseDigits ds 0 = Some f).
  { subst ds. rewrite parseDigits_decimal. simpl parseDigits. f_equal.
    rewrite Z.mod_small; [lia|]. simpl. lia. }
  assert (Ha : Atoi ds = Some f).
  { apply Atoi_allDigits; try done. unfold minInt, maxInt, intSize. simpl. lia. }
  pose proof (SplitDot_allDigits ds Hd) as Hs.
  assert (Hu : uint32 f = f) by (apply Z.mod_small; lia).
  unfold isCategory, logFileTypeNum in Hc.
  assert (typ = 0 \/ typ = 1 \/ typ = 2 \/ typ = 3 \/ typ = 4) as Ht by lia.
  unfold parseName. cbn [FilePrefix FileName FileTypesMap stdLogfile].
  unfold stdFileName. rewrite <- Eds.
  destruct Ht as [->|[->|[->|[->| ->]]]]; simpl;
    change (String.append "" ds) with ds; rewrite Hs; cbv iota;
    rewrite Ha, Hu; vm_compute; reflexivity.
Qed.


(** * Sync after a failed Sync *)

(** C6, the failing input.  Sync fails on the hash segment and returns the
    error with the lock of that segment still held.  On the engine and the
    world it left, the next Sync does not return nil although every segment
    syncs: it waits on the held lock, in either order of the iteration. *)
Theorem Sync_blocks_after_its_own_failure :
  Sync hashSyncFails [valueTypeString; valueTypeHash] syncExampleDB (dirOf [])
  = Ret (failedSyncDB, Some (ErrIO "sync"))
        (addSynced [mkLogFile 2 valueTypeString; mkLogFile 7 valueTypeHash]
           (dirOf []))
  /\ (forall f, envSync noFaults f = None)
  /\ Sync noFaults [valueTypeString; valueTypeHash] failedSyncDB
       (addSynced [mkLogFile 2 valueTypeString; mkLogFile 7 valueTypeHash]
          (dirOf []))
     = Blocked
  /\ Sync noFaults [valueTypeHash; valueTypeString] failedSyncDB
       (addSynced [mkLogFile 2 valueTypeString; mkLogFile 7 valueTypeHash]
          (dirOf []))
     = Blocked.
Proof.
  split; [vm_compute; reflexivity|]. split; [done|].
  split; vm_compute; reflexivity.
Qed.

(** * Reopening at a concrete directory *)

Lemma recovery_is_idempotent_witness :
  Open (L := stdLogfile) noFaults stdConfig
      (mkWorld false [] [] [])
    = Ret (Some (engineOf firstOpen), None) (worldOf firstOpen)
  /\ writeAll (L := stdLogfile) noFaults threeWrites (engineOf firstOpen)
      (worldOf firstOpen)
     = Ret (writtenDB, writeResults) (worldOf afterWrites)
  /\ activeIsMax writtenDB
  /\ Open (L := stdLogfile) noFaults stdConfig
      (worldOf afterWrites)
     = Ret (Some (engineOf secondOpen), None) (worldOf secondOpen)
  /\ (fun m => Fid (lf m)) <$> activeLogFileMap writtenDB !! valueTypeString
     = Some 2
  /\ getArchivedLogFile writtenDB valueTypeString 1
     = Some (recovered valueTypeString 1)
  /\ (fun m => Fid (lf m))
       <$> activeLogFileMap (engineOf secondOpen) !! valueTypeString
     = (fun m => Fid (lf m)) <$> activeLogFileMap writtenDB !! valueTypeString
  /\ forall f m,
       getArchivedLogFile writtenDB valueTypeString f = Some m ->
       getLogFile (engineOf secondOpen) valueTypeString f = Some (lf m)
       /\ forall off len,
            result (readAt (L := stdLogfile) (engineOf secondOpen) valueTypeString
                      f off len (worldOf secondOpen))
            = result (readAt (L := stdLogfile) writtenDB valueTypeString f off len
                        (worldOf afterWrites)).
Proof.
  assert (H1 : Open (L := stdLogfile) noFaults stdConfig
      (mkWorld false [] [] [])
               = Ret (Some (engineOf firstOpen), None) (worldOf firstOpen))
    by (vm_compute; reflexivity).
  assert (H2 : writeAll (L := stdLogfile) noFaults threeWrites (engineOf firstOpen)
      (worldOf firstOpen)
               = Ret (writtenDB, writeResults) (worldOf afterWrites))
    by (vm_compute; reflexivity).
  assert (Hm : map_Forall
                 (fun typ mlf => maxFid <$> fidsMap writtenDB !! typ
                                 = Some (Fid (lf mlf)))
                 (activeLogFileMap writtenDB))
    by (apply (bool_decide_unpack _); vm_compute; exact I).
  assert (H3 : activeIsMax writtenDB).
  { intros typ fids mlf Hf Ha. specialize (Hm typ mlf Ha). cbv beta in Hm.
    rewrite Hf in Hm. by injection Hm as ->. }
  assert (H4 : Open (L := stdLogfile) noFaults stdConfig
      (worldOf afterWrites)
               = Ret (Some (engineOf secondOpen), None) (worldOf secondOpen))
    by (vm_compute; reflexivity).
  assert (Hc : isCategory valueTypeString) by (by vm_compute).
  split; [exact H1|]. split; [exact H2|]. split; [exact H3|].
  split; [exact H4|].
  split; [vm_compute; reflexivity|]. split; [vm_compute; reflexivity|].
  assert (Hcl : Close writtenDB (worldOf afterWrites)
                = Ret (writtenDB, None) (worldOf afterWrites)) by reflexivity.
  exact (proj2 (recovery_is_idempotent (L := stdLogfile)
           noFaults noFaults stdConfig (mkWorld false [] [] [])
           (worldOf firstOpen) (worldOf afterWrites) (worldOf afterWrites)
           (engineOf firstOpen) writtenDB writtenDB
           threeWrites writeResults None stdLogfile_namesEncode H1 H2 H3 Hcl)
           (engineOf secondOpen) (worldOf secondOpen) H4 valueTypeString Hc).
Defined.

(** C5, counterexample.  The directory holds the string segment of fid
    4294967295 with 120 bytes.  Open makes it active, a write of 60 bytes
    rotates to fid 0, the engine is closed, and Open on the directory it
    left takes 4294967295, the largest fid, as active again: the active fid
    was 0 before closing and is 4294967295 after reopening. *)
Lemma reopening_after_the_fid_wrapped_changes_the_active_fid :
  Open (L := stdLogfile) noFaults stdConfig largestFidDir
  = Ret (Some (engineOf largestFidOpen), None) (worldOf largestFidOpen)
  /\ writeAll (L := stdLogfile) noFaults [(valueTypeString, repeat x01 60)]
       (engineOf largestFidOpen) (worldOf largestFidOpen)
     = Ret (largestFidDB, largestFidResults) (worldOf largestFidWrite)
  /\ Close largestFidDB (worldOf largestFidWrite)
     = Ret (largestFidDB, None) (worldOf largestFidWrite)
  /\ Open (L := stdLogfile) noFaults stdConfig (worldOf largestFidWrite)
     = Ret (Some (engineOf largestFidReopen), None) (worldOf largestFidReopen)
  /\ (fun m => Fid (lf m)) <$> activeLogFileMap largestFidDB !! valueTypeString
     = Some 0
  /\ (fun m => Fid (lf m))
       <$> activeLogFileMap (engineOf largestFidReopen) !! valueTypeString
     = Some 4294967295
  /\ (fun m => Fid (lf m))
       <$> activeLogFileMap (engineOf largestFidReopen) !! valueTypeString
     <> (fun m => Fid (lf m))
          <$> activeLogFileMap largestFidDB !! valueTypeString.
Proof.
  split; [vm_compute; reflexivity|]. split; [vm_compute; reflexivity|].
  split; [reflexivity|]. split; [vm_compute; reflexivity|].
  split; [vm_compute; reflexivity|]. split; [vm_compute; reflexivity|].
  vm_compute. discriminate.
Qed.
